(** * Phoenix response diagnostics: the response normalizer and the path walkers

    A shallow embedding of the three pieces of the repository that carry
    logic:

    - [transform_response] of [phoenix_response_fix.py], the normalizer that
      backfills [text] from [message.content] and back;
    - [extract_content_path] of [debug_api.py], the dotted/bracket path
      walker;
    - the inline path walk of [phoenix_request_analysis] in
      [response_format_analyzer.py].

    Python values live in a store of mutable objects: dictionaries and lists
    are reached through references, so that the shallow copy made by
    [response.copy()] shares the choices with the caller's object exactly as
    it does in the interpreter.  Code is written in a state-and-exception
    monad over that store; [try]/[except] is a combinator of the monad.

    Modelling limits, fixed here once:
    - numbers are integers ([VInt]); floating point is not modelled;
    - text is a Rocq [string] whose characters are the code points below
      256; higher code points are not modelled.  Below 256 [str.isdigit]
      accepts the decimal digits and the superscripts two, three and one
      (178, 179, 185), and [int] refuses the superscripts;
    - a subscript of a list or a string must fit a machine word of 64 bits;
    - [int] keeps the interpreter's default limit of 4300 digits for the
      text it reads.  The other resources of the interpreter are unbounded:
      [json.dumps] fails on what it cannot encode (an object of another
      class, a container inside itself), not on the depth of a value, nor
      on a number of more than 4300 digits, which no JSON text read by the
      same interpreter yields;
    - logging calls are dropped: they only format text.  The one argument of
      a logging call that can fail, [json.dumps(response)] on line 52, is
      kept as [json_dumps]. *)

From Stdlib Require Import Ascii String.
From stdpp Require Import gmap strings list fin_maps pretty.

Open Scope string_scope.

(** ** The Python object model *)

Module Py.

Definition loc := nat.

(** Immediate values and references to store objects. *)
Inductive val :=
  | VNone
  | VBool (b : bool)
  | VInt (n : Z)
  | VStr (s : string)
  | VRef (l : loc).

(** Store objects: [dict] with string keys, and [list]. *)
Inductive obj :=
  | ODict (d : gmap string val)
  | OList (xs : list val).

Abbreviation heap := (gmap loc obj).

#[global] Instance val_eq_dec : EqDecision val.
Proof. solve_decision. Defined.

#[global] Instance obj_eq_dec : EqDecision obj.
Proof. solve_decision. Defined.

(** A location no object of the store lives at. *)
Definition fresh_loc (h : heap) : loc := S (max_list (elements (dom h))).

(** Exceptions: the class, and the text [str(e)] gives. *)
Inductive exn_class :=
  | KeyError
  | IndexError
  | TypeError
  | AttributeError
  | ValueError.

#[global] Instance exn_class_eq_dec : EqDecision exn_class.
Proof. solve_decision. Defined.

Record exn := Exn { exn_cls : exn_class; exn_msg : string }.

Inductive result (A : Type) :=
  | Normal (a : A)
  | Raise (e : exn).
Arguments Normal {A} a.
Arguments Raise {A} e.

(** Computations: read and update the store, return or raise. *)
Definition M (A : Type) : Type := heap → heap * result A.

Definition ret {A} (a : A) : M A := λ h, (h, Normal a).

Definition raise {A} (c : exn_class) (msg : string) : M A :=
  λ h, (h, Raise (Exn c msg)).

Definition bind {A B} (m : M A) (k : A → M B) : M B :=
  λ h, match m h with
       | (h', Normal a) => k a h'
       | (h', Raise e) => (h', Raise e)
       end.

Declare Scope py_scope.
Delimit Scope py_scope with py.
Notation "x <- m ;; k" := (bind m (λ x, k))
  (at level 100, m at next level, right associativity) : py_scope.
Notation "m1 ;;; m2" := (bind m1 (λ _, m2))
  (at level 100, right associativity) : py_scope.
Open Scope py_scope.

(** [try: body except Exception: handler] *)
Definition try_except {A} (body : M A) (handler : exn → M A) : M A :=
  λ h, match body h with
       | (h', Normal a) => (h', Normal a)
       | (h', Raise e) => handler e h'
       end.

(** [try: body except (C1, ..., Cn) as e: handler]; other classes propagate. *)
Definition try_except_in {A} (classes : list exn_class) (body : M A)
    (handler : exn → M A) : M A :=
  λ h, match body h with
       | (h', Normal a) => (h', Normal a)
       | (h', Raise e) =>
           if bool_decide (exn_cls e ∈ classes) then handler e h'
           else (h', Raise e)
       end.

(** Short-circuit [a and b], [a or b], and [not a] on conditions. *)
Definition andM (a b : M bool) : M bool :=
  x <- a ;; if x then b else ret false.

Definition orM (a b : M bool) : M bool :=
  x <- a ;; if x then ret true else b.

Definition notM (a : M bool) : M bool :=
  x <- a ;; ret (negb x).

(** [for x in xs: body x] over a snapshot of the items. *)
Fixpoint for_each (xs : list val) (body : val → M unit) : M unit :=
  match xs with
  | [] => ret tt
  | x :: xs' => body x ;;; for_each xs' body
  end.

(** [type(v).__name__].  A reference to no object of the store stands for
    an object of some other class. *)
Definition type_name (h : heap) (v : val) : string :=
  match v with
  | VNone => "NoneType"
  | VBool _ => "bool"
  | VInt _ => "int"
  | VStr _ => "str"
  | VRef l =>
      match h !! l with
      | Some (ODict _) => "dict"
      | Some (OList _) => "list"
      | None => "object"
      end
  end.

Definition is_dict (h : heap) (v : val) : bool :=
  match v with
  | VRef l => match h !! l with Some (ODict _) => true | _ => false end
  | _ => false
  end.

Definition is_list (h : heap) (v : val) : bool :=
  match v with
  | VRef l => match h !! l with Some (OList _) => true | _ => false end
  | _ => false
  end.

(** [isinstance(v, dict)] and [isinstance(v, list)] *)
Definition isinstance_dict (v : val) : M bool := λ h, (h, Normal (is_dict h v)).
Definition isinstance_list (v : val) : M bool := λ h, (h, Normal (is_list h v)).

(** The one-character strings of a string, in order. *)
Fixpoint chars (s : string) : list string :=
  match s with
  | EmptyString => []
  | String c s' => String c EmptyString :: chars s'
  end.

(** [s in t] on strings: [s] occurs in [t]. *)
Definition is_substring (s t : string) : bool :=
  match s with
  | EmptyString => true
  | _ => match String.index 0 s t with Some _ => true | None => false end
  end.

(** [k in v] for a string [k]. *)
Definition contains (k : string) (v : val) : M bool := λ h,
  match v with
  | VStr s => (h, Normal (is_substring k s))
  | VRef l =>
      match h !! l with
      | Some (ODict d) => (h, Normal (bool_decide (is_Some (d !! k))))
      | Some (OList xs) => (h, Normal (bool_decide (VStr k ∈ xs)))
      | None =>
          (h, Raise (Exn TypeError "argument of type 'object' is not iterable"))
      end
  | _ =>
      (h, Raise (Exn TypeError
                   ("argument of type '" ++ type_name h v ++ "' is not iterable")))
  end.

(** Subscripts that occur in the sources: a string or an integer. *)
Inductive key :=
  | KStr (s : string)
  | KInt (i : Z).

(** [repr] of a subscript, as [str(KeyError(k))] shows it. *)
Definition repr_key (k : key) : string :=
  match k with
  | KStr s => "'" ++ s ++ "'"
  | KInt i => pretty i
  end.

(** Sequence indexing with Python's negative indices. *)
Definition seq_index {A} (xs : list A) (i : Z) : option A :=
  if bool_decide (0 ≤ i)%Z then xs !! Z.to_nat i
  else if bool_decide (- Z.of_nat (length xs) ≤ i)%Z
       then xs !! Z.to_nat (Z.of_nat (length xs) + i)
       else None.

(** An index fits a machine word ([Py_ssize_t], 64 bits). *)
Definition fits_index (i : Z) : bool :=
  ((-9223372036854775808 <=? i) && (i <=? 9223372036854775807))%Z.

Definition index_too_large : exn :=
  Exn IndexError "cannot fit 'int' into an index-sized integer".

(** [v[k]] *)
Definition getitem (v : val) (k : key) : M val := λ h,
  let not_subscriptable :=
    (h, Raise (Exn TypeError ("'" ++ type_name h v ++ "' object is not subscriptable"))) in
  match v with
  | VStr s =>
      match k with
      | KInt i =>
          if fits_index i then
            match seq_index (chars s) i with
            | Some c => (h, Normal (VStr c))
            | None => (h, Raise (Exn IndexError "string index out of range"))
            end
          else (h, Raise index_too_large)
      | KStr _ => (h, Raise (Exn TypeError "string indices must be integers, not 'str'"))
      end
  | VRef l =>
      match h !! l with
      | Some (ODict d) =>
          match k with
          | KStr s =>
              match d !! s with
              | Some x => (h, Normal x)
              | None => (h, Raise (Exn KeyError (repr_key k)))
              end
          | KInt _ => (h, Raise (Exn KeyError (repr_key k)))
          end
      | Some (OList xs) =>
          match k with
          | KInt i =>
              if fits_index i then
                match seq_index xs i with
                | Some x => (h, Normal x)
                | None => (h, Raise (Exn IndexError "list index out of range"))
                end
              else (h, Raise index_too_large)
          | KStr _ =>
              (h, Raise (Exn TypeError "list indices must be integers or slices, not str"))
          end
      | None => not_subscriptable
      end
  | _ => not_subscriptable
  end.

(** [v[k] = x] for a string [k]. *)
Definition setitem (v : val) (k : string) (x : val) : M unit := λ h,
  match v with
  | VRef l =>
      match h !! l with
      | Some (ODict d) => (<[l := ODict (<[k := x]> d)]> h, Normal tt)
      | Some (OList _) =>
          (h, Raise (Exn TypeError "list indices must be integers or slices, not str"))
      | None =>
          (h, Raise (Exn TypeError "'object' object does not support item assignment"))
      end
  | _ =>
      (h, Raise (Exn TypeError
                   ("'" ++ type_name h v ++ "' object does not support item assignment")))
  end.

(** [v.get(k)] *)
Definition dict_get (v : val) (k : string) : M val := λ h,
  match v with
  | VRef l =>
      match h !! l with
      | Some (ODict d) => (h, Normal (default VNone (d !! k)))
      | _ =>
          (h, Raise (Exn AttributeError
                       ("'" ++ type_name h v ++ "' object has no attribute 'get'")))
      end
  | _ =>
      (h, Raise (Exn AttributeError
                   ("'" ++ type_name h v ++ "' object has no attribute 'get'")))
  end.

(** A dict display [{...}]: a new object. *)
Definition new_dict (d : gmap string val) : M val := λ h,
  let l := fresh_loc h in (<[l := ODict d]> h, Normal (VRef l)).

(** [v.copy()]: a new object with the same entries (a shallow copy). *)
Definition copy (v : val) : M val := λ h,
  match v with
  | VRef l =>
      match h !! l with
      | Some o => let l' := fresh_loc h in (<[l' := o]> h, Normal (VRef l'))
      | None =>
          (h, Raise (Exn AttributeError "'object' object has no attribute 'copy'"))
      end
  | _ =>
      (h, Raise (Exn AttributeError
                   ("'" ++ type_name h v ++ "' object has no attribute 'copy'")))
  end.

(** Truth value: [None], [False], [0], empty text and empty containers are
    false. *)
Definition truth (h : heap) (v : val) : bool :=
  match v with
  | VNone => false
  | VBool b => b
  | VInt n => negb (n =? 0)%Z
  | VStr s => negb (String.eqb s "")
  | VRef l =>
      match h !! l with
      | Some (ODict d) => negb (bool_decide (d = ∅))
      | Some (OList xs) => negb (bool_decide (xs = []))
      | None => true
      end
  end.

Definition truthy (v : val) : M bool := λ h, (h, Normal (truth h v)).

(** The reference, if [v] is one, is to an object of the store. *)
Definition allocated (h : heap) (v : val) : Prop :=
  match v with
  | VRef l => is_Some (h !! l)
  | _ => True
  end.

(** [v] can be iterated over: text, or an object of the store. *)
Definition is_iterable (h : heap) (v : val) : bool :=
  match v with
  | VStr _ => true
  | VRef l => bool_decide (is_Some (h !! l))
  | _ => false
  end.

(** [len(v)] *)
Definition len (v : val) : M Z := λ h,
  let no_len :=
    (h, Raise (Exn TypeError ("object of type '" ++ type_name h v ++ "' has no len()"))) in
  match v with
  | VStr s => (h, Normal (Z.of_nat (String.length s)))
  | VRef l =>
      match h !! l with
      | Some (ODict d) => (h, Normal (Z.of_nat (size d)))
      | Some (OList xs) => (h, Normal (Z.of_nat (length xs)))
      | None => no_len
      end
  | _ => no_len
  end.

(** The items [for x in v] (here through [enumerate]) runs over: the
    elements of a list, the characters of a string, the keys of a dict.
    The keys come in the order of the map, not in insertion order; they
    are strings, which the one loop of the sources passes over. *)
Definition iter (v : val) : M (list val) := λ h,
  let not_iterable :=
    (h, Raise (Exn TypeError ("'" ++ type_name h v ++ "' object is not iterable"))) in
  match v with
  | VStr s => (h, Normal (VStr <$> chars s))
  | VRef l =>
      match h !! l with
      | Some (ODict d) => (h, Normal (VStr <$> (map_to_list d).*1))
      | Some (OList xs) => (h, Normal xs)
      | None => not_iterable
      end
  | _ => not_iterable
  end.

(** [json.dumps] accepts a value when every object below it is a dict or
    a list and these form no cycle.  A walk that follows more references in
    a row than the store has objects has met one of them twice, so a depth
    of [size h] decides it.  The text produced only goes to the debug
    log. *)
Fixpoint serializable_at (depth : nat) (h : heap) (v : val) : bool :=
  match v with
  | VRef l =>
      match depth with
      | O => false
      | S n =>
          match h !! l with
          | Some (ODict d) => forallb (serializable_at n h) (map_to_list d).*2
          | Some (OList xs) => forallb (serializable_at n h) xs
          | None => false
          end
      end
  | _ => true
  end.

Definition serializable (h : heap) (v : val) : bool :=
  serializable_at (size h) h v.

(** The first error of [f] along [xs]. *)
Fixpoint first_error {A} (f : A → option exn) (xs : list A) : option exn :=
  match xs with
  | [] => None
  | x :: xs' =>
      match f x with
      | Some e => Some e
      | None => first_error f xs'
      end
  end.

(** What [json.dumps] raises, at the first value it cannot encode: a
    [TypeError] at an object that is neither a dict nor a list, a
    [ValueError] at a container met again below itself.  The entries of a
    dict are visited in the order of the map, not in insertion order, which
    tells only when a value holds errors of both kinds.  It raises exactly
    when [serializable] is false ([dumps_error_serializable] below). *)
Fixpoint dumps_error (depth : nat) (h : heap) (v : val) : option exn :=
  match v with
  | VRef l =>
      match h !! l with
      | None =>
          Some (Exn TypeError
                  ("Object of type " ++ type_name h v ++ " is not JSON serializable"))
      | Some o =>
          match depth with
          | O => Some (Exn ValueError "Circular reference detected")
          | S n =>
              first_error (dumps_error n h)
                match o with
                | ODict d => (map_to_list d).*2
                | OList xs => xs
                end
          end
      end
  | _ => None
  end.

Definition json_dumps (v : val) : M unit := λ h,
  match dumps_error (size h) h v with
  | None => (h, Normal tt)
  | Some e => (h, Raise e)
  end.

End Py.

(** ** JSON documents

    The values a response is parsed from.  [load] builds the objects of a
    document in the store the way [json.loads] does: every container is a
    new object, nothing is shared. *)

Module Json.
Import Py.

#[warnings="-register-all"] Inductive t :=
  | Null
  | Bool (b : bool)
  | Num (n : Z)
  | Str (s : string)
  | List (xs : list t)
  | Dict (kvs : list (string * t)).

(** Loading the items of a list, and the entries of a dict, in order; a
    later entry under the same key wins. *)
Section load_children.
Context {A : Type} (load : A → heap → val * heap).

Fixpoint load_items (xs : list A) (h : heap) : list val * heap :=
  match xs with
  | [] => ([], h)
  | x :: xs' =>
      let '(v, h1) := load x h in
      let '(vs, h2) := load_items xs' h1 in
      (v :: vs, h2)
  end.

Fixpoint load_entries (kvs : list (string * A)) (d : gmap string val)
    (h : heap) : gmap string val * heap :=
  match kvs with
  | [] => (d, h)
  | (k, x) :: kvs' =>
      let '(v, h1) := load x h in
      load_entries kvs' (<[k := v]> d) h1
  end.
End load_children.

Fixpoint load (j : t) (h : heap) : val * heap :=
  match j with
  | Null => (VNone, h)
  | Bool b => (VBool b, h)
  | Num n => (VInt n, h)
  | Str s => (VStr s, h)
  | List xs =>
      let '(vs, h') := load_items load xs h in
      let l := fresh_loc h' in
      (VRef l, <[l := OList vs]> h')
  | Dict kvs =>
      let '(d, h') := load_entries load kvs ∅ h in
      let l := fresh_loc h' in
      (VRef l, <[l := ODict d]> h')
  end.

(** Induction on documents, with the hypothesis on every item and entry. *)
Fixpoint t_ind' (P : t → Prop)
    (HNull : P Null) (HBool : ∀ b, P (Bool b)) (HNum : ∀ n, P (Num n))
    (HStr : ∀ s, P (Str s))
    (HList : ∀ xs, Forall P xs → P (List xs))
    (HDict : ∀ kvs, Forall (λ kv, P kv.2) kvs → P (Dict kvs))
    (j : t) : P j :=
  match j with
  | Null => HNull
  | Bool b => HBool b
  | Num n => HNum n
  | Str s => HStr s
  | List xs =>
      HList xs
        ((fix go (xs : list t) : Forall P xs :=
            match xs with
            | [] => Forall_nil_2 P
            | x :: xs' =>
                Forall_cons_2 P x xs'
                  (t_ind' P HNull HBool HNum HStr HList HDict x) (go xs')
            end) xs)
  | Dict kvs =>
      HDict kvs
        ((fix go (kvs : list (string * t)) : Forall (λ kv, P kv.2) kvs :=
            match kvs with
            | [] => Forall_nil_2 _
            | kv :: kvs' =>
                Forall_cons_2 (λ kv, P kv.2) kv kvs'
                  (t_ind' P HNull HBool HNum HStr HList HDict kv.2) (go kvs')
            end) kvs)
  end.

(** What [load] leaves behind: the old store untouched, and the value
    serializable within the objects it added. *)
Definition loaded (h : heap) (v : val) (h' : heap) : Prop :=
  h ⊆ h' ∧
  ∃ n, (n + size h ≤ size h')%nat ∧ serializable_at n h' v = true.

(** The objects [load] adds are shared with nothing: they refer to added
    objects only ([extends]), the value returned is an added object
    ([new_value]), and no two items of an added list have the same
    [message] object ([apart]). *)
Definition references (o : obj) (l : loc) : Prop :=
  match o with
  | ODict d => ∃ k, d !! k = Some (VRef l)
  | OList xs => VRef l ∈ xs
  end.

Definition apart (h : heap) (vs : list val) : Prop :=
  ∀ i j ci cj di dj m,
    i ≠ j → vs !! i = Some (VRef ci) → vs !! j = Some (VRef cj) →
    h !! ci = Some (ODict di) → h !! cj = Some (ODict dj) →
    di !! "message" = Some (VRef m) → dj !! "message" ≠ Some (VRef m).

Definition new_value (h h' : heap) (v : val) : Prop :=
  ∀ l, v = VRef l → h !! l = None ∧ is_Some (h' !! l).

Definition extends (h h' : heap) : Prop :=
  h ⊆ h' ∧
  (∀ l o l', h !! l = None → h' !! l = Some o → references o l' →
             h !! l' = None ∧ is_Some (h' !! l')) ∧
  (∀ l vs, h !! l = None → h' !! l = Some (OList vs) → apart h' vs).

Definition load_spec (x : t) : Prop :=
  ∀ h, extends h (load x h).2 ∧ new_value h (load x h).2 (load x h).1.

(** [v == j]: the value [v] of store [h] equals the document [j]
    (dictionaries compare by their entries, whatever the order). *)
Fixpoint equals (h : heap) (v : val) (j : t) : bool :=
  match j, v with
  | Null, VNone => true
  | Bool b, VBool b' => bool_decide (b = b')
  | Num n, VInt n' => bool_decide (n = n')
  | Str s, VStr s' => bool_decide (s = s')
  | List xs, VRef l =>
      match h !! l with
      | Some (OList vs) =>
          (fix equals_items (vs : list val) (xs : list t) {struct xs} : bool :=
             match vs, xs with
             | [], [] => true
             | v :: vs', x :: xs' => equals h v x && equals_items vs' xs'
             | _, _ => false
             end) vs xs
      | _ => false
      end
  | Dict kvs, VRef l =>
      match h !! l with
      | Some (ODict d) =>
          bool_decide (dom d = list_to_set kvs.*1) &&
          (fix equals_entries (kvs : list (string * t)) : bool :=
             match kvs with
             | [] => true
             | (k, x) :: kvs' =>
                 match d !! k with
                 | Some v => equals h v x && equals_entries kvs'
                 | None => false
                 end
             end) kvs
      | _ => false
      end
  | _, _ => false
  end.

End Json.

(** ** [phoenix_response_fix.py] *)

Module PhoenixResponseFix.
Import Py.

Definition sentinel : string := "__phoenix_processed__".
Definition empty_content : string := "No content available".

(** The body of the loop over the choices (lines 68-101). *)
Definition process_choice (choice : val) : M unit :=
  is_d <- isinstance_dict choice ;;
  if negb is_d then ret tt (* continue *) else
  has_content <-
    andM (contains "message" choice)
      (andM (m <- getitem choice (KStr "message") ;; isinstance_dict m)
            (m <- getitem choice (KStr "message") ;; contains "content" m)) ;;
  if has_content then
    has_text <- contains "text" choice ;;
    if negb has_text then
      m <- getitem choice (KStr "message") ;;
      c <- getitem m (KStr "content") ;;
      setitem choice "text" c
    else ret tt
  else
    has_text <- contains "text" choice ;;
    if has_text then
      no_message <-
        orM (notM (contains "message" choice))
            (notM (m <- getitem choice (KStr "message") ;; isinstance_dict m)) ;;
      if no_message then
        t <- getitem choice (KStr "text") ;;
        m <- new_dict (<["role" := VStr "assistant"]> (<["content" := t]> ∅)) ;;
        setitem choice "message" m
      else
        m <- getitem choice (KStr "message") ;;
        has_c <- contains "content" m ;;
        if negb has_c then
          t <- getitem choice (KStr "text") ;;
          m <- getitem choice (KStr "message") ;;
          setitem m "content" t
        else ret tt
    else
      setitem choice "text" (VStr empty_content) ;;;
      m <- new_dict (<["role" := VStr "assistant"]>
                       (<["content" := VStr empty_content]> ∅)) ;;
      setitem choice "message" m.

Definition transform_response (response : val) : M val :=
  early <- orM (notM (isinstance_dict response)) (contains sentinel response) ;;
  if early then ret response else
  json_dumps response ;;;
  transformed <- copy response ;;
  setitem transformed sentinel (VBool true) ;;;
  try_except
    (no_choices <-
       orM (notM (contains "choices" transformed))
           (notM (c <- getitem transformed (KStr "choices") ;; truthy c)) ;;
     if no_choices then ret transformed else
     choices <- getitem transformed (KStr "choices") ;;
     items <- iter choices ;;
     for_each items process_choice ;;;
     ret transformed)
    (λ _, ret response).

End PhoenixResponseFix.

(** ** Path text *)

Module PathText.
Import Py.

Definition dot : ascii := "."%char.
Definition lbracket : ascii := "["%char.
Definition rbracket : ascii := "]"%char.

(** [s.replace(c, '')] for a one-character [c]. *)
Fixpoint remove_char (c : ascii) (s : string) : string :=
  match s with
  | EmptyString => EmptyString
  | String a s' =>
      if Ascii.eqb a c then remove_char c s' else String a (remove_char c s')
  end.

(** [s.replace(c, c')] for one-character [c] and [c']. *)
Fixpoint replace_char (c c' : ascii) (s : string) : string :=
  match s with
  | EmptyString => EmptyString
  | String a s' =>
      String (if Ascii.eqb a c then c' else a) (replace_char c c' s')
  end.

(** [s.split(sep)] for a one-character [sep]: never empty, and the empty
    text splits into one empty piece. *)
Fixpoint split (sep : ascii) (s : string) : list string :=
  match s with
  | EmptyString => [EmptyString]
  | String a s' =>
      if Ascii.eqb a sep then EmptyString :: split sep s'
      else match split sep s' with
           | piece :: pieces => String a piece :: pieces
           | [] => [String a EmptyString]
           end
  end.

(** [a.isdecimal()] below 256: the digits 0 to 9. *)
Definition is_decimal_char (a : ascii) : bool :=
  let n := Ascii.nat_of_ascii a in ((48 <=? n) && (n <=? 57))%nat.

(** [a.isdigit()] below 256: the decimal digits and the superscripts two,
    three and one. *)
Definition is_digit_char (a : ascii) : bool :=
  let n := Ascii.nat_of_ascii a in
  (is_decimal_char a || (n =? 178) || (n =? 179) || (n =? 185))%nat.

Fixpoint all_digits (s : string) : bool :=
  match s with
  | EmptyString => true
  | String a s' => is_digit_char a && all_digits s'
  end.

(** [s.isdigit()] *)
Definition isdigit (s : string) : bool :=
  match s with
  | EmptyString => false
  | _ => all_digits s
  end.

(** The number a text of decimal digits denotes. *)
Fixpoint int_acc (acc : Z) (s : string) : Z :=
  match s with
  | EmptyString => acc
  | String a s' => int_acc (10 * acc + (Z.of_nat (Ascii.nat_of_ascii a) - 48)) s'
  end.

Definition int_value (s : string) : Z := int_acc 0 s.

Fixpoint all_decimal (s : string) : bool :=
  match s with
  | EmptyString => true
  | String a s' => is_decimal_char a && all_decimal s'
  end.

(** The decimal digits a text starts with: what the conversion counts
    against its limit. *)
Fixpoint leading_decimals (s : string) : nat :=
  match s with
  | EmptyString => O
  | String a s' => if is_decimal_char a then S (leading_decimals s') else O
  end.

(** [sys.get_int_max_str_digits()], at its default. *)
Definition int_max_str_digits : nat := 4300.

(** The first [n] characters of a text. *)
Fixpoint first_chars (n : nat) (s : string) : string :=
  match n, s with
  | S n', String a s' => String a (first_chars n' s')
  | _, _ => EmptyString
  end.

(** [int(s)], as the sources call it: on a text [s.isdigit()] accepts.
    Such a text holds no white space, sign or underscore, so that [int]
    takes it when all of it is decimal digits, no more of them than the
    limit.  The message holds [repr(s)] cut at 200 characters. *)
Definition int (s : string) : M Z :=
  if (int_max_str_digits <? leading_decimals s)%nat then
    raise ValueError
      ("Exceeds the limit (4300 digits) for integer string conversion: value has "
       ++ pretty (leading_decimals s)
       ++ " digits; use sys.set_int_max_str_digits() to increase the limit")
  else
    match s with
    | EmptyString => raise ValueError "invalid literal for int() with base 10: ''"
    | _ =>
        if all_decimal s then ret (int_value s)
        else raise ValueError
               ("invalid literal for int() with base 10: "
                ++ first_chars 200 ("'" ++ s ++ "'"))
    end.

(** [path.replace(']', '').replace('[', '.').split('.')] *)
Definition parts (path : string) : list string :=
  split dot (replace_char lbracket dot (remove_char rbracket path)).

End PathText.

(** ** [debug_api.py] *)

Module DebugApi.
Import Py PathText.

(** The loop of [extract_content_path] (lines 108-115); [return None] in
    the loop ends the walk. *)
Fixpoint walk (parts : list string) (result : val) : M val :=
  match parts with
  | [] => ret result
  | part :: rest =>
      if isdigit part then
        i <- int part ;;
        r <- getitem result (KInt i) ;;
        walk rest r
      else
        r <- dict_get result part ;;
        match r with
        | VNone => ret VNone
        | _ => walk rest r
        end
  end.

(** The classes named by the [except] clause of line 116. *)
Definition caught : list exn_class :=
  [KeyError; IndexError; TypeError; AttributeError].

Definition extract_content_path (data : val) (path : string) : M val :=
  try_except_in caught
    (walk (parts path) data)
    (λ e, ret (VStr ("Error accessing path: " ++ exn_msg e))).

End DebugApi.

(** ** [response_format_analyzer.py] *)

Module ResponseFormatAnalyzer.
Import Py PathText.

(** One pass of the loop of [phoenix_request_analysis] (lines 156-180):
    the class of the current value is tested first; [Some] is the next
    value, [None] is [content = None; break]. *)
Definition step (part : string) (content : val) : M (option val) :=
  try_except
    (if isdigit part then
       idx <- int part ;;
       ok <- andM (isinstance_list content)
                  (n <- len content ;; ret (bool_decide (idx < n)%Z)) ;;
       if ok then r <- getitem content (KInt idx) ;; ret (Some r)
       else ret None
     else
       ok <- andM (isinstance_dict content) (contains part content) ;;
       if ok then r <- getitem content (KStr part) ;; ret (Some r)
       else ret None)
    (λ _, ret None).

Fixpoint walk (parts : list string) (content : val) : M val :=
  match parts with
  | [] => ret content
  | part :: rest =>
      next <- step part content ;;
      match next with
      | Some r => walk rest r
      | None => ret VNone
      end
  end.

(** Lines 151-180, from [extract_path] to the final [content]. *)
Definition phoenix_extract (response : val) (extract_path : string) : M val :=
  walk (parts extract_path) response.

End ResponseFormatAnalyzer.

(** ** The effect of the normalizer on the store

    One pass of the loop body never raises, so it is a function on stores;
    [fix_choice] writes that function out and [process_choice_run] below
    proves it is the body.  The observations [field] and [message_field]
    read a choice the way the claims speak of it. *)

Module Effect.
Import Py PhoenixResponseFix.

(** [choice["message"]] when it is a dict: its location and entries. *)
Definition message_dict (h : heap) (d : gmap string val)
    : option (loc * gmap string val) :=
  match d !! "message" with
  | Some (VRef m) =>
      match h !! m with
      | Some (ODict dm) => Some (m, dm)
      | _ => None
      end
  | _ => None
  end.

Definition assistant_message (content : val) : gmap string val :=
  <["role" := VStr "assistant"]> (<["content" := content]> ∅).

(** Lines 83-86: a new message around the text. *)
Definition add_message (h : heap) (c : loc) (d : gmap string val) (t : val) : heap :=
  let m := fresh_loc h in
  <[c := ODict (<["message" := VRef m]> d)]> (<[m := ODict (assistant_message t)]> h).

(** Lines 96-101: placeholder text and message. *)
Definition add_fallback (h : heap) (c : loc) (d : gmap string val) : heap :=
  let d1 := <["text" := VStr empty_content]> d in
  add_message (<[c := ODict d1]> h) c d1 (VStr empty_content).

Definition fix_choice (h : heap) (choice : val) : heap :=
  match choice with
  | VRef c =>
      match h !! c with
      | Some (ODict d) =>
          match message_dict h d with
          | Some (m, dm) =>
              match dm !! "content", d !! "text" with
              | Some x, None => <[c := ODict (<["text" := x]> d)]> h
              | Some _, Some _ => h
              | None, Some t => <[m := ODict (<["content" := t]> dm)]> h
              | None, None => add_fallback h c d
              end
          | None =>
              match d !! "text" with
              | Some t => add_message h c d t
              | None => add_fallback h c d
              end
          end
      | _ => h
      end
  | _ => h
  end.

Definition fix_choices (h : heap) (items : list val) : heap :=
  foldl fix_choice h items.

(** The store after lines 55-58: the tagged shallow copy is a new object. *)
Definition tagged_copy (h : heap) (d : gmap string val) : heap :=
  <[fresh_loc h := ODict (<[sentinel := VBool true]> d)]> h.

(** What [transform_response] does on a dict [d] at [l] that carries no
    sentinel, once line 52 has passed: lines 55-109 as one expression.
    The handler of line 106 is reached from [enumerate] only. *)
Definition after_copy (h : heap) (l : loc) (d : gmap string val)
    : heap * result val :=
  let h1 := tagged_copy h d in
  let out := VRef (fresh_loc h) in
  match d !! "choices" with
  | None => (h1, Normal out)
  | Some c =>
      if truth h1 c then
        match iter c h1 with
        | (_, Normal items) => (fix_choices h1 items, Normal out)
        | (_, Raise _) => (h1, Normal (VRef l))
        end
      else (h1, Normal out)
  end.

(** [choice[k]] when [choice] is a dict holding [k]. *)
Definition field (h : heap) (c : loc) (k : string) : option val :=
  match h !! c with
  | Some (ODict d) => d !! k
  | _ => None
  end.

(** [choice["message"][k]] when both are dicts and [k] is held. *)
Definition message_field (h : heap) (c : loc) (k : string) : option val :=
  match h !! c with
  | Some (ODict d) =>
      match message_dict h d with
      | Some (_, dm) => dm !! k
      | None => None
      end
  | _ => None
  end.

(** The state the fallback of lines 96-101 leaves a choice in. *)
Definition placeholder_filled (h : heap) (c : loc) : Prop :=
  field h c "text" = Some (VStr empty_content) ∧
  message_field h c "content" = Some (VStr empty_content) ∧
  message_field h c "role" = Some (VStr "assistant").

(** A choice with neither [text] nor [message.content]; [mv] is its
    [message] entry, which, when a reference, is to an object. *)
Definition content_less (h : heap) (c : loc) (mv : option val) : Prop :=
  (∃ d, h !! c = Some (ODict d) ∧ d !! "text" = None ∧ d !! "message" = mv) ∧
  message_field h c "content" = None ∧
  (∀ m, mv = Some (VRef m) → is_Some (h !! m)).

(** No other choice of [items] has the object [mv] refers to as its own
    [message]. *)
Definition message_unshared (h : heap) (items : list val) (c : loc)
    (mv : option val) : Prop :=
  ∀ m c' d', mv = Some (VRef m) → VRef c' ∈ items → c' ≠ c →
             h !! c' = Some (ODict d') → d' !! "message" ≠ Some (VRef m).

(** Either the choice is still content-less and apart, or it is filled. *)
Definition fallback_invariant (h : heap) (items : list val) (c : loc)
    (mv : option val) : Prop :=
  placeholder_filled h c ∨
  (content_less h c mv ∧ message_unshared h items c mv).

End Effect.

(** ** Sample responses

    The documents the scenarios of the specification and the test cases of
    [test_transformer] run on, each stored in an empty store. *)

Module Examples.
Import Py Json.

Definition stored (j : Json.t) : val * heap := load j ∅.

(** [{"choices": [{"index": 0}]}] *)
Definition fallback_response : Json.t :=
  Dict [("choices", List [Dict [("index", Num 0)]])].

(** [{"choices": []}] *)
Definition empty_choices : Json.t :=
  Dict [("choices", List [])].

(** [{"choices": [{"message": {"role": "assistant", "content": "X"}}]}] *)
Definition standard_response : Json.t :=
  Dict [("choices",
         List [Dict [("message", Dict [("role", Str "assistant");
                                       ("content", Str "X")])]])].

(** [{"choices": [{"message": {"content": "X"}, "text": "Y"}]}] *)
Definition both_fields_response : Json.t :=
  Dict [("choices",
         List [Dict [("message", Dict [("content", Str "X")]);
                     ("text", Str "Y")]])].

(** [{"choices": [7, {"index": 0}]}] *)
Definition mixed_choices : Json.t :=
  Dict [("choices", List [Num 7; Dict [("index", Num 0)]])].

(** [{"choices": 5}] *)
Definition numeric_choices : Json.t :=
  Dict [("choices", Num 5)].

(** [{"__phoenix_processed__": false, "choices": [{"index": 0}]}] *)
Definition marked_false : Json.t :=
  Dict [("__phoenix_processed__", Bool false);
        ("choices", List [Dict [("index", Num 0)]])].

(** [d = {}; d["self"] = d], at address 1. *)
Definition circular_response : heap :=
  <[1 := ODict (<["self" := VRef 1]> ∅)]> ∅.

(** [{"when": object()}], at address 1; the object is at an address the
    store describes no further. *)
Definition opaque_response : heap :=
  <[1 := ODict (<["when" := VRef 9]> ∅)]> ∅.

(** [{"a": {"b": [1, 2], "n": null}}] *)
Definition nested_document : Json.t :=
  Dict [("a", Dict [("b", List [Num 1; Num 2]); ("n", Null)])].

(** The text of one character, the superscript two. *)
Definition superscript_two : string := String "178"%char EmptyString.

(** ["1" * n] *)
Fixpoint ones (n : nat) : string :=
  match n with
  | O => EmptyString
  | S n' => String "1"%char (ones n')
  end.

End Examples.

(** * More of the sources

    The callers of [transform_response] in [phoenix_response_fix.py], the
    checks of [debug_api.py], the last extraction of
    [response_format_analyzer.py] and the hand-written transformer and
    comparison of [trace_vs_ui_tester.py]. *)

(** ** [phoenix_response_fix.py]: the middleware and the self-test *)

Module PhoenixResponseFixHooks.
Import Py PhoenixResponseFix.

(** Lines 184-185, and again 186-187 with ["response"]:
    [if k in trace_data and isinstance(trace_data[k], dict):
       trace_data[k] = transform_response(trace_data[k])]. *)
Definition transform_entry (trace_data : val) (k : string) : M unit :=
  go <- andM (contains k trace_data)
             (o <- getitem trace_data (KStr k) ;; isinstance_dict o) ;;
  if go then
    o <- getitem trace_data (KStr k) ;;
    t <- transform_response o ;;
    setitem trace_data k t
  else ret tt.

(** [wrapped_handle_llm_trace] up to the call of Phoenix's own handler
    (lines 180-189); that handler is not part of the repository. *)
Definition wrapped_handle_llm_trace (trace_data : val) : M unit :=
  try_except
    (is_d <- isinstance_dict trace_data ;;
     if is_d then
       transform_entry trace_data "outputs" ;;;
       transform_entry trace_data "response"
     else ret tt)
    (λ _, ret tt).

(** What [test_transformer] logs for one transformed response
    (lines 284-300). *)
Inductive verdict :=
  | Successful
  | Incomplete
  | NoChoices.

Definition check_transformed (transformed : val) : M verdict :=
  has_choices <-
    andM (contains "choices" transformed)
         (c <- getitem transformed (KStr "choices") ;; truthy c) ;;
  if has_choices then
    cs <- getitem transformed (KStr "choices") ;;
    choice <- getitem cs (KInt 0) ;;
    has_text <- contains "text" choice ;;
    has_message_content <-
      andM (contains "message" choice)
        (andM (m <- getitem choice (KStr "message") ;; isinstance_dict m)
              (m <- getitem choice (KStr "message") ;; contains "content" m)) ;;
    ret (if has_text && has_message_content then Successful else Incomplete)
  else ret NoChoices.

(** One round of the loop of [test_transformer] (lines 280-300). *)
Definition test_case (original : val) : M verdict :=
  transformed <- transform_response original ;;
  check_transformed transformed.

End PhoenixResponseFixHooks.

(** ** [debug_api.py]: which path to suggest *)

Module DebugApiChecks.
Import Py.

(** [response["choices"][0]] *)
Definition first_choice (response : val) : M val :=
  cs <- getitem response (KStr "choices") ;;
  getitem cs (KInt 0).

(** Lines 178-180 of [suggest_phoenix_config]. *)
Definition has_message_content (response : val) : M bool :=
  andM (c <- dict_get response "choices" ;; truthy c)
    (andM (cs <- getitem response (KStr "choices") ;;
           n <- len cs ;; ret (bool_decide (0 < n)%Z))
       (andM (choice <- first_choice response ;; contains "message" choice)
             (choice <- first_choice response ;;
              m <- getitem choice (KStr "message") ;;
              contains "content" m))).

(** The path lines 192-196 put into the suggested configuration. *)
Definition suggested_path (response : val) : M string :=
  b <- has_message_content response ;;
  ret (if b then "choices[0].message.content" else "choices[0].text").

End DebugApiChecks.

(** ** [response_format_analyzer.py]: what would be displayed *)

Module ExtractionSteps.
Import Py PathText.

(** The loop of lines 343-349; [break] leaves [content] at [None]. *)
Fixpoint walk (parts : list string) (content : val) : M val :=
  match parts with
  | [] => ret content
  | part :: rest =>
      if isdigit part then
        i <- int part ;;
        r <- getitem content (KInt i) ;;
        walk rest r
      else
        r <- dict_get content part ;;
        match r with
        | VNone => ret VNone
        | _ => walk rest r
        end
  end.

(** Lines 340-352: the primary path, with [except: pass]. *)
Definition primary (response : val) (extract_path : string) : M val :=
  try_except (walk (parts extract_path) response) (λ _, ret VNone).

(** Lines 355-365: the fallbacks, [text] first. *)
Definition fallback (response : val) : M val :=
  usable <-
    andM (contains "choices" response)
      (andM (c <- getitem response (KStr "choices") ;; truthy c)
            (cs <- getitem response (KStr "choices") ;;
             c0 <- getitem cs (KInt 0) ;; isinstance_dict c0)) ;;
  if usable then
    cs <- getitem response (KStr "choices") ;;
    c0 <- getitem cs (KInt 0) ;;
    has_text <- contains "text" c0 ;;
    if has_text then getitem c0 (KStr "text")
    else
      has_message <- contains "message" c0 ;;
      if has_message then
        message <- getitem c0 (KStr "message") ;;
        ok <- andM (isinstance_dict message) (contains "content" message) ;;
        if ok then getitem message (KStr "content") else ret VNone
      else ret VNone
  else ret VNone.

(** Lines 337-373 of [trace_phoenix_extraction_steps]: the content the
    last block reports, or no report when the outer handler is reached. *)
Definition display_content (response : val) (extract_path : string)
    : M (option val) :=
  try_except
    (shown <- primary response extract_path ;;
     match shown with
     | VNone => v <- fallback response ;; ret (Some v)
     | _ => ret (Some shown)
     end)
    (λ _, ret None).

End ExtractionSteps.

(** ** [trace_vs_ui_tester.py] *)

Module TraceVsUiTester.
Import Py PathText.

(** [s.replace("[]", "[0]")] *)
Fixpoint fill_empty_brackets (s : string) : string :=
  match s with
  | EmptyString => EmptyString
  | String a s' =>
      if Ascii.eqb a lbracket then
        match s' with
        | String b s'' =>
            if Ascii.eqb b rbracket
            then String lbracket (String "0" (String rbracket (fill_empty_brackets s'')))
            else String a (fill_empty_brackets s')
        | EmptyString => String a EmptyString
        end
      else String a (fill_empty_brackets s')
  end.

(** The fields of lines 291-293. *)
Definition ui_fields : list string :=
  ["content"; "message"; "text"; "choices[].text"; "choices[].message.content"].

(** Line 297 *)
Definition field_parts (field : string) : list string :=
  parts (fill_empty_brackets field).

(** The loop of lines 301-311; [Some] is the value to go on with, [None]
    is [output_value = None; break]. *)
Definition field_step (part : string) (output_value : val) : M (option val) :=
  if isdigit part then
    try_except_in [IndexError; TypeError]
      (i <- int part ;;
       r <- getitem output_value (KInt i) ;; ret (Some r))
      (λ _, ret None)
  else
    is_d <- isinstance_dict output_value ;;
    r <- (if is_d then dict_get output_value part else ret VNone) ;;
    match r with
    | VNone => ret None
    | _ => ret (Some r)
    end.

Fixpoint field_walk (parts : list string) (output_value : val) : M val :=
  match parts with
  | [] => ret output_value
  | part :: rest =>
      next <- field_step part output_value ;;
      match next with
      | Some r => field_walk rest r
      | None => ret VNone
      end
  end.

(** Lines 350-357 of [test_with_custom_transformer]. *)
Definition custom_transformer (api_response : val) : M val :=
  transformed <- copy api_response ;;
  applies <-
    andM (contains "choices" transformed)
      (andM (c <- getitem transformed (KStr "choices") ;; truthy c)
         (andM (cs <- getitem transformed (KStr "choices") ;;
                c0 <- getitem cs (KInt 0) ;; contains "message" c0)
               (cs <- getitem transformed (KStr "choices") ;;
                c0 <- getitem cs (KInt 0) ;;
                m <- getitem c0 (KStr "message") ;; contains "content" m))) ;;
  (if applies then
     cs <- getitem transformed (KStr "choices") ;;
     c0 <- getitem cs (KInt 0) ;;
     m <- getitem c0 (KStr "message") ;;
     content <- getitem m (KStr "content") ;;
     cs' <- getitem transformed (KStr "choices") ;;
     c0' <- getitem cs' (KInt 0) ;;
     setitem c0' "text" content
   else ret tt) ;;;
  ret transformed.

(** Lines 206-209, and again 221-224: the content of one choice. *)
Definition choice_content (choice : val) : M val :=
  has_content <-
    andM (contains "message" choice)
         (m <- getitem choice (KStr "message") ;; contains "content" m) ;;
  if has_content then
    m <- getitem choice (KStr "message") ;;
    getitem m (KStr "content")
  else
    has_text <- contains "text" choice ;;
    if has_text then getitem choice (KStr "text") else ret VNone.

(** Lines 203-209 of [compare_response_with_trace]. *)
Definition api_content (api_response : val) : M val :=
  usable <-
    andM (truthy api_response)
      (andM (contains "choices" api_response)
            (c <- getitem api_response (KStr "choices") ;; truthy c)) ;;
  if usable then
    cs <- getitem api_response (KStr "choices") ;;
    choice <- getitem cs (KInt 0) ;;
    choice_content choice
  else ret VNone.

(** Lines 212-230 of [compare_response_with_trace]. *)
Definition trace_content (trace_data : val) : M val :=
  has_trace <- truthy trace_data ;;
  if has_trace then
    has_outputs <- contains "outputs" trace_data ;;
    from_outputs <-
      (if has_outputs then
         outputs <- getitem trace_data (KStr "outputs") ;;
         direct <- andM (truthy outputs) (contains "content" outputs) ;;
         if direct then getitem outputs (KStr "content")
         else
           usable <-
             andM (truthy outputs)
               (andM (contains "choices" outputs)
                     (c <- getitem outputs (KStr "choices") ;; truthy c)) ;;
           if usable then
             cs <- getitem outputs (KStr "choices") ;;
             choice <- getitem cs (KInt 0) ;;
             choice_content choice
           else ret VNone
       else ret VNone) ;;
    use_metadata <-
      andM (notM (truthy from_outputs)) (contains "metadata" trace_data) ;;
    if use_metadata then
      metadata <- getitem trace_data (KStr "metadata") ;;
      has_output_content <- contains "output_content" metadata ;;
      if has_output_content then getitem metadata (KStr "output_content")
      else ret from_outputs
    else ret from_outputs
  else ret VNone.

End TraceVsUiTester.

(** ** States the properties below speak of *)

Module Outcomes.
Import Py PhoenixResponseFix Effect.

(** A choice that has both fields. *)
Definition complete (h : heap) (c : loc) : Prop :=
  is_Some (field h c "text") ∧ is_Some (message_field h c "content").

(** A choice with a [text] and no [message.content]; [mv] is its [message]
    entry, which, when a reference, is to an object, a dict or not as
    [has_dict] says. *)
Definition text_only (h : heap) (c : loc) (t : val) (mv : option val)
    (has_dict : bool) : Prop :=
  (∃ d, h !! c = Some (ODict d) ∧ d !! "text" = Some t ∧ d !! "message" = mv) ∧
  message_field h c "content" = None ∧
  (∀ m, mv = Some (VRef m) → is_Some (h !! m)) ∧
  is_dict h (default VNone mv) = has_dict.

(** The state lines 82-90 leave such a choice in: the text is under
    [message.content], and a message made on line 83 says who spoke. *)
Definition backfilled (h : heap) (c : loc) (t : val) (has_dict : bool) : Prop :=
  field h c "text" = Some t ∧
  message_field h c "content" = Some t ∧
  (has_dict = false → message_field h c "role" = Some (VStr "assistant")).

Definition backfill_invariant (h : heap) (items : list val) (c : loc) (t : val)
    (mv : option val) (has_dict : bool) : Prop :=
  backfilled h c t has_dict ∨
  (text_only h c t mv has_dict ∧ message_unshared h items c mv).

(** The entry of a trace under [k] needs no work: it is missing, or not a
    dict, or a dict that carries the sentinel. *)
Definition settled (h : heap) (dt : gmap string val) (k : string) : Prop :=
  match dt !! k with
  | Some (VRef lo) =>
      match h !! lo with
      | Some (ODict d) => is_Some (d !! sentinel)
      | _ => True
      end
  | _ => True
  end.

(** A computation that leaves the store as it found it. *)
Definition reads {A} (m : M A) : Prop := ∀ h, (m h).1 = h.

End Outcomes.

(** ** More documents and stores *)

Module MoreExamples.
Import Py Json.

(** The second test case of [test_transformer]:
    [{"id": "chatcmpl-123", "choices": [{"text": "Hello from text field", "index": 0}]}] *)
Definition text_response : Json.t :=
  Dict [("id", Str "chatcmpl-123");
        ("choices", List [Dict [("text", Str "Hello from text field");
                                ("index", Num 0)]])].

(** The first test case of [test_transformer]. *)
Definition standard_test_response : Json.t :=
  Dict [("id", Str "chatcmpl-123");
        ("choices",
         List [Dict [("message", Dict [("role", Str "assistant");
                                       ("content", Str "Hello from standard format")]);
                     ("index", Num 0)]])].

(** [{"outputs": {"choices": [{"index": 0}]}}] *)
Definition trace_with_outputs : Json.t :=
  Dict [("outputs", Dict [("choices", List [Dict [("index", Num 0)]])])].

(** [{"outputs": {"__phoenix_processed__": true, "choices": []}}] *)
Definition processed_trace : Json.t :=
  Dict [("outputs", Dict [("__phoenix_processed__", Bool true);
                          ("choices", List [])])].

End MoreExamples.

Module HookExamples.
Import Py.

(** A trace whose [outputs] holds an object [json.dumps] cannot encode:
    [{"outputs": {"when": <object>}}], the object at an address the store
    describes no further. *)
Definition opaque_outputs : heap :=
  <[2 := ODict (<["outputs" := VRef 1]> ∅)]>
    (<[1 := ODict (<["when" := VRef 9]> ∅)]> ∅).

(** A trace that records [standard_response] as its outputs. *)
Definition recorded_trace : Json.t :=
  Json.Dict [("outputs", Examples.standard_response)].

End HookExamples.

(** * Facts about the model *)

Import Py PhoenixResponseFix Effect.

(** ** What [json.dumps] rejects *)

Lemma first_error_forallb {A} (f : A → option exn) (g : A → bool) (xs : list A) :
  (∀ x, f x = None ↔ g x = true) →
  first_error f xs = None ↔ forallb g xs = true.
Proof.
  intros Hfg. induction xs as [|x xs IH]; simpl; [done|].
  specialize (Hfg x). destruct (f x), (g x); simpl; try done.
  - destruct Hfg as [_ Hfg]. by specialize (Hfg eq_refl).
  - destruct Hfg as [Hfg _]. by specialize (Hfg eq_refl).
Qed.

Lemma dumps_error_serializable (n : nat) (h : heap) (v : val) :
  dumps_error n h v = None ↔ serializable_at n h v = true.
Proof.
  revert v. induction n as [|n IH]; intros v; destruct v as [| | | |l];
    simpl; try done.
  - by destruct (h !! l) as [[]|].
  - destruct (h !! l) as [[d|xs]|]; [| |done];
      by apply first_error_forallb.
Qed.

Lemma first_error_class {A} (f : A → option exn) (xs : list A) (e : exn) :
  (∀ x e, f x = Some e → exn_cls e = TypeError ∨ exn_cls e = ValueError) →
  first_error f xs = Some e → exn_cls e = TypeError ∨ exn_cls e = ValueError.
Proof.
  intros Hf. induction xs as [|x xs IH]; simpl; [done|].
  destruct (f x) as [e'|] eqn:Hx; [|done]. intros [= <-]. eauto.
Qed.

Lemma dumps_error_class (n : nat) (h : heap) (v : val) (e : exn) :
  dumps_error n h v = Some e → exn_cls e = TypeError ∨ exn_cls e = ValueError.
Proof.
  revert v e. induction n as [|n IH]; intros v e; destruct v as [| | | |l];
    simpl; try done.
  - destruct (h !! l) as [[]|]; intros [= <-]; simpl; eauto.
  - destruct (h !! l) as [[d|xs]|]; [| |intros [= <-]; simpl; eauto];
      by apply first_error_class.
Qed.

Lemma json_dumps_accepts (h : heap) (v : val) :
  serializable h v = true → json_dumps v h = (h, Normal tt).
Proof.
  intros Hser%dumps_error_serializable. unfold json_dumps. by rewrite Hser.
Qed.

Lemma json_dumps_rejects (h : heap) (v : val) :
  serializable h v = false →
  ∃ e, json_dumps v h = (h, Raise e) ∧
       (exn_cls e = TypeError ∨ exn_cls e = ValueError).
Proof.
  intros Hser. unfold json_dumps.
  destruct (dumps_error (size h) h v) as [e|] eqn:He.
  - exists e. split; [done|]. by eapply dumps_error_class.
  - apply dumps_error_serializable in He. unfold serializable in Hser. congruence.
Qed.

(** ** Fresh locations *)

Lemma fresh_loc_None (h : heap) : h !! fresh_loc h = None.
Proof.
  destruct (h !! fresh_loc h) as [o|] eqn:E; [|done].
  assert (fresh_loc h ∈ elements (dom h)) as Hin.
  { apply elem_of_elements, elem_of_dom. eauto. }
  apply max_list_elem_of_le in Hin. unfold fresh_loc, loc in *. lia.
Qed.

Lemma fresh_loc_ne (h : heap) (l : loc) : is_Some (h !! l) → l ≠ fresh_loc h.
Proof. intros [o Ho] ->. rewrite fresh_loc_None in Ho. done. Qed.

Lemma fresh_loc_insert (h : heap) (l : loc) (o : obj) :
  is_Some (h !! l) → fresh_loc (<[l := o]> h) = fresh_loc h.
Proof.
  intros Hl. unfold fresh_loc. f_equal. f_equal. f_equal.
  rewrite dom_insert_L. apply elem_of_dom in Hl. set_solver.
Qed.

Ltac lookups :=
  repeat match goal with
  | H : ?h !! ?l = _ |- context [?h !! ?l] => rewrite H
  | |- context [<[?l := _]> _ !! ?l] => rewrite lookup_insert_eq
  | H : ?l ≠ ?l' |- context [<[?l := _]> _ !! ?l'] => rewrite (lookup_insert_ne _ l l') by exact H
  | H : ?l' ≠ ?l |- context [<[?l := _]> _ !! ?l'] => rewrite (lookup_insert_ne _ l l') by (symmetry; exact H)
  end.

Ltac crunch := repeat (progress (simpl; lookups)).

Lemma process_choice_run (v : val) (h : heap) :
  process_choice v h = (fix_choice h v, Normal tt).
Proof.
  unfold process_choice, fix_choice, andM, orM, notM, bind, ret, isinstance_dict, is_dict.
  destruct v as [| | | |c]; try reflexivity.
  destruct (h !! c) as [[d|xs]|] eqn:Hc; try reflexivity.
  unfold contains, getitem, setitem, new_dict, message_dict, add_fallback, add_message.
  assert (c ≠ fresh_loc h) as Hfresh by (apply fresh_loc_ne; eauto).
  destruct (d !! "text") as [t|] eqn:Ht;
  (destruct (d !! "message") as [[| | | |m]|] eqn:Hm; [| | | |destruct (h !! m) as [[dm|ys]|] eqn:Hhm; [destruct (dm !! "content") as [x|] eqn:Hx| |] |]);
  repeat (progress (crunch; rewrite ?fresh_loc_insert by eauto)); reflexivity.
Qed.

Lemma for_each_run (items : list val) (h : heap) :
  for_each items process_choice h = (fix_choices h items, Normal tt).
Proof.
  revert h. induction items as [|v items IH]; intros h; [done|].
  simpl. unfold bind. rewrite process_choice_run. apply IH.
Qed.


Lemma iter_heap (v : val) (h h' : heap) (r : result (list val)) :
  iter v h = (h', r) → h' = h.
Proof.
  unfold iter. intros H.
  destruct v as [| | | |l]; simplify_eq; try done.
  destruct (h !! l) as [[?|?]|]; simplify_eq; done.
Qed.

Lemma transform_guard (r : val) (h : heap) :
  is_dict h r = false ∨
  (∃ l d, r = VRef l ∧ h !! l = Some (ODict d) ∧ is_Some (d !! sentinel)) →
  transform_response r h = (h, Normal r).
Proof.
  unfold transform_response, orM, notM, bind, ret, isinstance_dict.
  intros [Hnd | (l & d & -> & Hl & [x Hx])].
  - rewrite Hnd. reflexivity.
  - unfold is_dict, contains. rewrite !Hl. simpl. rewrite Hl, Hx. reflexivity.
Qed.

Lemma transform_body (l : loc) (d : gmap string val) (h : heap) :
  h !! l = Some (ODict d) → d !! sentinel = None →
  serializable h (VRef l) = true →
  transform_response (VRef l) h = after_copy h l d.
Proof.
  intros Hl Hs Hser%dumps_error_serializable.
  assert (l ≠ fresh_loc h) as Hfresh by (apply fresh_loc_ne; eauto).
  unfold transform_response, after_copy, tagged_copy, orM, notM, bind, ret,
    isinstance_dict, is_dict, json_dumps, copy, setitem, try_except, contains,
    getitem, truthy.
  unfold sentinel in *. crunch. rewrite Hser. crunch. rewrite insert_insert_eq.
  rewrite (lookup_insert_ne d "__phoenix_processed__" "choices") by done.
  destruct (d !! "choices") as [c|] eqn:Hc; crunch; [|done].
  rewrite (lookup_insert_ne d "__phoenix_processed__" "choices") by done. rewrite Hc.
  simpl.
  destruct (truth _ c) eqn:Htr; crunch; [|done].
  rewrite (lookup_insert_ne d "__phoenix_processed__" "choices") by done. rewrite Hc.
  simpl.
  destruct (iter c _) as [h2 [items|e]] eqn:Hit; simpl.
  - apply iter_heap in Hit as ->. rewrite for_each_run. reflexivity.
  - apply iter_heap in Hit as ->. reflexivity.
Qed.

Ltac fix_cases h v :=
  unfold fix_choice, add_fallback, add_message, message_dict;
  let c := fresh "c" in let d := fresh "d" in let m := fresh "m" in
  let dm := fresh "dm" in
  let Hc := fresh "Hc" in let Hmsg := fresh "Hmsg" in let Hm := fresh "Hm" in
  let Hcontent := fresh "Hcontent" in let Htext := fresh "Htext" in
  destruct v as [| | | |c]; [| | | |destruct (h !! c) as [[d|?]|] eqn:Hc;
    [destruct (d !! "text") eqn:Htext;
     (destruct (d !! "message") as [[| | | |m]|] eqn:Hmsg;
      [| | | |destruct (h !! m) as [[dm|?]|] eqn:Hm;
              [destruct (dm !! "content") eqn:Hcontent| |] |])| |]].

Ltac fresh_contra :=
  match goal with
  | H : ?h !! fresh_loc ?h = Some _ |- _ => rewrite fresh_loc_None in H; discriminate H
  end.

Ltac split_lookup :=
  rewrite ?fresh_loc_insert by eauto;
  repeat (rewrite lookup_insert; case_decide; simplify_eq);
  try fresh_contra.

Lemma fix_choice_keys (h : heap) (v : val) (l : loc) (d : gmap string val) :
  h !! l = Some (ODict d) →
  ∃ d', fix_choice h v !! l = Some (ODict d') ∧
        ∀ k, k ≠ "text" → k ≠ "message" → k ≠ "content" → d' !! k = d !! k.
Proof.
  intros Hl. fix_cases h v; eauto.
  all: split_lookup. all: eexists; (split; [done|]).
  all: intros k ? ? ?; rewrite ?lookup_insert_ne by done; done.
Qed.

Lemma fix_choice_list (h : heap) (v : val) (l : loc) (xs : list val) :
  h !! l = Some (OList xs) → fix_choice h v !! l = Some (OList xs).
Proof.
  intros Hl. fix_cases h v; eauto.
  all: split_lookup; done.
Qed.

Ltac heap_step :=
  first
  [ progress (rewrite ?fresh_loc_insert by eauto)
  | fresh_contra
  | match goal with
    | H : ?m !! ?k = _ |- context [?m !! ?k] => rewrite H
    | |- context [<[?i := _]> _ !! ?j] =>
        rewrite (lookup_insert _ i j); case_decide; simplify_eq
    end
  | progress simplify_eq
  | progress cbn beta iota ].

Ltac heap_auto := repeat heap_step; try done.

(** [choice["message"]["content"]], once there, stays. *)
Lemma fix_choice_content (h : heap) (v : val) (c : loc) (x : val) :
  message_field h c "content" = Some x →
  message_field (fix_choice h v) c "content" = Some x.
Proof.
  unfold message_field, message_dict. intros Hf.
  destruct (h !! c) as [[dc|]|] eqn:Hhc; try done.
  destruct (dc !! "message") as [[| | | |mc]|] eqn:Hdm; try done.
  destruct (h !! mc) as [[dmc|]|] eqn:Hmc; try done.
  fix_cases h v; heap_auto.
Qed.

(** So does [role] beside it. *)
Lemma fix_choice_role (h : heap) (v : val) (c : loc) (x r : val) :
  message_field h c "content" = Some x →
  message_field h c "role" = Some r →
  message_field (fix_choice h v) c "role" = Some r.
Proof.
  unfold message_field, message_dict. intros Hf Hr.
  destruct (h !! c) as [[dc|]|] eqn:Hhc; try done.
  destruct (dc !! "message") as [[| | | |mc]|] eqn:Hdm; try done.
  destruct (h !! mc) as [[dmc|]|] eqn:Hmc; try done.
  fix_cases h v; heap_auto.
Qed.

(** [choice["text"]], once there, stays. *)
Lemma fix_choice_text (h : heap) (v : val) (c : loc) (x : val) :
  field h c "text" = Some x → field (fix_choice h v) c "text" = Some x.
Proof.
  unfold field. intros Hf.
  destruct (h !! c) as [[dc|]|] eqn:Hhc; try done.
  fix_cases h v; heap_auto.
Qed.

(** Only a choice's own pass writes its [text]. *)
Lemma fix_choice_text_other (h : heap) (v : val) (c : loc) :
  v ≠ VRef c → field (fix_choice h v) c "text" = field h c "text".
Proof.
  unfold field. intros Hv.
  fix_cases h v; heap_auto.
  all: rewrite ?fresh_loc_None; try done.
Qed.

(** A choice's own pass copies [message.content] into a missing [text]. *)
Lemma fix_choice_text_own (h : heap) (c : loc) (x : val) :
  message_field h c "content" = Some x → field h c "text" = None →
  field (fix_choice h (VRef c)) c "text" = Some x.
Proof.
  unfold field, fix_choice, message_field. intros Hf Ht.
  destruct (h !! c) as [[dc|]|] eqn:Hhc; try done.
  destruct (message_dict h dc) as [[m dm]|]; try done.
  rewrite Hf, Ht. heap_auto.
Qed.

(** ** The loop as a whole *)

Lemma fix_choices_keys (items : list val) (h : heap) (l : loc)
    (d : gmap string val) :
  h !! l = Some (ODict d) →
  ∃ d', fix_choices h items !! l = Some (ODict d') ∧
        ∀ k, k ≠ "text" → k ≠ "message" → k ≠ "content" → d' !! k = d !! k.
Proof.
  revert h d. induction items as [|v items IH]; intros h d Hl; simpl.
  - eauto.
  - destruct (fix_choice_keys h v l d Hl) as (d1 & H1 & Hk1).
    destruct (IH _ _ H1) as (d2 & H2 & Hk2).
    exists d2. split; [done|]. intros k ? ? ?. rewrite Hk2, Hk1; done.
Qed.

Lemma fix_choices_list (items : list val) (h : heap) (l : loc) (xs : list val) :
  h !! l = Some (OList xs) → fix_choices h items !! l = Some (OList xs).
Proof.
  revert h. induction items as [|v items IH]; intros h Hl; simpl; [done|].
  apply IH, fix_choice_list, Hl.
Qed.

Lemma fix_choices_content (items : list val) (h : heap) (c : loc) (x : val) :
  message_field h c "content" = Some x →
  message_field (fix_choices h items) c "content" = Some x.
Proof.
  revert h. induction items as [|v items IH]; intros h Hf; simpl; [done|].
  apply IH, fix_choice_content, Hf.
Qed.

Lemma fix_choices_role (items : list val) (h : heap) (c : loc) (x r : val) :
  message_field h c "content" = Some x →
  message_field h c "role" = Some r →
  message_field (fix_choices h items) c "role" = Some r.
Proof.
  revert h. induction items as [|v items IH]; intros h Hf Hr; simpl; [done|].
  apply IH; eauto using fix_choice_content, fix_choice_role.
Qed.

Lemma fix_choices_text (items : list val) (h : heap) (c : loc) (x : val) :
  field h c "text" = Some x → field (fix_choices h items) c "text" = Some x.
Proof.
  revert h. induction items as [|v items IH]; intros h Hf; simpl; [done|].
  apply IH, fix_choice_text, Hf.
Qed.

(** A choice with [message.content] leaves the loop with a [text]: the one
    it came with, or else the content. *)
Lemma fix_choices_backfill (items : list val) (h : heap) (c : loc) (x : val) :
  VRef c ∈ items →
  message_field h c "content" = Some x →
  field (fix_choices h items) c "text" = Some (default x (field h c "text")).
Proof.
  revert h. induction items as [|v items IH]; intros h Hin Hf; [by apply elem_of_nil in Hin|].
  simpl. destruct (field h c "text") as [y|] eqn:Ht; simpl.
  - apply fix_choices_text, fix_choice_text, Ht.
  - destruct (decide (v = VRef c)) as [->|Hne].
    + apply fix_choices_text, fix_choice_text_own; done.
    + apply elem_of_cons in Hin as [?|Hin]; [congruence|].
      rewrite (IH (fix_choice h v) Hin) by (by apply fix_choice_content).
      rewrite fix_choice_text_other, Ht by done. done.
Qed.

(** ** Serializable values *)

Lemma serializable_at_mono (n n' : nat) (h h' : heap) (v : val) :
  serializable_at n h v = true → (n ≤ n')%nat → h ⊆ h' →
  serializable_at n' h' v = true.
Proof.
  revert n' v. induction n as [|n IH]; intros n' v Hs Hn Hh.
  - destruct v; simpl in *; try done; destruct n'; done.
  - destruct v as [| | | |l]; try (destruct n'; done).
    destruct n' as [|n']; [lia|]. simpl in *.
    destruct (h !! l) as [o|] eqn:Hl; [|done].
    rewrite (lookup_weaken _ _ _ _ Hl Hh).
    destruct o as [d|xs].
    + apply forallb_forall. intros w Hw.
      eapply forallb_forall in Hs; [|exact Hw]. apply IH; [done|lia|done].
    + apply forallb_forall. intros w Hw.
      eapply forallb_forall in Hs; [|exact Hw]. apply IH; [done|lia|done].
Qed.

Lemma serializable_weaken (h h' : heap) (v : val) :
  serializable h v = true → h ⊆ h' → serializable h' v = true.
Proof.
  unfold serializable. intros Hs Hh.
  eapply serializable_at_mono; [exact Hs| |exact Hh].
  by apply map_subseteq_size.
Qed.

Lemma serializable_at_ref (n : nat) (h : heap) (l : loc) :
  serializable_at n h (VRef l) = true → is_Some (h !! l).
Proof. destruct n; simpl; [done|]. destruct (h !! l); eauto. done. Qed.

Lemma serializable_at_entry (n : nat) (h : heap) (l : loc)
    (d : gmap string val) (k : string) (v : val) :
  serializable_at n h (VRef l) = true → h !! l = Some (ODict d) →
  d !! k = Some v → ∃ n', serializable_at n' h v = true.
Proof.
  destruct n as [|n]; simpl; [done|]. intros Hs Hl Hk. rewrite Hl in Hs.
  exists n. eapply forallb_forall in Hs; [exact Hs|].
  apply list_elem_of_In, list_elem_of_fmap. exists (k, v). split; [done|].
  by apply elem_of_map_to_list.
Qed.

Lemma serializable_at_item (n : nat) (h : heap) (l : loc) (xs : list val)
    (v : val) :
  serializable_at n h (VRef l) = true → h !! l = Some (OList xs) →
  v ∈ xs → ∃ n', serializable_at n' h v = true.
Proof.
  destruct n as [|n]; simpl; [done|]. intros Hs Hl Hk. rewrite Hl in Hs.
  exists n. eapply forallb_forall in Hs; [exact Hs|]. by apply list_elem_of_In.
Qed.

Lemma serializable_at_allocated (n : nat) (h : heap) (v : val) :
  serializable_at n h v = true → allocated h v.
Proof. destruct v; simpl; try done. apply serializable_at_ref. Qed.

(** The objects one and two steps below a serializable dict exist. *)
Lemma serializable_entry_allocated (h : heap) (l : loc) (d : gmap string val)
    (k : string) (v : val) :
  serializable h (VRef l) = true → h !! l = Some (ODict d) → d !! k = Some v →
  allocated h v.
Proof.
  intros Hs Hl Hk.
  destruct (serializable_at_entry _ _ _ _ _ _ Hs Hl Hk) as [n Hn].
  eapply serializable_at_allocated, Hn.
Qed.

(** ** A new object changes nothing that was there *)

Lemma truth_insert_fresh (h : heap) (l : loc) (o : obj) (v : val) :
  h !! l = None → allocated h v → truth (<[l := o]> h) v = truth h v.
Proof.
  intros Hl Hv. destruct v as [| | | |l']; try done. simpl in *.
  destruct Hv as [o' Ho']. rewrite lookup_insert_ne by congruence. done.
Qed.

Lemma iter_insert_fresh (h : heap) (l : loc) (o : obj) (v : val) :
  h !! l = None → allocated h v →
  iter v (<[l := o]> h) = (<[l := o]> h, snd (iter v h)).
Proof.
  intros Hl Hv. destruct v as [| | | |l']; try done. simpl in *.
  destruct Hv as [o' Ho']. unfold iter. simpl.
  rewrite lookup_insert_ne by congruence. rewrite Ho'. by destruct o'.
Qed.

Lemma field_insert_fresh (h : heap) (l c : loc) (o : obj) (k : string) :
  h !! l = None → is_Some (h !! c) →
  field (<[l := o]> h) c k = field h c k.
Proof.
  intros Hl [o' Ho']. unfold field. rewrite lookup_insert_ne by congruence. done.
Qed.

Lemma message_field_insert_fresh (h : heap) (l c : loc) (o : obj) (k : string)
    (x : val) :
  h !! l = None → message_field h c k = Some x →
  message_field (<[l := o]> h) c k = Some x.
Proof.
  unfold message_field, message_dict. intros Hl Hf.
  destruct (h !! c) as [[dc|]|] eqn:Hc; try done.
  rewrite lookup_insert_ne by congruence. rewrite Hc.
  destruct (dc !! "message") as [[| | | |m]|]; try done.
  destruct (h !! m) as [[dm|]|] eqn:Hm; try done.
  rewrite lookup_insert_ne by congruence. rewrite Hm. done.
Qed.

Lemma tagged_copy_subseteq (h : heap) (d : gmap string val) : h ⊆ tagged_copy h d.
Proof. apply insert_subseteq, fresh_loc_None. Qed.

Lemma truth_tagged_copy (h : heap) (d : gmap string val) (v : val) :
  allocated h v → truth (tagged_copy h d) v = truth h v.
Proof. apply truth_insert_fresh, fresh_loc_None. Qed.

Lemma iter_tagged_copy (h : heap) (d : gmap string val) (v : val) :
  allocated h v → snd (iter v (tagged_copy h d)) = snd (iter v h).
Proof.
  intros Hv. unfold tagged_copy.
  rewrite iter_insert_fresh by (done || apply fresh_loc_None). done.
Qed.

(** ** [transform_response], case by case *)

Lemma transform_no_choices (h : heap) (l : loc) (d : gmap string val) :
  h !! l = Some (ODict d) → d !! sentinel = None →
  serializable h (VRef l) = true →
  (d !! "choices" = None ∨
   ∃ c, d !! "choices" = Some c ∧ truth h c = false) →
  transform_response (VRef l) h = (tagged_copy h d, Normal (VRef (fresh_loc h))).
Proof.
  intros Hl Hs Hser Hc. rewrite (transform_body l d) by done. unfold after_copy.
  destruct Hc as [Hc|(c & Hc & Hf)]; rewrite Hc; simpl; [done|].
  unfold tagged_copy. rewrite truth_insert_fresh, Hf; [done|apply fresh_loc_None|].
  eapply serializable_entry_allocated; eauto.
Qed.

(** Lines 55-109 read through the caller's store: the copy is new, so the
    tests on [choices] see what they would have seen before it. *)
Lemma transform_dict (h : heap) (l : loc) (d : gmap string val) :
  h !! l = Some (ODict d) → d !! sentinel = None →
  serializable h (VRef l) = true →
  transform_response (VRef l) h =
    match d !! "choices" with
    | None => (tagged_copy h d, Normal (VRef (fresh_loc h)))
    | Some c =>
        if truth h c then
          match snd (iter c h) with
          | Normal items =>
              (fix_choices (tagged_copy h d) items, Normal (VRef (fresh_loc h)))
          | Raise _ => (tagged_copy h d, Normal (VRef l))
          end
        else (tagged_copy h d, Normal (VRef (fresh_loc h)))
    end.
Proof.
  intros Hl Hs Hser. rewrite (transform_body l d) by done. unfold after_copy.
  destruct (d !! "choices") as [c|] eqn:Hc; [|done].
  assert (allocated h c) by (eapply serializable_entry_allocated; eauto).
  unfold tagged_copy.
  rewrite truth_insert_fresh, iter_insert_fresh by (done || apply fresh_loc_None).
  done.
Qed.


(** ** The path walker *)

Import PathText DebugApi.

Lemma getitem_int_outcome (v : val) (i : Z) (h : heap) :
  ∃ r, getitem v (KInt i) h = (h, r) ∧
       ∀ e, r = Raise e → exn_cls e ∈ caught.
Proof.
  unfold getitem, caught, index_too_large.
  destruct v as [| | |s|l]; try (eexists; split; [done|]; intros e [= <-]; simpl; set_solver).
  - destruct (fits_index i); [destruct (seq_index (chars s) i)|];
      eexists; (split; [done|]); intros e [= <-]; simpl; set_solver.
  - destruct (h !! l) as [[d|xs]|];
      [| destruct (fits_index i); [destruct (seq_index xs i)|] |];
      eexists; (split; [done|]); intros e [= <-]; simpl; set_solver.
Qed.

Lemma dict_get_outcome (v : val) (k : string) (h : heap) :
  ∃ r, dict_get v k h = (h, r) ∧
       ∀ e, r = Raise e → exn_cls e ∈ caught.
Proof.
  unfold dict_get, caught.
  destruct v as [| | | |l]; try (eexists; split; [done|]; intros e [= <-]; simpl; set_solver).
  destruct (h !! l) as [[d|xs]|];
    eexists; (split; [done|]); intros e [= <-]; simpl; set_solver.
Qed.

(** [int] reads nothing, and what it raises is a [ValueError]. *)
Lemma int_outcome (s : string) (h : heap) :
  ∃ r, int s h = (h, r) ∧ ∀ e, r = Raise e → exn_cls e = ValueError.
Proof.
  unfold int, raise, ret.
  destruct (int_max_str_digits <? leading_decimals s)%nat.
  { eexists. split; [done|]. by intros e [= <-]. }
  destruct s as [|a s].
  { eexists. split; [done|]. by intros e [= <-]. }
  destruct (all_decimal (String a s));
    eexists; (split; [done|]); by intros e [= <-].
Qed.

Lemma int_accepts (s : string) (h : heap) :
  isdigit s = true → all_decimal s = true →
  (leading_decimals s ≤ int_max_str_digits)%nat →
  int s h = (h, Normal (int_value s)).
Proof.
  intros Hd Ha Hn. unfold int.
  rewrite (proj2 (Nat.ltb_ge _ _)) by done.
  destruct s as [|a s]; [done|]. by rewrite Ha.
Qed.

(** The walk reads only; what it raises its caller catches, but for the
    [ValueError] of [int] at a numeric part. *)
Lemma walk_outcome (ps : list string) (v : val) (h : heap) :
  ∃ r, walk ps v h = (h, r) ∧
       ∀ e, r = Raise e →
            exn_cls e ∈ caught ∨
            (exn_cls e = ValueError ∧
             ∃ p, p ∈ ps ∧ isdigit p = true ∧ int p h = (h, Raise e)).
Proof.
  revert v. induction ps as [|p ps IH]; intros v; simpl.
  - eexists. split; [done|]. done.
  - destruct (isdigit p) eqn:Hd; unfold bind.
    + destruct (int_outcome p h) as ([i|e] & Hi & He); rewrite Hi.
      * destruct (getitem_int_outcome v i h) as (r & -> & Hr).
        destruct r as [x|e].
        -- destruct (IH x) as (r & -> & Hr'). exists r. split; [done|].
           intros e He'. destruct (Hr' e He') as [?|(? & q & ? & ? & ?)];
             [by left|right]. split; [done|]. exists q. set_solver.
        -- eexists. split; [done|]. intros e' [= <-]. left. by apply Hr.
      * eexists. split; [done|]. intros e' [= <-]. right.
        split; [by apply He|]. exists p. set_solver.
    + destruct (dict_get_outcome v p h) as (r & -> & Hr).
      destruct r as [x|e]; [|eexists; split; [done|]; intros e' [= <-]; left; by apply Hr].
      assert (∃ r, walk ps x h = (h, r) ∧
                ∀ e, r = Raise e →
                  exn_cls e ∈ caught ∨
                  (exn_cls e = ValueError ∧
                   ∃ q, q ∈ p :: ps ∧ isdigit q = true ∧ int q h = (h, Raise e)))
        as Hgo.
      { destruct (IH x) as (r & -> & Hr'). exists r. split; [done|].
        intros e He'. destruct (Hr' e He') as [?|(? & q & ? & ? & ?)];
          [by left|right]. split; [done|]. exists q. set_solver. }
      destruct x; try exact Hgo. eexists. split; [done|]. done.
Qed.

(** [extract_content_path] reads only, and lets out nothing but the
    [ValueError] of [int]. *)
Lemma extract_content_path_outcome (data : val) (path : string) (h : heap) :
  ∃ out, extract_content_path data path h = (h, out) ∧
    ∀ e, out = Raise e →
      exn_cls e = ValueError ∧
      ∃ p, p ∈ parts path ∧ isdigit p = true ∧ int p h = (h, Raise e).
Proof.
  unfold extract_content_path, try_except_in.
  destruct (walk_outcome (parts path) data h) as (r & -> & Hr).
  destruct r as [x|e]; [by eexists|].
  destruct (Hr e eq_refl) as [Hc|[Hv Hp]].
  - rewrite bool_decide_eq_true_2 by done. unfold ret. by eexists.
  - rewrite bool_decide_eq_false_2.
    + eexists. split; [done|]. by intros e' [= <-].
    + rewrite Hv. unfold caught. set_solver.
Qed.

(** Reading a field of a choice back. *)
Lemma extract_text (h : heap) (c : loc) (x : val) :
  field h c "text" = Some x →
  extract_content_path (VRef c) "text" h = (h, Normal x).
Proof.
  unfold field, extract_content_path, try_except_in. intros Hf.
  destruct (h !! c) as [[d|]|] eqn:Hc; try done.
  change (parts "text") with ["text"]. simpl. unfold bind, dict_get.
  rewrite Hc, Hf. simpl. by destruct x.
Qed.

Lemma extract_message_content (h : heap) (c : loc) (x : val) :
  message_field h c "content" = Some x →
  extract_content_path (VRef c) "message.content" h = (h, Normal x).
Proof.
  unfold message_field, message_dict, extract_content_path, try_except_in.
  intros Hf.
  destruct (h !! c) as [[d|]|] eqn:Hc; try done.
  destruct (d !! "message") as [[| | | |m]|] eqn:Hm; try done.
  destruct (h !! m) as [[dm|]|] eqn:Hhm; try done.
  change (parts "message.content") with ["message"; "content"].
  simpl. unfold bind, dict_get. rewrite Hc, Hm. simpl. rewrite Hhm, Hf. simpl.
  by destruct x.
Qed.

(** Both copies of a path that starts at a shared entry read the same. *)
Lemma walk_shared_entry (h : heap) (l l' : loc) (d d' : gmap string val)
    (k : string) (rest : list string) :
  h !! l = Some (ODict d) → h !! l' = Some (ODict d') →
  d !! k = d' !! k → isdigit k = false →
  walk (k :: rest) (VRef l) h = walk (k :: rest) (VRef l') h.
Proof.
  intros Hl Hl' Hk Hdig. simpl. rewrite Hdig. unfold bind, dict_get.
  rewrite Hl, Hl', Hk. done.
Qed.

(** ** The fallback branch *)

Lemma placeholder_filled_stable (h : heap) (v : val) (c : loc) :
  placeholder_filled h c → placeholder_filled (fix_choice h v) c.
Proof.
  intros (Ht & Hc & Hr). repeat split;
    eauto using fix_choice_text, fix_choice_content, fix_choice_role.
Qed.

Lemma content_less_own (h : heap) (c : loc) (mv : option val) :
  content_less h c mv → placeholder_filled (fix_choice h (VRef c)) c.
Proof.
  unfold content_less, placeholder_filled, field, message_field,
    fix_choice, add_fallback, add_message, assistant_message, message_dict.
  intros ((d & Hc & Ht & Hm) & Hf & _). rewrite Hc in *. rewrite Ht.
  assert (c ≠ fresh_loc h) by (apply fresh_loc_ne; eauto).
  destruct (d !! "message") as [[| | | |m]|] eqn:Hdm;
    [| | | |destruct (h !! m) as [[dm|]|] eqn:Hhm|];
    simpl in *; heap_auto; repeat split; heap_auto.
Qed.

Lemma content_less_other (h : heap) (v : val) (c : loc) (mv : option val) :
  v ≠ VRef c → content_less h c mv →
  (∀ m c' d', mv = Some (VRef m) → v = VRef c' → h !! c' = Some (ODict d') →
              d' !! "message" ≠ Some (VRef m)) →
  content_less (fix_choice h v) c mv.
Proof.
  unfold content_less, message_field, message_dict.
  intros Hv ((d & Hc & Ht & Hm) & Hf & Hal) Hun. rewrite Hc in Hf. subst mv.
  split; [|split].
  - fix_cases h v; heap_auto; eauto.
    all: eexists; split; [done|]; heap_auto.
  - destruct (d !! "message") as [[| | | |m]|] eqn:Hdm.
    1-4,6: fix_cases h v; heap_auto.
    destruct (Hal m eq_refl) as [om Hom]. rewrite Hom in Hf.
    destruct om as [dm|xs].
    + fix_cases h v; heap_auto.
      all: try (exfalso; eapply Hun; eauto; done).
    + fix_cases h v; heap_auto.
  - intros m Hm. destruct (Hal m Hm) as [om Hom].
    fix_cases h v; heap_auto; eauto.
Qed.

Lemma message_unshared_stable (h : heap) (v : val) (items : list val) (c : loc)
    (mv : option val) :
  content_less h c mv → message_unshared h items c mv →
  message_unshared (fix_choice h v) items c mv.
Proof.
  unfold content_less, message_unshared.
  intros (_ & _ & Hal) Hun m c' d' -> Hin Hne Hc' Hd'.
  destruct (Hal m eq_refl) as [om Hom].
  specialize (Hun m c').
  revert Hc'. fix_cases h v; heap_auto; intros; simplify_eq; heap_auto;
    try (eapply Hun; eauto; done).
  all: try (rewrite lookup_insert_ne in Hd' by done; eapply Hun; eauto; done).
  all: try (rewrite lookup_insert_eq in Hd'; simplify_eq;
            rewrite ?fresh_loc_insert in Hom by eauto;
            rewrite fresh_loc_None in Hom; done).
  all: try (unfold assistant_message in Hd';
            rewrite !lookup_insert_ne in Hd' by done; done).
Qed.

Lemma fallback_invariant_step (h : heap) (items : list val) (c : loc)
    (mv : option val) (v : val) :
  v ∈ items → fallback_invariant h items c mv →
  fallback_invariant (fix_choice h v) items c mv ∧
  (v = VRef c → placeholder_filled (fix_choice h v) c).
Proof.
  intros Hin [Hfilled|[Hless Hun]].
  - split; [left|intros _]; by apply placeholder_filled_stable.
  - destruct (decide (v = VRef c)) as [->|Hne].
    + split; [left|intros _]; eapply content_less_own, Hless.
    + split; [right|done]. split.
      * apply content_less_other; [done..|].
        intros m c' d' -> -> Hc'. eapply Hun; eauto; congruence.
      * by apply message_unshared_stable.
Qed.

Lemma fix_choices_filled (items : list val) (h : heap) (c : loc) :
  placeholder_filled h c → placeholder_filled (fix_choices h items) c.
Proof.
  revert h. induction items as [|v items IH]; intros h Hf; simpl; [done|].
  by apply IH, placeholder_filled_stable.
Qed.

Lemma fix_choices_fallback (items0 items : list val) (h : heap) (c : loc)
    (mv : option val) :
  items ⊆ items0 → fallback_invariant h items0 c mv → VRef c ∈ items →
  placeholder_filled (fix_choices h items) c.
Proof.
  revert h. induction items as [|v items IH]; intros h Hsub Hinv Hin.
  { by apply elem_of_nil in Hin. }
  assert (v ∈ items0) as Hv by (apply Hsub; left).
  destruct (fallback_invariant_step h items0 c mv v Hv Hinv) as [Hinv' Hown].
  simpl. apply elem_of_cons in Hin as [Heq|Hin].
  - apply fix_choices_filled, Hown. done.
  - apply IH; [|done..]. intros x Hx. apply Hsub. by right.
Qed.

(** The loop is entered on a non-empty list of choices. *)
Lemma transform_list (h : heap) (l lc : loc) (d : gmap string val)
    (items : list val) :
  h !! l = Some (ODict d) → d !! sentinel = None →
  serializable h (VRef l) = true →
  d !! "choices" = Some (VRef lc) → h !! lc = Some (OList items) →
  items ≠ [] →
  transform_response (VRef l) h =
    (fix_choices (tagged_copy h d) items, Normal (VRef (fresh_loc h))).
Proof.
  intros Hl Hs Hser Hc Hlc Hne. rewrite (transform_dict h l d) by done.
  rewrite Hc. unfold iter. simpl. rewrite Hlc. simpl.
  rewrite bool_decide_eq_false_2 by done. done.
Qed.

(** What a serializable response reaches exists. *)
Lemma serializable_choice_allocated (h : heap) (l lc : loc)
    (d : gmap string val) (items : list val) (v : val) :
  serializable h (VRef l) = true → h !! l = Some (ODict d) →
  d !! "choices" = Some (VRef lc) → h !! lc = Some (OList items) →
  v ∈ items → allocated h v.
Proof.
  intros Hser Hl Hc Hlc Hin.
  destruct (serializable_at_entry _ _ _ _ _ _ Hser Hl Hc) as [n1 H1].
  destruct (serializable_at_item _ _ _ _ _ H1 Hlc Hin) as [n2 H2].
  eapply serializable_at_allocated, H2.
Qed.

Lemma serializable_message_allocated (h : heap) (l lc c : loc)
    (d dc : gmap string val) (items : list val) (mv : val) :
  serializable h (VRef l) = true → h !! l = Some (ODict d) →
  d !! "choices" = Some (VRef lc) → h !! lc = Some (OList items) →
  VRef c ∈ items → h !! c = Some (ODict dc) → dc !! "message" = Some mv →
  allocated h mv.
Proof.
  intros Hser Hl Hc Hlc Hin Hhc Hm.
  destruct (serializable_at_entry _ _ _ _ _ _ Hser Hl Hc) as [n1 H1].
  destruct (serializable_at_item _ _ _ _ _ H1 Hlc Hin) as [n2 H2].
  destruct (serializable_at_entry _ _ _ _ _ _ H2 Hhc Hm) as [n3 H3].
  eapply serializable_at_allocated, H3.
Qed.


(** ** Further facts used by the claims *)

Lemma iter_iterable (h : heap) (v : val) :
  is_iterable h v = true → ∃ items, snd (iter v h) = Normal items.
Proof.
  destruct v as [| | |s|l]; simpl; try done; [eauto|].
  unfold iter. intros [[d|xs] ->]%bool_decide_eq_true; simpl; eauto.
Qed.

Lemma process_choice_skip (g : heap) (x : val) :
  is_dict g x = false → process_choice x g = (g, Normal tt).
Proof.
  intros Hx. rewrite process_choice_run. unfold fix_choice, is_dict in *.
  destruct x as [| | | |l]; try done. by destruct (g !! l) as [[]|].
Qed.

Lemma extract_normal (data : val) (path : string) (h : heap) (x : val) :
  walk (parts path) data h = (h, Normal x) →
  extract_content_path data path h = (h, Normal x).
Proof. unfold extract_content_path, try_except_in. by intros ->. Qed.

Lemma extract_raise (data : val) (path : string) (h : heap) (e : exn) :
  walk (parts path) data h = (h, Raise e) → exn_cls e ∈ caught →
  extract_content_path data path h =
    (h, Normal (VStr ("Error accessing path: " ++ exn_msg e))).
Proof.
  unfold extract_content_path, try_except_in. intros -> He.
  by rewrite bool_decide_eq_true_2.
Qed.

(** ** Stored documents *)

Import Json.

Lemma load_items_loaded (xs : list Json.t) :
  Forall (λ x, ∀ h, loaded h (load x h).1 (load x h).2) xs →
  ∀ h, h ⊆ (load_items load xs h).2 ∧
       ∃ n, (n + size h ≤ size (load_items load xs h).2)%nat ∧
            Forall (λ v, serializable_at n (load_items load xs h).2 v = true)
              (load_items load xs h).1.
Proof.
  induction 1 as [|x xs Hx _ IH]; intros h; simpl.
  { split; [done|]. exists 0%nat. split; [lia|]. constructor. }
  destruct (Hx h) as (Hsub1 & n1 & Hn1 & Hs1).
  destruct (load x h) as [v h1]. simpl in *.
  destruct (IH h1) as (Hsub2 & n2 & Hn2 & Hs2).
  destruct (load_items load xs h1) as [vs h2]. simpl in *.
  pose proof (map_subseteq_size _ _ Hsub1).
  pose proof (map_subseteq_size _ _ Hsub2).
  split; [by etrans|]. exists (n1 `max` n2)%nat. split; [lia|].
  constructor.
  - eapply serializable_at_mono; [exact Hs1|lia|done].
  - eapply Forall_impl; [exact Hs2|]. intros w Hw. simpl in Hw.
    eapply serializable_at_mono; [exact Hw|lia|done].
Qed.

Lemma load_entries_loaded (kvs : list (string * Json.t)) :
  Forall (λ kv, ∀ h, loaded h (load kv.2 h).1 (load kv.2 h).2) kvs →
  ∀ d h n0,
    (∀ k v, d !! k = Some v → serializable_at n0 h v = true) →
    h ⊆ (load_entries load kvs d h).2 ∧
    ∃ n, (n + size h ≤ size (load_entries load kvs d h).2 + n0)%nat ∧
         ∀ k v, (load_entries load kvs d h).1 !! k = Some v →
                serializable_at n (load_entries load kvs d h).2 v = true.
Proof.
  induction 1 as [|[k x] kvs Hx _ IH]; intros d h n0 Hd; simpl.
  { split; [done|]. exists n0. split; [lia|]. done. }
  simpl in Hx. destruct (Hx h) as (Hsub1 & n1 & Hn1 & Hs1).
  destruct (load x h) as [v h1]. simpl in *.
  destruct (IH (<[k := v]> d) h1 (n0 `max` n1)%nat) as (Hsub2 & n & Hn & Hs).
  { intros k' v' [[-> ->]|[_ Hk']]%lookup_insert_Some.
    - eapply serializable_at_mono; [exact Hs1|lia|done].
    - eapply serializable_at_mono; [by eapply Hd|lia|done]. }
  pose proof (map_subseteq_size _ _ Hsub1).
  split; [by etrans|]. exists n. split; [lia|]. done.
Qed.

Lemma load_loaded (j : Json.t) (h : heap) : loaded h (load j h).1 (load j h).2.
Proof.
  revert h. induction j as [| | | |xs IH|kvs IH] using Json.t_ind'; intros h;
    try (split; [done|]; exists 0%nat; split; [simpl; lia|done]).
  - simpl. destruct (load_items_loaded xs IH h) as (Hsub & n & Hn & Hs).
    destruct (load_items load xs h) as [vs h']. simpl in *.
    pose proof (fresh_loc_None h') as Hfresh.
    assert (h' ⊆ <[fresh_loc h' := OList vs]> h') as Hsub'
      by (by apply insert_subseteq).
    split; [by etrans|]. exists (S n).
    rewrite map_size_insert_None by done. split; [lia|].
    simpl. rewrite lookup_insert_eq. apply forallb_forall. intros w Hw.
    apply list_elem_of_In in Hw.
    eapply serializable_at_mono; [|done|exact Hsub'].
    by eapply Forall_forall in Hs.
  - simpl.
    destruct (load_entries_loaded kvs IH ∅ h 0%nat) as (Hsub & n & Hn & Hs).
    { intros k v Hk. by rewrite lookup_empty in Hk. }
    destruct (load_entries load kvs ∅ h) as [d h']. simpl in *.
    pose proof (fresh_loc_None h') as Hfresh.
    assert (h' ⊆ <[fresh_loc h' := ODict d]> h') as Hsub'
      by (by apply insert_subseteq).
    split; [by etrans|]. exists (S n).
    rewrite map_size_insert_None by done. split; [lia|].
    simpl. rewrite lookup_insert_eq. apply forallb_forall. intros w Hw.
    apply list_elem_of_In, list_elem_of_fmap in Hw as ([k v] & -> & Hkv).
    apply elem_of_map_to_list in Hkv.
    eapply serializable_at_mono; [|done|exact Hsub']. by eapply Hs.
Qed.

(** Every document, stored, is serializable. *)
Lemma load_serializable (j : Json.t) (h : heap) :
  serializable (load j h).2 (load j h).1 = true.
Proof.
  destruct (load_loaded j h) as (_ & n & Hn & Hs). unfold serializable.
  eapply serializable_at_mono; [exact Hs|lia|done].
Qed.


(** *** Nothing is shared *)

Lemma apart_weaken (h h' : heap) (vs : list val) :
  apart h vs → h ⊆ h' → (∀ c, VRef c ∈ vs → is_Some (h !! c)) →
  apart h' vs.
Proof.
  intros Hap Hsub Hal i j ci cj di dj m Hij Hi Hj Hci Hcj Hm.
  destruct (Hal ci) as [oi Hoi]; [by eapply list_elem_of_lookup_2|].
  destruct (Hal cj) as [oj Hoj]; [by eapply list_elem_of_lookup_2|].
  pose proof (lookup_weaken _ _ _ _ Hoi Hsub).
  pose proof (lookup_weaken _ _ _ _ Hoj Hsub).
  simplify_eq. by eapply Hap.
Qed.

Lemma extends_refl (h : heap) : extends h h.
Proof. split; [done|]. split; intros; simplify_eq. Qed.

Lemma extends_trans (h h1 h2 : heap) :
  extends h h1 → extends h1 h2 → extends h h2.
Proof.
  intros (Hsub1 & Hcl1 & Hap1) (Hsub2 & Hcl2 & Hap2).
  split; [by etrans|]. split.
  - intros l o l' Hl Hl2 Href.
    destruct (h1 !! l) as [o1|] eqn:Hl1.
    + pose proof (lookup_weaken _ _ _ _ Hl1 Hsub2). simplify_eq.
      destruct (Hcl1 l o l' Hl Hl1 Href) as [? [o' Ho']].
      split; [done|]. exists o'. by eapply lookup_weaken.
    + destruct (Hcl2 l o l' Hl1 Hl2 Href) as [Hn ?]. split; [|done].
      destruct (h !! l') eqn:E; [|done].
      by rewrite (lookup_weaken _ _ _ _ E Hsub1) in Hn.
  - intros l vs Hl Hl2.
    destruct (h1 !! l) as [o1|] eqn:Hl1.
    + pose proof (lookup_weaken _ _ _ _ Hl1 Hsub2). simplify_eq.
      eapply apart_weaken; [by eapply Hap1|done|].
      intros c Hc. by eapply Hcl1.
    + by eapply Hap2.
Qed.

Lemma new_value_weaken (h h1 h2 : heap) (v : val) :
  h ⊆ h1 → h1 ⊆ h2 → new_value h1 h2 v → new_value h h2 v.
Proof.
  intros Hsub1 Hsub2 Hv l ->. destruct (Hv l eq_refl) as [Hn ?].
  split; [|done]. destruct (h !! l) eqn:E; [|done].
  by rewrite (lookup_weaken _ _ _ _ E Hsub1) in Hn.
Qed.

Lemma new_value_later (h h1 h2 : heap) (v : val) :
  h1 ⊆ h2 → new_value h h1 v → new_value h h2 v.
Proof.
  intros Hsub Hv l ->. destruct (Hv l eq_refl) as [? [o Ho]].
  split; [done|]. exists o. by eapply lookup_weaken.
Qed.

Lemma load_items_extends (xs : list Json.t) :
  Forall load_spec xs →
  ∀ h, extends h (load_items load xs h).2 ∧
       Forall (new_value h (load_items load xs h).2) (load_items load xs h).1 ∧
       apart (load_items load xs h).2 (load_items load xs h).1.
Proof.
  induction 1 as [|x xs Hx _ IH]; intros h; simpl.
  { split; [apply extends_refl|]. split; [constructor|].
    intros i j ? ? ? ? ? _ Hi. by rewrite lookup_nil in Hi. }
  destruct (Hx h) as (Hext1 & Hv).
  destruct (load x h) as [v h1]. simpl in *.
  destruct (IH h1) as (Hext2 & Hvs & Hap).
  destruct (load_items load xs h1) as [vs h2]. simpl in *.
  pose proof Hext1 as (Hsub1 & Hcl1 & _).
  pose proof Hext2 as (Hsub2 & Hcl2 & _).
  split; [by eapply extends_trans|]. split.
  - constructor; [by eapply new_value_later|].
    eapply Forall_impl; [exact Hvs|]. intros w Hw. simpl in Hw.
    by eapply new_value_weaken.
  - assert (∀ c0 cj d0 dj m j,
              v = VRef c0 → vs !! j = Some (VRef cj) →
              h2 !! c0 = Some (ODict d0) → h2 !! cj = Some (ODict dj) →
              d0 !! "message" = Some (VRef m) →
              dj !! "message" = Some (VRef m) → False) as Hhead.
    { intros c0 cj d0 dj m j -> Hj Hc0 Hcj Hm0 Hmj.
      destruct (Hv c0 eq_refl) as [Hn0 [o0 Ho0]].
      pose proof (lookup_weaken _ _ _ _ Ho0 Hsub2). simplify_eq.
      destruct (Hcl1 c0 (ODict d0) m Hn0 Ho0) as [_ [om Hom]]; [by eexists|].
      eapply Forall_lookup_1 in Hvs; [|exact Hj].
      destruct (Hvs cj eq_refl) as [Hnj _].
      destruct (Hcl2 cj (ODict dj) m Hnj Hcj) as [Hnm _]; [by eexists|].
      by rewrite Hom in Hnm. }
    intros i j ci cj di dj m Hij Hi Hj Hci Hcj Hmi Hmj.
    destruct i as [|i], j as [|j]; simpl in *; try done.
    + simplify_eq. by eapply Hhead.
    + simplify_eq. by eapply Hhead.
    + eapply (Hap i j); eauto.
Qed.

Lemma load_entries_extends (kvs : list (string * Json.t)) :
  Forall (λ kv, load_spec kv.2) kvs →
  ∀ hb d h,
    extends hb h → (∀ k v, d !! k = Some v → new_value hb h v) →
    extends hb (load_entries load kvs d h).2 ∧
    ∀ k v, (load_entries load kvs d h).1 !! k = Some v →
           new_value hb (load_entries load kvs d h).2 v.
Proof.
  induction 1 as [|[k x] kvs Hx _ IH]; intros hb d h Hext Hd; simpl; [done|].
  simpl in Hx. destruct (Hx h) as (Hext1 & Hv).
  destruct (load x h) as [v h1]. simpl in *.
  pose proof Hext as (Hsub & _). pose proof Hext1 as (Hsub1 & _).
  apply IH; [by eapply extends_trans|].
  intros k' v' [[-> ->]|[_ Hk']]%lookup_insert_Some.
  - eapply new_value_weaken; [exact Hsub|done|done].
  - eapply new_value_later; [exact Hsub1|]. by eapply Hd.
Qed.

Lemma extends_insert (h h' : heap) (o : obj) :
  extends h h' →
  (∀ l, references o l → h !! l = None ∧ is_Some (h' !! l)) →
  (∀ vs, o = OList vs → apart h' vs) →
  extends h (<[fresh_loc h' := o]> h') ∧
  new_value h (<[fresh_loc h' := o]> h') (VRef (fresh_loc h')).
Proof.
  intros (Hsub & Hcl & Hap) Href Hlist.
  pose proof (fresh_loc_None h') as Hfresh.
  assert (h' ⊆ <[fresh_loc h' := o]> h') as Hsub' by (by apply insert_subseteq).
  assert (h !! fresh_loc h' = None) as Hnew.
  { destruct (h !! fresh_loc h') eqn:E; [|done].
    by rewrite (lookup_weaken _ _ _ _ E Hsub) in Hfresh. }
  split; [split; [by etrans|split]|].
  - intros l o' l' Hl Hl' Hr.
    apply lookup_insert_Some in Hl' as [[<- <-]|[Hne Hl']].
    + destruct (Href l' Hr) as [? [x Hx]]. split; [done|].
      exists x. by eapply lookup_weaken.
    + destruct (Hcl l o' l' Hl Hl' Hr) as [? [x Hx]]. split; [done|].
      exists x. by eapply lookup_weaken.
  - intros l vs Hl Hl'.
    apply lookup_insert_Some in Hl' as [[<- ->]|[Hne Hl']].
    + eapply apart_weaken; [by apply Hlist|done|].
      intros c Hc. by eapply Href.
    + eapply apart_weaken; [by eapply Hap|done|].
      intros c Hc. by eapply Hcl.
  - intros l [= <-]. split; [done|]. rewrite lookup_insert_eq. eauto.
Qed.

Lemma load_extends (j : Json.t) : load_spec j.
Proof.
  induction j as [| | | |xs IH|kvs IH] using Json.t_ind'; intros h;
    try (split; [apply extends_refl|by intros l]).
  - simpl. destruct (load_items_extends xs IH h) as (Hext & Hvs & Hap).
    destruct (load_items load xs h) as [vs h']. simpl in *.
    apply extends_insert; [done| |by intros ? [= <-]].
    intros l Hl. simpl in Hl. eapply Forall_forall in Hvs; [|exact Hl].
    by apply Hvs.
  - simpl.
    destruct (load_entries_extends kvs IH h ∅ h) as (Hext & Hd).
    { apply extends_refl. }
    { intros k v Hk. by rewrite lookup_empty in Hk. }
    destruct (load_entries load kvs ∅ h) as [d h']. simpl in *.
    apply extends_insert; [done| |done].
    intros l [k Hk]. by eapply Hd.
Qed.

(** The choices of a stored response have no [message] object in common. *)
Lemma load_choices_apart (j : Json.t) (h0 : heap) (l lc : loc)
    (d : gmap string val) (items : list val) :
  (load j h0).1 = VRef l → (load j h0).2 !! l = Some (ODict d) →
  d !! "choices" = Some (VRef lc) →
  (load j h0).2 !! lc = Some (OList items) →
  apart (load j h0).2 items.
Proof.
  intros Hr Hl Hc Hlc.
  destruct (load_extends j h0) as ((Hsub & Hcl & Hap) & Hv).
  destruct (Hv l Hr) as [Hnl _].
  destruct (Hcl l (ODict d) lc Hnl Hl) as [Hnlc _]; [by eexists|].
  by eapply Hap.
Qed.

Import Outcomes.

(** ** Every dict choice ends up complete *)

Lemma fix_choice_completes (h : heap) (c : loc) (d : gmap string val) :
  h !! c = Some (ODict d) → complete (fix_choice h (VRef c)) c.
Proof.
  intros Hc. unfold complete, field, message_field.
  assert (c ≠ fresh_loc h) by (apply fresh_loc_ne; eauto).
  unfold fix_choice, add_fallback, add_message, assistant_message, message_dict.
  rewrite Hc.
  destruct (d !! "text") eqn:Htext;
    (destruct (d !! "message") as [[| | | |m]|] eqn:Hmsg;
     [| | | |destruct (h !! m) as [[dm|?]|] eqn:Hm;
             [destruct (dm !! "content") eqn:Hcontent| |] |]);
    simpl; (split; [heap_auto; eauto|]); heap_auto; eauto.
Qed.

Lemma complete_stable (h : heap) (v : val) (c : loc) :
  complete h c → complete (fix_choice h v) c.
Proof.
  unfold complete. intros [[x Hx] [y Hy]].
  split; [exists x; by apply fix_choice_text|exists y; by apply fix_choice_content].
Qed.

Lemma complete_noop (h : heap) (c : loc) :
  complete h c → fix_choice h (VRef c) = h.
Proof.
  unfold complete, field, message_field, fix_choice.
  intros [[x Hx] [y Hy]].
  destruct (h !! c) as [[d|]|]; try done.
  destruct (message_dict h d) as [[m dm]|]; [|done].
  by rewrite Hx, Hy.
Qed.

Lemma fix_choices_complete (items : list val) (h : heap) (c : loc)
    (d : gmap string val) :
  VRef c ∈ items → h !! c = Some (ODict d) →
  complete (fix_choices h items) c.
Proof.
  revert h d. induction items as [|v items IH]; intros h d Hin Hc.
  { by apply elem_of_nil in Hin. }
  simpl. apply elem_of_cons in Hin as [<-|Hin].
  - assert (complete (fix_choice h (VRef c)) c) as Hdone
      by (by eapply fix_choice_completes).
    clear IH. revert Hdone. generalize (fix_choice h (VRef c)).
    induction items as [|w items IH]; intros g Hg; simpl; [done|].
    by apply IH, complete_stable.
  - destruct (fix_choice_keys h v c d Hc) as (d' & Hd' & _). by eapply IH.
Qed.

(** The store [transform_response] leaves, in every case of a dict without
    the sentinel: the tagged copy, then the loop over some items. *)
Lemma transform_effect (h : heap) (l : loc) (d : gmap string val) :
  h !! l = Some (ODict d) → d !! sentinel = None →
  serializable h (VRef l) = true →
  ∃ items v,
    transform_response (VRef l) h =
      (fix_choices (tagged_copy h d) items, Normal v) ∧
    (v = VRef l ∨ v = VRef (fresh_loc h)).
Proof.
  intros Hl Hs Hser. rewrite (transform_dict h l d) by done.
  destruct (d !! "choices") as [c|]; [|exists []; eauto].
  destruct (truth h c); [|exists []; eauto].
  destruct (snd (iter c h)) as [items|e]; [exists items|exists []]; eauto.
Qed.

(** ** Splitting a path *)

Lemma split_nonempty (sep : ascii) (s : string) : split sep s ≠ [].
Proof.
  destruct s as [|a s]; simpl; [done|].
  destruct (Ascii.eqb a sep); [done|]. by destruct (split sep s).
Qed.

Lemma split_app (sep : ascii) (s t : string) :
  split sep (s ++ String sep t) = (split sep s ++ split sep t)%list.
Proof.
  induction s as [|a s IH]; simpl.
  - by rewrite Ascii.eqb_refl.
  - destruct (Ascii.eqb a sep); [by rewrite IH|].
    rewrite IH. pose proof (split_nonempty sep s).
    by destruct (split sep s).
Qed.

Lemma remove_char_app (c : ascii) (s t : string) :
  remove_char c (s ++ t) = remove_char c s ++ remove_char c t.
Proof.
  induction s as [|a s IH]; simpl; [done|].
  destruct (Ascii.eqb a c); by rewrite IH.
Qed.

Lemma replace_char_app (c c' : ascii) (s t : string) :
  replace_char c c' (s ++ t) = replace_char c c' s ++ replace_char c c' t.
Proof. induction s as [|a s IH]; simpl; [done|]. by rewrite IH. Qed.

Lemma parts_app (p q : string) :
  parts (p ++ String dot q) = (parts p ++ parts q)%list.
Proof.
  unfold parts. rewrite remove_char_app. simpl.
  rewrite replace_char_app. simpl. apply split_app.
Qed.

Lemma replace_remove_commute (s : string) :
  remove_char rbracket (replace_char lbracket dot s) =
  replace_char lbracket dot (remove_char rbracket s).
Proof.
  induction s as [|a s IH]; simpl; [done|].
  destruct (Ascii.eqb a lbracket) eqn:E1.
  - apply Ascii.eqb_eq in E1 as ->. simpl. by rewrite IH.
  - destruct (Ascii.eqb a rbracket) eqn:E2; simpl; rewrite ?E1, IH; done.
Qed.

Lemma replace_char_idem (c c' : ascii) (s : string) :
  c ≠ c' →
  replace_char c c' (replace_char c c' s) = replace_char c c' s.
Proof.
  intros Hne. induction s as [|a s IH]; simpl; [done|]. rewrite IH. f_equal.
  destruct (Ascii.eqb a c) eqn:E; [|by rewrite E].
  destruct (Ascii.eqb c' c) eqn:E'; [|done].
  apply Ascii.eqb_eq in E'. congruence.
Qed.

Lemma remove_char_idem (c : ascii) (s : string) :
  remove_char c (remove_char c s) = remove_char c s.
Proof.
  induction s as [|a s IH]; simpl; [done|].
  destruct (Ascii.eqb a c) eqn:E; [done|]. simpl. by rewrite E, IH.
Qed.

(** ** Walking on from where a walk arrived *)

Lemma walk_app (ps qs : list string) (v x : val) (h : heap) :
  walk ps v h = (h, Normal x) → ps = [] ∨ x ≠ VNone →
  walk (ps ++ qs) v h = walk qs x h.
Proof.
  revert v. induction ps as [|p ps IH]; intros v Hw Hx; simpl in *.
  { unfold ret in Hw. by simplify_eq. }
  assert (x ≠ VNone) as Hne by (by destruct Hx).
  destruct (isdigit p); unfold bind in *.
  - destruct (int_outcome p h) as ([i|e] & Hi & _); rewrite Hi in *; [|done].
    destruct (getitem_int_outcome v i h) as (r' & Hr & _).
    rewrite Hr in *. destruct r' as [r|e]; [|done]. apply IH; eauto.
  - destruct (dict_get_outcome v p h) as (r' & Hr & _).
    rewrite Hr in *. destruct r' as [r|e]; [|done].
    destruct r; try (apply IH; by eauto). unfold ret in Hw. by simplify_eq.
Qed.


(** * The claims *)

Import Examples.

(** ** The normalizer *)

(** C1 (idempotence).  For every response [r] that [json.dumps] of line 52
    accepts (every stored document is one, [load_serializable]),
    normalizing returns a value [v1], and normalizing [v1] again returns
    the very same value and alters no object of the store (at most a
    discarded copy is added): [normalize(normalize(r)) == normalize(r)].
    A response that carries the sentinel comes back as it is. *)
Theorem transform_response_idempotent (h : heap) (r : val) :
  serializable h r = true →
  ∃ h1 v1 h2,
    transform_response r h = (h1, Normal v1) ∧
    transform_response v1 h1 = (h2, Normal v1) ∧
    h1 ⊆ h2.
Proof.
  intros Hser.
  destruct (is_dict h r) eqn:Hd; cycle 1.
  { exists h, r, h. rewrite !transform_guard by eauto. done. }
  destruct r as [| | | |l]; try done. simpl in Hd.
  destruct (h !! l) as [[d|]|] eqn:Hl; try done.
  destruct (d !! sentinel) as [s|] eqn:Hs.
  { exists h, (VRef l), h. rewrite !transform_guard by naive_solver. done. }
  pose proof (fresh_loc_None h) as Hfresh.
  assert (tagged_copy h d !! fresh_loc h =
          Some (ODict (<[sentinel := VBool true]> d))) as Hcopy
    by apply lookup_insert_eq.
  assert (∀ g, (∃ d', g !! fresh_loc h = Some (ODict d') ∧
                      d' !! sentinel = Some (VBool true)) →
            ∃ h1 v1 h2,
              (g, Normal (VRef (fresh_loc h))) = (h1, Normal v1) ∧
              transform_response v1 h1 = (h2, Normal v1) ∧ h1 ⊆ h2) as Hdone.
  { intros g (d' & Hg & Hd'). exists g, (VRef (fresh_loc h)), g.
    rewrite transform_guard by naive_solver. done. }
  rewrite (transform_dict h l d) by done.
  destruct (d !! "choices") as [c|] eqn:Hc.
  2: { apply Hdone. eexists. split; [exact Hcopy|]. apply lookup_insert_eq. }
  destruct (truth h c) eqn:Htr.
  2: { apply Hdone. eexists. split; [exact Hcopy|]. apply lookup_insert_eq. }
  destruct (snd (iter c h)) as [items|e] eqn:Hit.
  - apply Hdone.
    destruct (fix_choices_keys items _ _ _ Hcopy) as (d' & Hd' & Hk).
    exists d'. split; [done|]. rewrite Hk by done. apply lookup_insert_eq.
  - exists (tagged_copy h d), (VRef l), (tagged_copy (tagged_copy h d) d).
    split; [done|]. split; [|apply tagged_copy_subseteq].
    assert (allocated h c) by (eapply serializable_entry_allocated; eauto).
    rewrite (transform_dict _ l d); [| |done|].
    + rewrite Hc, truth_tagged_copy, iter_tagged_copy, Htr, Hit by done. done.
    + unfold tagged_copy. rewrite lookup_insert_ne; [done|].
      intros E. rewrite E, Hl in Hfresh. done.
    + eapply serializable_weaken; [exact Hser|apply tagged_copy_subseteq].
Qed.

Lemma transform_response_idempotent_witness :
  serializable (stored fallback_response).2 (stored fallback_response).1 = true ∧
  ∃ h1 v1 h2,
    transform_response (stored fallback_response).1 (stored fallback_response).2
      = (h1, Normal v1) ∧
    transform_response v1 h1 = (h2, Normal v1) ∧
    h1 ⊆ h2.
Proof.
  split; [vm_compute; reflexivity|].
  apply (transform_response_idempotent (stored fallback_response).2
           (stored fallback_response).1).
  vm_compute. reflexivity.
Defined.

(** C10 (the guard tests presence).  An input that is not a dict, or a dict
    that holds the key ["__phoenix_processed__"] under any value at all,
    [False] included, is returned as the same object with the store
    untouched: no choice is normalized. *)
Theorem sentinel_guard_tests_presence (h : heap) (r : val) :
  is_dict h r = false ∨
  (∃ l d x, r = VRef l ∧ h !! l = Some (ODict d) ∧ d !! sentinel = Some x) →
  transform_response r h = (h, Normal r).
Proof. intros H. apply transform_guard. naive_solver. Qed.

Lemma sentinel_guard_tests_presence_witness :
  (∃ l d x, (stored marked_false).1 = VRef l ∧
            (stored marked_false).2 !! l = Some (ODict d) ∧
            d !! sentinel = Some x ∧ x = VBool false) ∧
  transform_response (stored marked_false).1 (stored marked_false).2
    = ((stored marked_false).2, Normal (stored marked_false).1).
Proof.
  assert (∃ l d x, (stored marked_false).1 = VRef l ∧
                   (stored marked_false).2 !! l = Some (ODict d) ∧
                   d !! sentinel = Some x ∧ x = VBool false) as Hw.
  { exists 3, (<[sentinel := VBool false]> (<["choices" := VRef 2]> ∅)),
      (VBool false).
    vm_compute. done. }
  split; [exact Hw|].
  apply (sentinel_guard_tests_presence (stored marked_false).2
           (stored marked_false).1).
  right. destruct Hw as (l & d & x & H1 & H2 & H3 & _).
  exists l, d, x. auto.
Defined.

(** C3, amended (no choices).  When [choices] is absent or is an empty
    list, normalizing is not an error and returns a new object: a shallow
    copy of the input that differs from it by the added entry
    ["__phoenix_processed__": True] only.  The input object itself is left
    as it was. *)
Theorem transform_without_choices (h : heap) (l : loc) (d : gmap string val) :
  h !! l = Some (ODict d) → d !! sentinel = None →
  serializable h (VRef l) = true →
  (d !! "choices" = None ∨
   ∃ lc, d !! "choices" = Some (VRef lc) ∧ h !! lc = Some (OList [])) →
  transform_response (VRef l) h =
    (<[fresh_loc h := ODict (<[sentinel := VBool true]> d)]> h,
     Normal (VRef (fresh_loc h))).
Proof.
  intros Hl Hs Hser Hc. apply transform_no_choices; try done.
  destruct Hc as [?|(lc & ? & Hlc)]; [by left|right].
  exists (VRef lc). split; [done|]. simpl. rewrite Hlc. done.
Qed.

Lemma transform_without_choices_witness :
  (stored empty_choices).2 !! 2 = Some (ODict (<["choices" := VRef 1]> ∅)) ∧
  (stored empty_choices).2 !! 1 = Some (OList []) ∧
  transform_response (VRef 2) (stored empty_choices).2 =
    (<[fresh_loc (stored empty_choices).2 :=
         ODict (<[sentinel := VBool true]> (<["choices" := VRef 1]> ∅))]>
       (stored empty_choices).2,
     Normal (VRef (fresh_loc (stored empty_choices).2))).
Proof.
  split; [vm_compute; reflexivity|]. split; [vm_compute; reflexivity|].
  apply (transform_without_choices (stored empty_choices).2 2
           (<["choices" := VRef 1]> ∅)).
  - vm_compute. reflexivity.
  - vm_compute. reflexivity.
  - vm_compute. reflexivity.
  - right. exists 1. split; vm_compute; reflexivity.
Defined.

(** C3 as stated fails: [normalize({"choices": []})] is
    [{"choices": [], "__phoenix_processed__": True}], which does not equal
    [{"choices": []}]. *)
Lemma empty_choices_gain_sentinel :
  let '(r, h) := stored empty_choices in
  let '(h', out) := transform_response r h in
  match out with
  | Normal v =>
      Json.equals h' v empty_choices = false ∧
      Json.equals h' v
        (Json.Dict [("choices", Json.List []);
                    ("__phoenix_processed__", Json.Bool true)]) = true
  | Raise _ => False
  end.
Proof. vm_compute. split; reflexivity. Qed.

(** C4, amended (round trip).  A choice of the response that has
    [message.content == "X"] reads ["X"] at [message.content] after
    normalization, and reads at [text] the text it already had, or ["X"] when
    it had none. *)
Theorem backfill_round_trip (h : heap) (l lc c : loc) (d : gmap string val)
    (items : list val) (x : string) :
  h !! l = Some (ODict d) → d !! sentinel = None →
  serializable h (VRef l) = true →
  d !! "choices" = Some (VRef lc) → h !! lc = Some (OList items) →
  VRef c ∈ items →
  message_field h c "content" = Some (VStr x) →
  ∃ h' v,
    transform_response (VRef l) h = (h', Normal v) ∧
    extract_content_path (VRef c) "message.content" h' = (h', Normal (VStr x)) ∧
    extract_content_path (VRef c) "text" h' =
      (h', Normal (default (VStr x) (field h c "text"))).
Proof.
  intros Hl Hs Hser Hc Hlc Hin Hmc.
  rewrite (transform_list h l lc d items)
    by (done || by intros ->; apply elem_of_nil in Hin).
  eexists _, _. split; [done|].
  pose proof (fresh_loc_None h) as Hfresh.
  assert (message_field (tagged_copy h d) c "content" = Some (VStr x)) as Hmc1
    by (by apply message_field_insert_fresh).
  assert (field (tagged_copy h d) c "text" = field h c "text") as Ht1.
  { apply field_insert_fresh; [done|]. unfold message_field in Hmc.
    destruct (h !! c); [eauto|done]. }
  split.
  - apply extract_message_content, fix_choices_content, Hmc1.
  - apply extract_text. rewrite <- Ht1. by apply fix_choices_backfill.
Qed.

Lemma backfill_round_trip_witness :
  message_field (stored standard_response).2 2 "content" = Some (VStr "X") ∧
  field (stored standard_response).2 2 "text" = None ∧
  ∃ h' v,
    transform_response (VRef 4) (stored standard_response).2 = (h', Normal v) ∧
    extract_content_path (VRef 2) "message.content" h' = (h', Normal (VStr "X")) ∧
    extract_content_path (VRef 2) "text" h' =
      (h', Normal (default (VStr "X")
                     (field (stored standard_response).2 2 "text"))).
Proof.
  split; [vm_compute; reflexivity|]. split; [vm_compute; reflexivity|].
  apply (backfill_round_trip (stored standard_response).2 4 3 2
           (<["choices" := VRef 3]> ∅) [VRef 2] "X").
  - vm_compute. reflexivity.
  - vm_compute. reflexivity.
  - vm_compute. reflexivity.
  - vm_compute. reflexivity.
  - vm_compute. reflexivity.
  - apply list_elem_of_here.
  - vm_compute. reflexivity.
Defined.

(** C4 as stated fails on a choice that already has another text: with
    [{"message": {"content": "X"}, "text": "Y"}] the path [text] still
    reads ["Y"] after normalization. *)
Lemma present_text_is_kept :
  let '(r, h) := stored both_fields_response in
  let '(h', _) := transform_response r h in
  match extract_content_path r "choices[0]" h with
  | (_, Normal choice) =>
      extract_content_path choice "message.content" h = (h, Normal (VStr "X")) ∧
      extract_content_path choice "text" h' = (h', Normal (VStr "Y")) ∧
      extract_content_path choice "text" h' ≠ (h', Normal (VStr "X"))
  | _ => False
  end.
Proof.
  vm_compute. split; [reflexivity|]. split; [reflexivity|].
  intros H. discriminate H.
Qed.

(** The fallback on any store: the one thing that can get in its way is a
    [message] object that another choice has too. *)
Lemma fallback_on_store (h : heap) (l lc c : loc)
    (d dc : gmap string val) (items : list val) :
  h !! l = Some (ODict d) → d !! sentinel = None →
  serializable h (VRef l) = true →
  d !! "choices" = Some (VRef lc) → h !! lc = Some (OList items) →
  VRef c ∈ items → h !! c = Some (ODict dc) →
  dc !! "text" = None → message_field h c "content" = None →
  (∀ m c' dc', dc !! "message" = Some (VRef m) → VRef c' ∈ items → c' ≠ c →
               h !! c' = Some (ODict dc') → dc' !! "message" ≠ Some (VRef m)) →
  ∃ h' v,
    transform_response (VRef l) h = (h', Normal v) ∧
    field h' c "text" = Some (VStr empty_content) ∧
    message_field h' c "content" = Some (VStr empty_content) ∧
    message_field h' c "role" = Some (VStr "assistant").
Proof.
  intros Hl Hs Hser Hc Hlc Hin Hhc Htext Hmc Hun.
  rewrite (transform_list h l lc d items) by (done || by intros ->; apply elem_of_nil in Hin).
  eexists _, _. split; [done|].
  pose proof (fresh_loc_None h) as Hfresh.
  apply (fix_choices_fallback items items _ c (dc !! "message")); [done| |done].
  right. split; [split; [|split]|].
  - exists dc. unfold tagged_copy. rewrite lookup_insert_ne by congruence. done.
  - unfold message_field, message_dict, tagged_copy in *.
    rewrite lookup_insert_ne by congruence. rewrite Hhc in *.
    destruct (dc !! "message") as [[| | | |m]|] eqn:Hm; try done.
    assert (allocated h (VRef m)) as [om Hom]
      by (eapply serializable_message_allocated; eauto).
    rewrite lookup_insert_ne by congruence. done.
  - intros m Hm.
    assert (allocated h (VRef m)) as [om Hom]
      by (eapply serializable_message_allocated; eauto).
    unfold tagged_copy. rewrite lookup_insert_ne by congruence. eauto.
  - intros m c' d' Hm Hin' Hne Hc'.
    assert (allocated h (VRef c')) as [oc Hoc]
      by (eapply serializable_choice_allocated; eauto).
    unfold tagged_copy in Hc'. rewrite lookup_insert_ne in Hc' by congruence.
    eauto.
Qed.

(** C5 (fallback).  In every stored response, a choice with neither [text]
    nor [message.content] leaves normalization with [text] and
    [message.content] equal to ["No content available"] and [message.role]
    equal to ["assistant"].  The witness is the scenario
    [{"choices": [{"index": 0}]}]. *)
Theorem fallback_fills_placeholder (j : Json.t) (h0 : heap) (l lc c : loc)
    (d dc : gmap string val) (items : list val) :
  (load j h0).1 = VRef l → (load j h0).2 !! l = Some (ODict d) →
  d !! sentinel = None →
  d !! "choices" = Some (VRef lc) → (load j h0).2 !! lc = Some (OList items) →
  VRef c ∈ items → (load j h0).2 !! c = Some (ODict dc) →
  dc !! "text" = None → message_field (load j h0).2 c "content" = None →
  ∃ h' v,
    transform_response (VRef l) (load j h0).2 = (h', Normal v) ∧
    field h' c "text" = Some (VStr empty_content) ∧
    message_field h' c "content" = Some (VStr empty_content) ∧
    message_field h' c "role" = Some (VStr "assistant").
Proof.
  intros Hr Hl Hs Hc Hlc Hin Hhc Htext Hmc.
  apply (fallback_on_store _ l lc c d dc items); try done.
  - rewrite <- Hr. apply load_serializable.
  - intros m c' dc' Hm Hin' Hne Hc' Hm'.
    apply list_elem_of_lookup_1 in Hin as [i Hi].
    apply list_elem_of_lookup_1 in Hin' as [i' Hi'].
    eapply (load_choices_apart j h0 l lc d items Hr Hl Hc Hlc i i');
      [|done..].
    intros ->. congruence.
Qed.

Lemma fallback_fills_placeholder_witness :
  (load fallback_response ∅).2 !! 1 = Some (ODict (<["index" := VInt 0]> ∅)) ∧
  ∃ h' v,
    transform_response (VRef 3) (load fallback_response ∅).2 = (h', Normal v) ∧
    field h' 1 "text" = Some (VStr "No content available") ∧
    message_field h' 1 "content" = Some (VStr "No content available") ∧
    message_field h' 1 "role" = Some (VStr "assistant").
Proof.
  split; [vm_compute; reflexivity|].
  apply (fallback_fills_placeholder fallback_response ∅ 3 2 1
           (<["choices" := VRef 2]> ∅) (<["index" := VInt 0]> ∅) [VRef 1]).
  - vm_compute. reflexivity.
  - vm_compute. reflexivity.
  - vm_compute. reflexivity.
  - vm_compute. reflexivity.
  - vm_compute. reflexivity.
  - apply list_elem_of_here.
  - vm_compute. reflexivity.
  - vm_compute. reflexivity.
  - vm_compute. reflexivity.
Defined.

(** C7 (never raises) fails at line 52.  [json.dumps(response)], the
    argument of the debug log call, is evaluated before the [try] of
    line 59: on a dict without the sentinel that [json.dumps] rejects, its
    exception leaves [transform_response], with the store as it was.
    That is the one way out: every exception of [transform_response] is
    the exception of that call. *)
Theorem transform_response_raises_at_dumps (h : heap) (r : val) :
  ∃ h' out, transform_response r h = (h', out) ∧
    (∀ e, out = Raise e →
       h' = h ∧ json_dumps r h = (h, Raise e) ∧
       ∃ l d, r = VRef l ∧ h !! l = Some (ODict d) ∧ d !! sentinel = None) ∧
    (∀ l d e, r = VRef l → h !! l = Some (ODict d) → d !! sentinel = None →
       json_dumps r h = (h, Raise e) → h' = h ∧ out = Raise e).
Proof.
  destruct (is_dict h r) eqn:Hd; cycle 1.
  { exists h, (Normal r). rewrite transform_guard by eauto.
    split; [done|]. split; [done|].
    intros l d e -> Hl. simpl in Hd. by rewrite Hl in Hd. }
  destruct r as [| | | |l]; try done. simpl in Hd.
  destruct (h !! l) as [[d|]|] eqn:Hl; try done.
  destruct (d !! sentinel) as [x|] eqn:Hs.
  { exists h, (Normal (VRef l)). rewrite transform_guard by naive_solver.
    split; [done|]. split; [done|].
    intros l' d' e [= <-] Hl' Hs'. rewrite Hl in Hl'. simplify_eq. }
  destruct (serializable h (VRef l)) eqn:Hser.
  - destruct (transform_effect h l d Hl Hs Hser) as (items & v & Hrun & _).
    eexists _, _. split; [exact Hrun|]. split; [done|].
    intros l' d' e _ _ _ He. by rewrite json_dumps_accepts in He.
  - destruct (json_dumps_rejects h (VRef l) Hser) as (e & He & _).
    assert (transform_response (VRef l) h = (h, Raise e)) as Hrun.
    { unfold transform_response, orM, notM, bind, ret, isinstance_dict, is_dict,
        contains.
      rewrite Hl. simpl. rewrite Hl, Hs. simpl. by rewrite He. }
    exists h, (Raise e). split; [exact Hrun|]. split.
    + intros e' [= <-]. eauto 10.
    + intros l' d' e' _ _ _ He'. rewrite He in He'. by simplify_eq.
Qed.

Lemma transform_response_raises_at_dumps_witness :
  transform_response (VRef 1) circular_response
    = (circular_response, Raise (Exn ValueError "Circular reference detected")) ∧
  transform_response (VRef 1) opaque_response
    = (opaque_response,
       Raise (Exn TypeError "Object of type object is not JSON serializable")).
Proof.
  split.
  - destruct (transform_response_raises_at_dumps circular_response (VRef 1))
      as (h' & out & -> & _ & Hraise).
    destruct (Hraise 1 (<["self" := VRef 1]> ∅)
                (Exn ValueError "Circular reference detected"))
      as [-> ->]; vm_compute; reflexivity.
  - destruct (transform_response_raises_at_dumps opaque_response (VRef 1))
      as (h' & out & -> & _ & Hraise).
    destruct (Hraise 1 (<["when" := VRef 9]> ∅)
                (Exn TypeError "Object of type object is not JSON serializable"))
      as [-> ->]; vm_compute; reflexivity.
Defined.

(** C9, amended (the copy is shallow).  For a dict input without the
    sentinel whose [choices] is absent, false, or can be iterated over,
    the value returned is a new object; it holds the sentinel and the
    input does not; both hold the same [choices] entry, so every path
    through [choices] reads the same from the input as from the value
    returned, fields added by the normalizer included. *)
Theorem shallow_copy_shares_choices (h : heap) (l : loc) (d : gmap string val) :
  h !! l = Some (ODict d) → d !! sentinel = None →
  serializable h (VRef l) = true →
  (∀ c, d !! "choices" = Some c → truth h c = true → is_iterable h c = true) →
  ∃ h' d_in d_out,
    transform_response (VRef l) h = (h', Normal (VRef (fresh_loc h))) ∧
    fresh_loc h ≠ l ∧ h !! fresh_loc h = None ∧
    h' !! l = Some (ODict d_in) ∧ h' !! fresh_loc h = Some (ODict d_out) ∧
    d_in !! sentinel = None ∧ d_out !! sentinel = Some (VBool true) ∧
    d_in !! "choices" = d !! "choices" ∧ d_out !! "choices" = d !! "choices" ∧
    ∀ path rest, parts path = "choices" :: rest →
      extract_content_path (VRef l) path h' =
      extract_content_path (VRef (fresh_loc h)) path h'.
Proof.
  intros Hl Hs Hser Hit.
  pose proof (fresh_loc_None h) as Hfresh.
  assert (fresh_loc h ≠ l) as Hne by congruence.
  assert (∃ items, transform_response (VRef l) h =
            (fix_choices (tagged_copy h d) items, Normal (VRef (fresh_loc h))))
    as [items ->].
  { rewrite (transform_dict h l d) by done.
    destruct (d !! "choices") as [c|]; [|by exists []].
    destruct (truth h c) eqn:Htr; [|by exists []].
    destruct (iter_iterable h c) as [items ->]; eauto. }
  destruct (fix_choices_keys items (tagged_copy h d) l d) as (d_in & Hin & Hkin).
  { unfold tagged_copy. rewrite lookup_insert_ne by done. done. }
  destruct (fix_choices_keys items (tagged_copy h d) (fresh_loc h)
              (<[sentinel := VBool true]> d)) as (d_out & Hout & Hkout).
  { apply lookup_insert_eq. }
  exists (fix_choices (tagged_copy h d) items), d_in, d_out.
  split; [done|]. do 4 (split; [done|]).
  assert (d_in !! "choices" = d !! "choices") as Hcin by (by apply Hkin).
  assert (d_out !! "choices" = d !! "choices") as Hcout.
  { rewrite Hkout by done. rewrite lookup_insert_ne by done. done. }
  split; [by rewrite Hkin|]. split; [rewrite Hkout by done; apply lookup_insert_eq|].
  do 2 (split; [done|]).
  intros path rest Hparts. unfold extract_content_path. rewrite Hparts.
  unfold try_except_in.
  rewrite (walk_shared_entry _ l (fresh_loc h) d_in d_out); [done..| |done].
  congruence.
Qed.

Lemma shallow_copy_shares_choices_witness :
  (stored fallback_response).2 !! 3 = Some (ODict (<["choices" := VRef 2]> ∅)) ∧
  ∃ h' d_in d_out,
    transform_response (VRef 3) (stored fallback_response).2
      = (h', Normal (VRef (fresh_loc (stored fallback_response).2))) ∧
    fresh_loc (stored fallback_response).2 ≠ 3 ∧
    (stored fallback_response).2 !! fresh_loc (stored fallback_response).2 = None ∧
    h' !! 3 = Some (ODict d_in) ∧
    h' !! fresh_loc (stored fallback_response).2 = Some (ODict d_out) ∧
    d_in !! sentinel = None ∧ d_out !! sentinel = Some (VBool true) ∧
    d_in !! "choices" = (<["choices" := VRef 2]> ∅ : gmap string val) !! "choices" ∧
    d_out !! "choices" = (<["choices" := VRef 2]> ∅ : gmap string val) !! "choices" ∧
    ∀ path rest, parts path = "choices" :: rest →
      extract_content_path (VRef 3) path h' =
      extract_content_path (VRef (fresh_loc (stored fallback_response).2)) path h'.
Proof.
  split; [vm_compute; reflexivity|].
  apply (shallow_copy_shares_choices (stored fallback_response).2 3
           (<["choices" := VRef 2]> ∅)).
  - vm_compute. reflexivity.
  - vm_compute. reflexivity.
  - vm_compute. reflexivity.
  - intros c Hc _. vm_compute in Hc. injection Hc as <-. vm_compute. reflexivity.
Defined.

(** C9 as stated fails when [choices] is a number: [enumerate] raises, the
    handler of line 106 returns the input object itself, and that object
    holds no sentinel (the tagged copy is dropped). *)
Lemma numeric_choices_return_input :
  let '(r, h) := stored numeric_choices in
  let '(h', out) := transform_response r h in
  out = Normal r ∧ contains sentinel r h' = (h', Normal false).
Proof. vm_compute. done. Qed.

(** ** The path walker *)

(** C2, amended (failures are values).  What [extract_content_path]
    catches comes back as an ordinary value, not as a typed failure, and
    the store is left alone: when [int] accepts every numeric part of the
    path, a value is returned.  At any depth, where the walk has arrived
    at [x] and [part] comes next: keying an [x] that is not a dict gives
    the text of the [AttributeError]; an absent key of a dict gives
    [None], the same as a key that holds [None]; an index at or past the
    end of a list gives the text of the [IndexError], which is another
    text when the index does not fit a machine word. *)
Theorem extract_failures_are_values (h : heap) (data : val) (path : string) :
  ((∀ p, p ∈ parts path → isdigit p = true → ∃ i, int p h = (h, Normal i)) →
   ∃ v, extract_content_path data path h = (h, Normal v)) ∧
  ∀ (before : list string) (part : string) (rest : list string) (x : val),
    parts path = (before ++ part :: rest)%list →
    walk before data h = (h, Normal x) → before = [] ∨ x ≠ VNone →
    (isdigit part = false → is_dict h x = false →
       extract_content_path data path h =
         (h, Normal (VStr ("Error accessing path: '" ++ type_name h x ++
                           "' object has no attribute 'get'")))) ∧
    (isdigit part = false →
       ∀ l d, x = VRef l → h !! l = Some (ODict d) →
              d !! part = None ∨ d !! part = Some VNone →
              extract_content_path data path h = (h, Normal VNone)) ∧
    (isdigit part = true →
       ∀ i l xs, int part h = (h, Normal i) →
                 x = VRef l → h !! l = Some (OList xs) →
                 (Z.of_nat (length xs) ≤ i)%Z →
                 extract_content_path data path h =
                   (h, Normal
                         (VStr ("Error accessing path: " ++
                                if fits_index i then "list index out of range"
                                else "cannot fit 'int' into an index-sized integer")))).
Proof.
  split.
  { intros Hint.
    destruct (extract_content_path_outcome data path h) as ([v|e] & Hv & He);
      [by exists v|].
    destruct (He e eq_refl) as (_ & p & Hp & Hd & Hraise).
    destruct (Hint p Hp Hd) as [i Hi]. congruence. }
  intros before part rest x Hparts Hw Hx.
  pose proof (walk_app before (part :: rest) data x h Hw Hx) as Happ.
  rewrite <- Hparts in Happ.
  split; [|split].
  - intros Hdig Hnd.
    apply (extract_raise data path h
             (Exn AttributeError ("'" ++ type_name h x ++
                                  "' object has no attribute 'get'"))).
    + rewrite Happ. simpl. rewrite Hdig. unfold bind, dict_get, is_dict in *.
      destruct x as [| | | |l]; try done.
      destruct (h !! l) as [[d|xs]|]; done.
    + simpl. set_solver.
  - intros Hdig l d -> Hl Hk.
    apply extract_normal.
    rewrite Happ. simpl. rewrite Hdig. unfold bind, dict_get. rewrite Hl.
    by destruct Hk as [->| ->].
  - intros Hdig i l xs Hi -> Hl Hlen.
    assert (seq_index xs i = None) as Hnone.
    { unfold seq_index. rewrite bool_decide_eq_true_2 by lia.
      apply lookup_ge_None. lia. }
    destruct (fits_index i) eqn:Hfit.
    + apply (extract_raise _ path h (Exn IndexError "list index out of range")).
      * rewrite Happ. simpl. rewrite Hdig. unfold bind. rewrite Hi.
        unfold getitem. rewrite Hl, Hfit, Hnone. done.
      * simpl. set_solver.
    + apply (extract_raise _ path h index_too_large).
      * rewrite Happ. simpl. rewrite Hdig. unfold bind. rewrite Hi.
        unfold getitem. rewrite Hl, Hfit. done.
      * simpl. set_solver.
Qed.

Lemma extract_failures_are_values_witness :
  let '(v, h) := stored nested_document in
  extract_content_path v "a.b.c" h
    = (h, Normal (VStr "Error accessing path: 'list' object has no attribute 'get'")) ∧
  extract_content_path v "a.zz.c" h = (h, Normal VNone) ∧
  extract_content_path v "a.n.c" h = (h, Normal VNone) ∧
  extract_content_path v "a.b[2]" h
    = (h, Normal (VStr "Error accessing path: list index out of range")) ∧
  extract_content_path v "a.b[9223372036854775808]" h
    = (h, Normal (VStr "Error accessing path: cannot fit 'int' into an index-sized integer")) ∧
  ∃ x, extract_content_path v "a.b[1]" h = (h, Normal x).
Proof.
  set (h := (stored nested_document).2). set (v := (stored nested_document).1).
  change (stored nested_document) with (v, h). cbv iota beta.
  assert (∀ (path : string) (before : list string) (part : string)
            (rest : list string) (x : val),
    parts path = (before ++ part :: rest)%list →
    walk before v h = (h, Normal x) → before = [] ∨ x ≠ VNone →
    (isdigit part = false → is_dict h x = false →
       extract_content_path v path h =
         (h, Normal (VStr ("Error accessing path: '" ++ type_name h x ++
                           "' object has no attribute 'get'")))) ∧
    (isdigit part = false →
       ∀ l d, x = VRef l → h !! l = Some (ODict d) →
              d !! part = None ∨ d !! part = Some VNone →
              extract_content_path v path h = (h, Normal VNone)) ∧
    (isdigit part = true →
       ∀ i l xs, int part h = (h, Normal i) →
                 x = VRef l → h !! l = Some (OList xs) →
                 (Z.of_nat (length xs) ≤ i)%Z →
                 extract_content_path v path h =
                   (h, Normal
                         (VStr ("Error accessing path: " ++
                                if fits_index i then "list index out of range"
                                else "cannot fit 'int' into an index-sized integer")))))
    as Hdepth.
  { intros path. exact (proj2 (extract_failures_are_values h v path)). }
  split; [|split; [|split; [|split; [|split]]]].
  - edestruct (Hdepth "a.b.c" ["a"; "b"] "c" []) as (Hkey & _);
      [vm_compute; reflexivity..|right; discriminate|].
    etransitivity; [apply Hkey; vm_compute; reflexivity|].
    vm_compute. reflexivity.
  - edestruct (Hdepth "a.zz.c" ["a"] "zz" ["c"]) as (_ & Habsent & _);
      [vm_compute; reflexivity..|right; discriminate|].
    eapply Habsent; [vm_compute; reflexivity..|left; vm_compute; reflexivity].
  - edestruct (Hdepth "a.n.c" ["a"] "n" ["c"]) as (_ & Hnull & _);
      [vm_compute; reflexivity..|right; discriminate|].
    eapply Hnull; [vm_compute; reflexivity..|right; vm_compute; reflexivity].
  - edestruct (Hdepth "a.b[2]" ["a"; "b"] "2" []) as (_ & _ & Hindex);
      [vm_compute; reflexivity..|right; discriminate|].
    etransitivity;
      [eapply Hindex; [vm_compute; reflexivity..|vm_compute; discriminate]|].
    vm_compute. reflexivity.
  - edestruct (Hdepth "a.b[9223372036854775808]" ["a"; "b"]
                 "9223372036854775808" []) as (_ & _ & Hindex);
      [vm_compute; reflexivity..|right; discriminate|].
    etransitivity;
      [eapply Hindex; [vm_compute; reflexivity..|vm_compute; discriminate]|].
    vm_compute. reflexivity.
  - apply (proj1 (extract_failures_are_values h v "a.b[1]")).
    intros p Hp Hd. exists (int_value p).
    apply int_accepts; [done|..];
      vm_compute in Hp; repeat (apply elem_of_cons in Hp as [->|Hp];
        [vm_compute in Hd; try discriminate Hd; vm_compute; try reflexivity; lia|]);
      by apply elem_of_nil in Hp.
Defined.

(** C2 as stated fails: an absent key is no failure of its own, it reads
    [None] exactly as a key that holds [None] does.  Nor is every failure
    a value: [int] refuses the superscript two, which [str.isdigit]
    accepts, and a text of 4301 digits, and line 116 does not catch its
    [ValueError]. *)
Lemma absent_key_reads_as_null :
  (let '(v1, h1) := Json.load (Json.Dict [("a", Json.Num 1)]) ∅ in
   let '(v2, h2) := Json.load (Json.Dict [("b", Json.Null)]) ∅ in
   snd (extract_content_path v1 "b" h1) = Normal VNone ∧
   snd (extract_content_path v2 "b" h2) = Normal VNone) ∧
  (let '(v, h) := stored nested_document in
   isdigit superscript_two = true ∧
   snd (extract_content_path v ("a.b[" ++ superscript_two ++ "]") h)
     = Raise (Exn ValueError
                ("invalid literal for int() with base 10: '"
                 ++ superscript_two ++ "'")) ∧
   isdigit (ones 4301) = true ∧
   snd (extract_content_path v ("a.b[" ++ ones 4301 ++ "]") h)
     = Raise (Exn ValueError
                "Exceeds the limit (4300 digits) for integer string conversion: value has 4301 digits; use sys.set_int_max_str_digits() to increase the limit")).
Proof. vm_compute. done. Qed.

(** C6, amended (empty path).  The empty path splits into the one empty
    key: on a dict [v] the result is [v.get("")], [None] unless [v] has an
    entry under the empty key, and on any other [v] it is the text of the
    [AttributeError].  It is not [v]. *)
Theorem extract_empty_path (h : heap) (v : val) :
  extract_content_path v "" h =
    (h, Normal
          match v with
          | VRef l =>
              match h !! l with
              | Some (ODict d) => default VNone (d !! "")
              | _ => VStr ("Error accessing path: '" ++ type_name h v ++
                           "' object has no attribute 'get'")
              end
          | _ => VStr ("Error accessing path: '" ++ type_name h v ++
                       "' object has no attribute 'get'")
          end).
Proof.
  unfold extract_content_path, try_except_in.
  change (parts "") with [""]. simpl. unfold bind, dict_get.
  destruct v as [| | | |l]; try done. simpl.
  destruct (h !! l) as [[d|xs]|]; try done.
  destruct (d !! "") as [[]|]; done.
Qed.

(** C6 as stated fails: on [{"a": 1}] the empty path gives [None], not the
    dict. *)
Lemma extract_empty_path_not_identity :
  let '(v, h) := Json.load (Json.Dict [("a", Json.Num 1)]) ∅ in
  extract_content_path v "" h ≠ (h, Normal v).
Proof. vm_compute. intros H. discriminate H. Qed.

(** C8 (happy paths).  [extract({"a": {"b": 5}}, "a.b")] is [5] and
    [extract({"a": [1,2,3]}, "a[1]")] is [2], with the walker of
    [debug_api.py] and with the guarded walk of
    [response_format_analyzer.py] alike. *)
Theorem extract_happy_paths :
  (let '(v, h) := Json.load (Json.Dict [("a", Json.Dict [("b", Json.Num 5)])]) ∅ in
   extract_content_path v "a.b" h = (h, Normal (VInt 5)) ∧
   ResponseFormatAnalyzer.phoenix_extract v "a.b" h = (h, Normal (VInt 5))) ∧
  (let '(v, h) :=
     Json.load (Json.Dict [("a", Json.List [Json.Num 1; Json.Num 2; Json.Num 3])]) ∅ in
   extract_content_path v "a[1]" h = (h, Normal (VInt 2)) ∧
   ResponseFormatAnalyzer.phoenix_extract v "a[1]" h = (h, Normal (VInt 2))).
Proof. vm_compute. done. Qed.

(** * More of the sources, verified *)

Import Outcomes MoreExamples HookExamples PhoenixResponseFixHooks DebugApiChecks.

(** ** The text-only branch *)

Lemma backfilled_stable (h : heap) (v : val) (c : loc) (t : val) (b : bool) :
  backfilled h c t b → backfilled (fix_choice h v) c t b.
Proof.
  intros (Ht & Hc & Hr). repeat split;
    eauto using fix_choice_text, fix_choice_content, fix_choice_role.
Qed.

Lemma text_only_own (h : heap) (c : loc) (t : val) (mv : option val) (b : bool) :
  text_only h c t mv b → backfilled (fix_choice h (VRef c)) c t b.
Proof.
  unfold text_only, backfilled, field, message_field, is_dict,
    fix_choice, add_fallback, add_message, assistant_message, message_dict.
  intros ((d & Hc & Ht & Hm) & Hf & _ & Hb). rewrite Hc in *. rewrite Ht.
  assert (c ≠ fresh_loc h) by (apply fresh_loc_ne; eauto). subst mv.
  destruct (d !! "message") as [[| | | |m]|] eqn:Hdm;
    [| | | |destruct (h !! m) as [[dm|]|] eqn:Hhm|];
    simpl in *; heap_auto; repeat split; heap_auto.
Qed.

Lemma text_only_other (h : heap) (v : val) (c : loc) (t : val)
    (mv : option val) (b : bool) :
  v ≠ VRef c → text_only h c t mv b →
  (∀ m c' d', mv = Some (VRef m) → v = VRef c' → h !! c' = Some (ODict d') →
              d' !! "message" ≠ Some (VRef m)) →
  text_only (fix_choice h v) c t mv b.
Proof.
  unfold text_only, message_field, message_dict, is_dict.
  intros Hv ((d & Hc & Ht & Hm) & Hf & Hal & Hb) Hun. rewrite Hc in Hf. subst mv.
  split; [|split; [|split]].
  - fix_cases h v; heap_auto; eauto.
    all: eexists; split; [done|]; heap_auto.
  - destruct (d !! "message") as [[| | | |m]|] eqn:Hdm.
    1-4,6: fix_cases h v; heap_auto.
    destruct (Hal m eq_refl) as [om Hom]. rewrite Hom in Hf.
    destruct om as [dm|xs].
    + fix_cases h v; heap_auto.
      all: try (exfalso; eapply Hun; eauto; done).
    + fix_cases h v; heap_auto.
  - intros m Hm. destruct (Hal m Hm) as [om Hom].
    fix_cases h v; heap_auto; eauto.
  - destruct (d !! "message") as [[| | | |m]|] eqn:Hdm; simpl in *; try done.
    destruct (Hal m eq_refl) as [om Hom]. rewrite Hom in Hb.
    destruct om as [dm|xs].
    + destruct (fix_choice_keys h v m dm Hom) as (dm' & -> & _). done.
    + by rewrite (fix_choice_list h v m xs Hom).
Qed.

Lemma message_unshared_step (h : heap) (v : val) (items : list val) (c : loc)
    (mv : option val) :
  (∀ m, mv = Some (VRef m) → is_Some (h !! m)) →
  message_unshared h items c mv →
  message_unshared (fix_choice h v) items c mv.
Proof.
  unfold message_unshared.
  intros Hal Hun m c' d' -> Hin Hne Hc' Hd'.
  destruct (Hal m eq_refl) as [om Hom].
  specialize (Hun m c').
  revert Hc'. fix_cases h v; heap_auto; intros; simplify_eq; heap_auto;
    try (eapply Hun; eauto; done).
  all: try (rewrite lookup_insert_ne in Hd' by done; eapply Hun; eauto; done).
  all: try (rewrite lookup_insert_eq in Hd'; simplify_eq;
            rewrite ?fresh_loc_insert in Hom by eauto;
            rewrite fresh_loc_None in Hom; done).
  all: try (unfold assistant_message in Hd';
            rewrite !lookup_insert_ne in Hd' by done; done).
Qed.

Lemma backfill_invariant_step (h : heap) (items : list val) (c : loc) (t : val)
    (mv : option val) (b : bool) (v : val) :
  v ∈ items → backfill_invariant h items c t mv b →
  backfill_invariant (fix_choice h v) items c t mv b ∧
  (v = VRef c → backfilled (fix_choice h v) c t b).
Proof.
  intros Hin [Hdone|[Honly Hun]].
  - split; [left|intros _]; by apply backfilled_stable.
  - destruct (decide (v = VRef c)) as [->|Hne].
    + split; [left|intros _]; eapply text_only_own, Honly.
    + split; [right|done]. split.
      * apply text_only_other; [done..|].
        intros m c' d' -> -> Hc'. eapply Hun; eauto; congruence.
      * apply message_unshared_step; [|done]. apply Honly.
Qed.

Lemma fix_choices_backfilled (items0 items : list val) (h : heap) (c : loc)
    (t : val) (mv : option val) (b : bool) :
  items ⊆ items0 → backfill_invariant h items0 c t mv b → VRef c ∈ items →
  backfilled (fix_choices h items) c t b.
Proof.
  revert h. induction items as [|v items IH]; intros h Hsub Hinv Hin.
  { by apply elem_of_nil in Hin. }
  assert (v ∈ items0) as Hv by (apply Hsub; left).
  destruct (backfill_invariant_step h items0 c t mv b v Hv Hinv) as [Hinv' Hown].
  simpl. apply elem_of_cons in Hin as [Heq|Hin].
  - specialize (Hown (eq_sym Heq)). clear -Hown. revert Hown.
    generalize (fix_choice h v).
    induction items as [|w items IH]; intros g Hg; simpl; [done|].
    by apply IH, backfilled_stable.
  - apply IH; [|done..]. intros x Hx. apply Hsub. by right.
Qed.


(** X1.  After [transform_response], every dict of the choices list has a
    [text] and a [message] dict with a [content]: what the docstring of
    the function promises (items 2 and 3). *)
Theorem normalization_completes (h : heap) (l lc c : loc)
    (d dc : gmap string val) (items : list val) :
  h !! l = Some (ODict d) → d !! sentinel = None →
  serializable h (VRef l) = true →
  d !! "choices" = Some (VRef lc) → h !! lc = Some (OList items) →
  VRef c ∈ items → h !! c = Some (ODict dc) →
  ∃ h' v x y,
    transform_response (VRef l) h = (h', Normal v) ∧
    field h' c "text" = Some x ∧
    message_field h' c "content" = Some y.
Proof.
  intros Hl Hs Hser Hc Hlc Hin Hhc.
  rewrite (transform_list h l lc d items)
    by (done || by intros ->; apply elem_of_nil in Hin).
  assert (tagged_copy h d !! c = Some (ODict dc)) as Hc1.
  { unfold tagged_copy. rewrite lookup_insert_ne; [done|].
    intros E. pose proof (fresh_loc_None h) as Hf. rewrite E, Hhc in Hf. done. }
  destruct (fix_choices_complete items _ c dc Hin Hc1) as [[x Hx] [y Hy]].
  by exists (fix_choices (tagged_copy h d) items), (VRef (fresh_loc h)), x, y.
Qed.

Lemma normalization_completes_witness :
  (load text_response ∅).2 !! 1 = Some (ODict (<["index" := VInt 0]> (<["text" := VStr "Hello from text field"]> ∅))) ∧
  ∃ h' v x y,
    transform_response (VRef 3) (load text_response ∅).2 = (h', Normal v) ∧
    field h' 1 "text" = Some x ∧
    message_field h' 1 "content" = Some y.
Proof.
  split; [vm_compute; reflexivity|].
  apply (normalization_completes (load text_response ∅).2 3 2 1
           (<["choices" := VRef 2]> (<["id" := VStr "chatcmpl-123"]> ∅))
           (<["index" := VInt 0]> (<["text" := VStr "Hello from text field"]> ∅))
           [VRef 1]).
  - vm_compute. reflexivity.
  - vm_compute. reflexivity.
  - vm_compute. reflexivity.
  - vm_compute. reflexivity.
  - vm_compute. reflexivity.
  - apply list_elem_of_here.
  - vm_compute. reflexivity.
Defined.

(** X2.  [transform_response] never overwrites: a [text] or a
    [message.content] that any dict of the store has before the call, it
    has afterwards, with the same value; no list of the store changes; and
    a dict keeps every entry under keys other than [text], [message] and
    [content]. *)
Theorem normalizer_never_overwrites (h : heap) (l : loc) (d : gmap string val) :
  h !! l = Some (ODict d) → d !! sentinel = None →
  serializable h (VRef l) = true →
  ∃ h' v,
    transform_response (VRef l) h = (h', Normal v) ∧
    (∀ c x, field h c "text" = Some x → field h' c "text" = Some x) ∧
    (∀ c y, message_field h c "content" = Some y →
            message_field h' c "content" = Some y) ∧
    (∀ lx xs, h !! lx = Some (OList xs) → h' !! lx = Some (OList xs)) ∧
    (∀ lx dx, h !! lx = Some (ODict dx) →
       ∃ dx', h' !! lx = Some (ODict dx') ∧
              ∀ k, k ≠ "text" → k ≠ "message" → k ≠ "content" →
                   dx' !! k = dx !! k).
Proof.
  intros Hl Hs Hser.
  destruct (transform_effect h l d Hl Hs Hser) as (items & v & -> & _).
  pose proof (fresh_loc_None h) as Hfresh.
  assert (∀ lx o, h !! lx = Some o → tagged_copy h d !! lx = Some o) as Hkeep.
  { intros lx o Hlx. unfold tagged_copy. rewrite lookup_insert_ne; [done|].
    intros E. by rewrite E, Hlx in Hfresh. }
  exists (fix_choices (tagged_copy h d) items), v. split; [done|].
  split; [|split; [|split]].
  - intros c x Hx. apply fix_choices_text. unfold tagged_copy.
    rewrite field_insert_fresh; [done..|]. unfold field in Hx.
    destruct (h !! c); [eauto|done].
  - intros c y Hy. apply fix_choices_content.
    by apply message_field_insert_fresh.
  - intros lx xs Hlx. apply fix_choices_list, Hkeep, Hlx.
  - intros lx dx Hlx. apply fix_choices_keys, Hkeep, Hlx.
Qed.

Lemma normalizer_never_overwrites_witness :
  field (load both_fields_response ∅).2 2 "text" = Some (VStr "Y") ∧
  ∃ h' v,
    transform_response (VRef 4) (load both_fields_response ∅).2
      = (h', Normal v) ∧
    field h' 2 "text" = Some (VStr "Y").
Proof.
  split; [vm_compute; reflexivity|].
  destruct (normalizer_never_overwrites (load both_fields_response ∅).2 4
              (<["choices" := VRef 3]> ∅))
    as (h' & v & Hrun & Htext & _).
  - vm_compute. reflexivity.
  - vm_compute. reflexivity.
  - vm_compute. reflexivity.
  - exists h', v. split; [exact Hrun|]. apply Htext. vm_compute. reflexivity.
Defined.

(** The text-only branch on any store. *)
Lemma backfill_on_store (h : heap) (l lc c : loc)
    (d dc : gmap string val) (items : list val) (t : val) :
  h !! l = Some (ODict d) → d !! sentinel = None →
  serializable h (VRef l) = true →
  d !! "choices" = Some (VRef lc) → h !! lc = Some (OList items) →
  VRef c ∈ items → h !! c = Some (ODict dc) →
  dc !! "text" = Some t → message_field h c "content" = None →
  (∀ m c' dc', dc !! "message" = Some (VRef m) → VRef c' ∈ items → c' ≠ c →
               h !! c' = Some (ODict dc') → dc' !! "message" ≠ Some (VRef m)) →
  ∃ h' v,
    transform_response (VRef l) h = (h', Normal v) ∧
    backfilled h' c t (is_dict h (default VNone (dc !! "message"))).
Proof.
  intros Hl Hs Hser Hc Hlc Hin Hhc Htext Hmc Hun.
  rewrite (transform_list h l lc d items)
    by (done || by intros ->; apply elem_of_nil in Hin).
  eexists _, _. split; [done|].
  pose proof (fresh_loc_None h) as Hfresh.
  apply (fix_choices_backfilled items items _ c t (dc !! "message"));
    [done| |done].
  right. split; [split; [|split; [|split]]|].
  - exists dc. unfold tagged_copy. rewrite lookup_insert_ne by congruence. done.
  - unfold message_field, message_dict, tagged_copy in *.
    rewrite lookup_insert_ne by congruence. rewrite Hhc in *.
    destruct (dc !! "message") as [[| | | |m]|] eqn:Hm; try done.
    assert (allocated h (VRef m)) as [om Hom]
      by (eapply serializable_message_allocated; eauto).
    rewrite lookup_insert_ne by congruence. done.
  - intros m Hm.
    assert (allocated h (VRef m)) as [om Hom]
      by (eapply serializable_message_allocated; eauto).
    unfold tagged_copy. rewrite lookup_insert_ne by congruence. eauto.
  - destruct (dc !! "message") as [[| | | |m]|] eqn:Hm; try done.
    assert (allocated h (VRef m)) as [om Hom]
      by (eapply serializable_message_allocated; eauto).
    unfold is_dict, tagged_copy. simpl. rewrite lookup_insert_ne by congruence.
    done.
  - intros m c' d' Hm Hin' Hne Hc'.
    assert (allocated h (VRef c')) as [oc Hoc]
      by (eapply serializable_choice_allocated; eauto).
    unfold tagged_copy in Hc'. rewrite lookup_insert_ne in Hc' by congruence.
    eauto.
Qed.

(** X3.  In every stored response, a choice with a [text] and no
    [message.content] leaves normalization with [message.content] equal
    to its text, the text as it was, and, when it had no [message] dict,
    with [message.role] equal to ["assistant"] (lines 80-90). *)
Theorem text_backfills_message (j : Json.t) (h0 : heap) (l lc c : loc)
    (d dc : gmap string val) (items : list val) (t : val) :
  (load j h0).1 = VRef l → (load j h0).2 !! l = Some (ODict d) →
  d !! sentinel = None →
  d !! "choices" = Some (VRef lc) → (load j h0).2 !! lc = Some (OList items) →
  VRef c ∈ items → (load j h0).2 !! c = Some (ODict dc) →
  dc !! "text" = Some t → message_field (load j h0).2 c "content" = None →
  ∃ h' v,
    transform_response (VRef l) (load j h0).2 = (h', Normal v) ∧
    field h' c "text" = Some t ∧
    message_field h' c "content" = Some t ∧
    (is_dict (load j h0).2 (default VNone (dc !! "message")) = false →
     message_field h' c "role" = Some (VStr "assistant")).
Proof.
  intros Hr Hl Hs Hc Hlc Hin Hhc Htext Hmc.
  apply (backfill_on_store _ l lc c d dc items t); try done.
  - rewrite <- Hr. apply load_serializable.
  - intros m c' dc' Hm Hin' Hne Hc' Hm'.
    apply list_elem_of_lookup_1 in Hin as [i Hi].
    apply list_elem_of_lookup_1 in Hin' as [i' Hi'].
    eapply (load_choices_apart j h0 l lc d items Hr Hl Hc Hlc i i');
      [|done..].
    intros ->. congruence.
Qed.

Lemma text_backfills_message_witness :
  field (load text_response ∅).2 1 "text" = Some (VStr "Hello from text field") ∧
  ∃ h' v,
    transform_response (VRef 3) (load text_response ∅).2 = (h', Normal v) ∧
    field h' 1 "text" = Some (VStr "Hello from text field") ∧
    message_field h' 1 "content" = Some (VStr "Hello from text field") ∧
    (is_dict (load text_response ∅).2
       (default VNone
          ((<["index" := VInt 0]> (<["text" := VStr "Hello from text field"]> ∅)
            : gmap string val) !! "message")) = false →
     message_field h' 1 "role" = Some (VStr "assistant")).
Proof.
  split; [vm_compute; reflexivity|].
  apply (text_backfills_message text_response ∅ 3 2 1
           (<["choices" := VRef 2]> (<["id" := VStr "chatcmpl-123"]> ∅))
           (<["index" := VInt 0]> (<["text" := VStr "Hello from text field"]> ∅))
           [VRef 1] (VStr "Hello from text field")).
  - vm_compute. reflexivity.
  - vm_compute. reflexivity.
  - vm_compute. reflexivity.
  - vm_compute. reflexivity.
  - vm_compute. reflexivity.
  - apply list_elem_of_here.
  - vm_compute. reflexivity.
  - vm_compute. reflexivity.
  - vm_compute. reflexivity.
Defined.

(** X4.  The loop body reaches a fixed point in one pass: run on any value
    in any store it returns, and run again on the same value it changes
    nothing.  The sentinel saves work; it is not what makes a second
    normalization harmless. *)
Theorem process_choice_twice (h : heap) (v : val) :
  ∃ h1,
    process_choice v h = (h1, Normal tt) ∧
    process_choice v h1 = (h1, Normal tt).
Proof.
  exists (fix_choice h v). rewrite !process_choice_run. split; [done|].
  f_equal. destruct v as [| | | |c]; try done.
  destruct (h !! c) as [[d|xs]|] eqn:Hc.
  - eapply complete_noop, fix_choice_completes, Hc.
  - unfold fix_choice. by rewrite Hc, Hc.
  - unfold fix_choice. by rewrite Hc, Hc.
Qed.

(** ** The middleware *)

(** The normalizer on a dict it can enumerate the choices of: the value
    returned is the tagged copy. *)
Lemma transform_tagged (h : heap) (l : loc) (d : gmap string val) :
  h !! l = Some (ODict d) → d !! sentinel = None →
  serializable h (VRef l) = true →
  (∀ c, d !! "choices" = Some c → truth h c = true → is_iterable h c = true) →
  ∃ items,
    transform_response (VRef l) h =
      (fix_choices (tagged_copy h d) items, Normal (VRef (fresh_loc h))).
Proof.
  intros Hl Hs Hser Hit. rewrite (transform_dict h l d) by done.
  destruct (d !! "choices") as [c|]; [|by exists []].
  destruct (truth h c) eqn:Htr; [|by exists []].
  destruct (iter_iterable h c) as [items ->]; eauto.
Qed.

Lemma transform_entry_skip (h : heap) (lt : loc) (dt : gmap string val)
    (k : string) :
  h !! lt = Some (ODict dt) →
  (dt !! k = None ∨ ∃ v, dt !! k = Some v ∧ is_dict h v = false) →
  transform_entry (VRef lt) k h = (h, Normal tt).
Proof.
  intros Hlt Hk.
  unfold transform_entry, andM, bind, ret, contains, getitem, isinstance_dict.
  rewrite Hlt. destruct Hk as [Hk|(v & Hk & Hv)]; rewrite Hk; simpl; [done|].
  rewrite Hlt, Hk. simpl. by rewrite Hv.
Qed.

Lemma transform_entry_run (h : heap) (lt lo : loc) (dt d : gmap string val)
    (k : string) :
  h !! lt = Some (ODict dt) → dt !! k = Some (VRef lo) →
  h !! lo = Some (ODict d) →
  transform_entry (VRef lt) k h =
    match transform_response (VRef lo) h with
    | (h1, Normal t) => setitem (VRef lt) k t h1
    | (h1, Raise e) => (h1, Raise e)
    end.
Proof.
  intros Hlt Hk Hlo.
  unfold transform_entry, andM, bind, ret, contains, getitem, isinstance_dict,
    is_dict.
  rewrite Hlt, Hk. simpl. rewrite Hlt, Hk. simpl. rewrite Hlo. simpl.
  rewrite Hlt, Hk. simpl. done.
Qed.

Lemma transform_entry_settled (h : heap) (lt : loc) (dt : gmap string val)
    (k : string) :
  h !! lt = Some (ODict dt) → settled h dt k →
  transform_entry (VRef lt) k h = (h, Normal tt).
Proof.
  intros Hlt Hk. unfold settled in Hk.
  destruct (dt !! k) as [v|] eqn:Hdk;
    [|apply (transform_entry_skip h lt dt); eauto].
  destruct (is_dict h v) eqn:Hv;
    [|apply (transform_entry_skip h lt dt); eauto].
  destruct v as [| | | |lo]; try done. simpl in Hv.
  destruct (h !! lo) as [[d|]|] eqn:Hlo; try done.
  rewrite (transform_entry_run h lt lo dt d) by done.
  rewrite transform_guard by (right; eauto).
  unfold setitem. rewrite Hlt. f_equal.
  rewrite (insert_id dt k (VRef lo)) by done. by apply insert_id.
Qed.


(** X5.  The middleware normalizes in place: on a trace whose [outputs] is
    a dict that [transform_response] can process (no sentinel, accepted by
    [json.dumps], choices it can enumerate) and that has no [response]
    entry, the trace object itself is updated so that [outputs] refers to
    a new object holding the sentinel; the object [outputs] referred to
    before is still without it. *)
Theorem middleware_replaces_outputs (h : heap) (lt lo : loc)
    (dt d : gmap string val) :
  h !! lt = Some (ODict dt) → dt !! "outputs" = Some (VRef lo) →
  dt !! "response" = None →
  h !! lo = Some (ODict d) → d !! sentinel = None →
  serializable h (VRef lo) = true →
  (∀ c, d !! "choices" = Some c → truth h c = true → is_iterable h c = true) →
  ∃ h' dt' d_new d_old,
    wrapped_handle_llm_trace (VRef lt) h = (h', Normal tt) ∧
    h' !! lt = Some (ODict dt') ∧
    dt' !! "outputs" = Some (VRef (fresh_loc h)) ∧
    h !! fresh_loc h = None ∧
    h' !! fresh_loc h = Some (ODict d_new) ∧
    d_new !! sentinel = Some (VBool true) ∧
    h' !! lo = Some (ODict d_old) ∧ d_old !! sentinel = None.
Proof.
  intros Hlt Hout Hresp Hlo Hs Hser Hit.
  pose proof (fresh_loc_None h) as Hfresh.
  destruct (transform_tagged h lo d Hlo Hs Hser Hit) as [items Hrun].
  set (h1 := fix_choices (tagged_copy h d) items) in *.
  assert (∀ l' d', h !! l' = Some (ODict d') →
            ∃ d1, h1 !! l' = Some (ODict d1) ∧
                  ∀ k, k ≠ "text" → k ≠ "message" → k ≠ "content" →
                       d1 !! k = d' !! k) as Hkeys.
  { intros l' d' Hl'. apply fix_choices_keys. unfold tagged_copy.
    rewrite lookup_insert_ne; [done|]. intros E. by rewrite E, Hl' in Hfresh. }
  destruct (Hkeys lt dt Hlt) as (dt1 & Hlt1 & Hk1).
  destruct (fix_choices_keys items (tagged_copy h d) (fresh_loc h)
              (<[sentinel := VBool true]> d)) as (d_new & Hnew & Hknew).
  { apply lookup_insert_eq. }
  destruct (Hkeys lo d Hlo) as (d_old & Hold & Hkold).
  assert (lt ≠ fresh_loc h) as Hne by (intros E; by rewrite E, Hfresh in Hlt).
  set (h2 := <[lt := ODict (<["outputs" := VRef (fresh_loc h)]> dt1)]> h1).
  assert (wrapped_handle_llm_trace (VRef lt) h = (h2, Normal tt)) as Hwrap.
  { unfold wrapped_handle_llm_trace, try_except, bind, isinstance_dict, is_dict.
    rewrite Hlt. simpl.
    rewrite (transform_entry_run h lt lo dt d) by done. rewrite Hrun.
    unfold setitem. rewrite Hlt1. fold h2.
    rewrite (transform_entry_skip h2 lt (<["outputs" := VRef (fresh_loc h)]> dt1)).
    - done.
    - apply lookup_insert_eq.
    - left. rewrite lookup_insert_ne by done. rewrite Hk1 by done. done. }
  assert (h2 !! lt = Some (ODict (<["outputs" := VRef (fresh_loc h)]> dt1)))
    as Hlt2 by apply lookup_insert_eq.
  assert (h2 !! fresh_loc h = Some (ODict d_new)) as Hnew2.
  { unfold h2. rewrite lookup_insert_ne by done. exact Hnew. }
  assert (d_new !! sentinel = Some (VBool true)) as Hsn.
  { rewrite Hknew by done. apply lookup_insert_eq. }
  assert (∃ d_old', h2 !! lo = Some (ODict d_old') ∧ d_old' !! sentinel = None)
    as (d_old' & Hold2 & Hso).
  { destruct (decide (lo = lt)) as [->|Hlo_ne].
    - eexists. split; [exact Hlt2|]. rewrite lookup_insert_ne by done.
      rewrite Hk1 by done. rewrite Hlt in Hlo. by simplify_eq.
    - exists d_old. unfold h2. rewrite lookup_insert_ne by done.
      split; [done|]. rewrite Hkold by done. done. }
  exists h2, (<["outputs" := VRef (fresh_loc h)]> dt1), d_new, d_old'.
  split; [exact Hwrap|]. split; [exact Hlt2|].
  split; [apply lookup_insert_eq|]. split; [exact Hfresh|].
  split; [exact Hnew2|]. split; [exact Hsn|]. split; [exact Hold2|exact Hso].
Qed.

Lemma middleware_replaces_outputs_witness :
  (load trace_with_outputs ∅).2 !! 4 = Some (ODict (<["outputs" := VRef 3]> ∅)) ∧
  ∃ h' dt' d_new d_old,
    wrapped_handle_llm_trace (VRef 4) (load trace_with_outputs ∅).2
      = (h', Normal tt) ∧
    h' !! 4 = Some (ODict dt') ∧
    dt' !! "outputs" = Some (VRef (fresh_loc (load trace_with_outputs ∅).2)) ∧
    (load trace_with_outputs ∅).2 !! fresh_loc (load trace_with_outputs ∅).2 = None ∧
    h' !! fresh_loc (load trace_with_outputs ∅).2 = Some (ODict d_new) ∧
    d_new !! sentinel = Some (VBool true) ∧
    h' !! 3 = Some (ODict d_old) ∧ d_old !! sentinel = None.
Proof.
  split; [vm_compute; reflexivity|].
  apply (middleware_replaces_outputs (load trace_with_outputs ∅).2 4 3
           (<["outputs" := VRef 3]> ∅) (<["choices" := VRef 2]> ∅)).
  - vm_compute. reflexivity.
  - vm_compute. reflexivity.
  - vm_compute. reflexivity.
  - vm_compute. reflexivity.
  - vm_compute. reflexivity.
  - vm_compute. reflexivity.
  - intros c Hc _. vm_compute in Hc. injection Hc as <-. vm_compute. reflexivity.
Defined.

(** X6.  A trace whose [outputs] and [response] need no work (each is
    missing, not a dict, or a dict that carries the sentinel) passes
    through the middleware with the store exactly as it was. *)
Theorem middleware_leaves_processed_trace (h : heap) (lt : loc)
    (dt : gmap string val) :
  h !! lt = Some (ODict dt) →
  settled h dt "outputs" → settled h dt "response" →
  wrapped_handle_llm_trace (VRef lt) h = (h, Normal tt).
Proof.
  intros Hlt Hout Hresp.
  unfold wrapped_handle_llm_trace, try_except, bind, isinstance_dict, is_dict.
  rewrite Hlt. simpl.
  rewrite (transform_entry_settled h lt dt) by done.
  rewrite (transform_entry_settled h lt dt) by done. done.
Qed.

Lemma middleware_leaves_processed_trace_witness :
  settled (load processed_trace ∅).2 (<["outputs" := VRef 2]> ∅) "outputs" ∧
  wrapped_handle_llm_trace (VRef 3) (load processed_trace ∅).2
    = ((load processed_trace ∅).2, Normal tt).
Proof.
  assert (settled (load processed_trace ∅).2 (<["outputs" := VRef 2]> ∅) "outputs")
    as Hw.
  { vm_compute. eexists. reflexivity. }
  split; [exact Hw|].
  apply (middleware_leaves_processed_trace (load processed_trace ∅).2 3
           (<["outputs" := VRef 2]> ∅)).
  - vm_compute. reflexivity.
  - exact Hw.
  - vm_compute. exact I.
Defined.

(** X7.  The middleware lets no exception out, on any value and any store;
    and when [json.dumps] rejects a sentinel-free [outputs] dict, the
    exception is swallowed with the store unchanged, so that the
    [response] entry is not looked at either. *)
Theorem middleware_swallows_errors (h : heap) (trace_data : val) :
  ∃ h',
    wrapped_handle_llm_trace trace_data h = (h', Normal tt) ∧
    ∀ lt lo dt d,
      trace_data = VRef lt → h !! lt = Some (ODict dt) →
      dt !! "outputs" = Some (VRef lo) → h !! lo = Some (ODict d) →
      d !! sentinel = None → serializable h (VRef lo) = false →
      h' = h.
Proof.
  unfold wrapped_handle_llm_trace, try_except.
  destruct (bind (isinstance_dict trace_data) _ h) as [h' [[]|e]] eqn:Hrun.
  - exists h'. split; [done|].
    intros lt lo dt d -> Hlt Hout Hlo Hs Hser. revert Hrun.
    destruct (json_dumps_rejects h (VRef lo) Hser) as (e0 & He0 & _).
    unfold bind at 1. unfold isinstance_dict, is_dict. rewrite Hlt. simpl.
    unfold bind at 1. rewrite (transform_entry_run h lt lo dt d) by done.
    unfold transform_response, orM, notM, bind, ret, isinstance_dict, is_dict,
      contains.
    rewrite Hlo. simpl. rewrite Hlo, Hs. simpl. rewrite He0. done.
  - exists h'. split; [done|].
    intros lt lo dt d -> Hlt Hout Hlo Hs Hser. revert Hrun.
    destruct (json_dumps_rejects h (VRef lo) Hser) as (e0 & He0 & _).
    unfold bind at 1. unfold isinstance_dict, is_dict. rewrite Hlt. simpl.
    unfold bind at 1. rewrite (transform_entry_run h lt lo dt d) by done.
    unfold transform_response, orM, notM, bind, ret, isinstance_dict, is_dict,
      contains.
    rewrite Hlo. simpl. rewrite Hlo, Hs. simpl. rewrite He0.
    by intros [= <- _].
Qed.

Lemma middleware_swallows_errors_witness :
  wrapped_handle_llm_trace (VRef 2) opaque_outputs = (opaque_outputs, Normal tt).
Proof.
  destruct (middleware_swallows_errors opaque_outputs (VRef 2))
    as (h' & Hrun & Hsame).
  rewrite Hrun. f_equal.
  apply (Hsame 2 1 (<["outputs" := VRef 1]> ∅) (<["when" := VRef 9]> ∅));
    vm_compute; reflexivity.
Defined.

(** ** The self-test *)

Lemma check_complete_choice (h : heap) (l lc c : loc) (d : gmap string val)
    (rest : list val) :
  h !! l = Some (ODict d) → d !! "choices" = Some (VRef lc) →
  h !! lc = Some (OList (VRef c :: rest)) → complete h c →
  check_transformed (VRef l) h = (h, Normal Successful).
Proof.
  intros Hl Hc Hlc [[x Hx] [y Hy]].
  unfold field, message_field, message_dict in *.
  destruct (h !! c) as [[dc|]|] eqn:Hhc; try done.
  destruct (dc !! "message") as [[| | | |m]|] eqn:Hm; try done.
  destruct (h !! m) as [[dm|]|] eqn:Hhm; try done.
  unfold check_transformed, andM, bind, ret, contains, getitem, truthy, truth,
    isinstance_dict, is_dict, seq_index.
  repeat (simpl; rewrite ?Hl, ?Hc, ?Hlc, ?Hhc, ?Hx, ?Hm, ?Hhm, ?Hy).
  done.
Qed.


(** X8.  The self-test cannot report an incomplete transformation on a
    well-shaped response: for every response without the sentinel whose
    choices list starts with a dict, [test_transformer] logs "successful"
    (has_text and has_message_content both hold after the call). *)
Theorem self_test_succeeds (h : heap) (l lc c : loc) (d dc : gmap string val)
    (rest : list val) :
  h !! l = Some (ODict d) → d !! sentinel = None →
  serializable h (VRef l) = true →
  d !! "choices" = Some (VRef lc) → h !! lc = Some (OList (VRef c :: rest)) →
  h !! c = Some (ODict dc) →
  ∃ h', test_case (VRef l) h = (h', Normal Successful).
Proof.
  intros Hl Hs Hser Hc Hlc Hhc.
  pose proof (fresh_loc_None h) as Hfresh.
  unfold test_case, bind.
  rewrite (transform_list h l lc d (VRef c :: rest)) by done.
  set (h1 := tagged_copy h d).
  set (h' := fix_choices h1 (VRef c :: rest)).
  assert (∀ l' o, h !! l' = Some o → h1 !! l' = Some o) as Hkeep.
  { intros l' o Hl'. unfold h1, tagged_copy. rewrite lookup_insert_ne; [done|].
    intros E. by rewrite E, Hl' in Hfresh. }
  destruct (fix_choices_keys (VRef c :: rest) h1 (fresh_loc h)
              (<[sentinel := VBool true]> d)) as (d' & Hd' & Hk).
  { apply lookup_insert_eq. }
  exists h'.
  apply (check_complete_choice h' (fresh_loc h) lc c d' rest).
  - exact Hd'.
  - rewrite Hk by done. rewrite lookup_insert_ne by done. done.
  - apply fix_choices_list, Hkeep, Hlc.
  - eapply fix_choices_complete; [left|]. apply Hkeep, Hhc.
Qed.

Lemma self_test_succeeds_witness :
  (load fallback_response ∅).2 !! 3 = Some (ODict (<["choices" := VRef 2]> ∅)) ∧
  ∃ h', test_case (VRef 3) (load fallback_response ∅).2 = (h', Normal Successful).
Proof.
  split; [vm_compute; reflexivity|].
  apply (self_test_succeeds (load fallback_response ∅).2 3 2 1
           (<["choices" := VRef 2]> ∅) (<["index" := VInt 0]> ∅) []).
  - vm_compute. reflexivity.
  - vm_compute. reflexivity.
  - vm_compute. reflexivity.
  - vm_compute. reflexivity.
  - vm_compute. reflexivity.
  - vm_compute. reflexivity.
Defined.

(** X9.  Brackets are not checked: a path always splits into at least one
    part, a closing bracket is dropped wherever it stands and an opening
    one counts as a dot, so [a[1]], [a.1], [a[1] ] without its closing
    bracket and [a.1]]]] all name the same parts. *)
Theorem parts_ignore_bracket_shape (p : string) :
  parts p ≠ [] ∧
  parts (remove_char rbracket p) = parts p ∧
  parts (replace_char lbracket dot p) = parts p.
Proof.
  split; [apply split_nonempty|]. unfold parts. split.
  - by rewrite remove_char_idem.
  - rewrite replace_remove_commute, replace_char_idem; done.
Qed.

(** X10.  Extraction composes: when the walk along [p] arrives, without an
    error, at a value [x] other than [None], extracting [p.q] from the
    root is extracting [q] from [x]. *)
Theorem extraction_composes (h : heap) (v x : val) (p q : string) :
  walk (parts p) v h = (h, Normal x) → x ≠ VNone →
  extract_content_path v (p ++ String dot q) h = extract_content_path x q h.
Proof.
  intros Hw Hx. unfold extract_content_path, try_except_in.
  rewrite parts_app. by rewrite (walk_app _ _ v x) by eauto.
Qed.

Lemma extraction_composes_witness :
  walk (parts "choices[0]") (VRef 4) (load standard_response ∅).2
    = ((load standard_response ∅).2, Normal (VRef 2)) ∧
  extract_content_path (VRef 4) ("choices[0]" ++ String dot "message.content")
    (load standard_response ∅).2
  = extract_content_path (VRef 2) "message.content" (load standard_response ∅).2.
Proof.
  split; [vm_compute; reflexivity|].
  apply (extraction_composes (load standard_response ∅).2 (VRef 4) (VRef 2)
           "choices[0]" "message.content").
  - vm_compute. reflexivity.
  - discriminate.
Defined.

(** X11.  The path [suggest_phoenix_config] prints is one the extractor can
    follow: when the first choice has [message.content] it suggests
    [choices[0].message.content] and extraction along it gives that
    content; when the first choice has no [message] but a [text] it
    suggests [choices[0].text] and extraction gives that text. *)
Theorem suggested_path_extracts (h : heap) (l lc c : loc)
    (d dc : gmap string val) (rest : list val) :
  h !! l = Some (ODict d) → d !! "choices" = Some (VRef lc) →
  h !! lc = Some (OList (VRef c :: rest)) → h !! c = Some (ODict dc) →
  (∀ x, message_field h c "content" = Some x →
        suggested_path (VRef l) h = (h, Normal "choices[0].message.content") ∧
        extract_content_path (VRef l) "choices[0].message.content" h
          = (h, Normal x)) ∧
  (∀ t, dc !! "message" = None → dc !! "text" = Some t →
        suggested_path (VRef l) h = (h, Normal "choices[0].text") ∧
        extract_content_path (VRef l) "choices[0].text" h = (h, Normal t)).
Proof.
  intros Hl Hc Hlc Hhc. split.
  - intros x Hx. unfold message_field, message_dict in Hx. rewrite Hhc in Hx.
    destruct (dc !! "message") as [[| | | |m]|] eqn:Hm; try done.
    destruct (h !! m) as [[dm|]|] eqn:Hhm; try done.
    split.
    + unfold suggested_path, has_message_content, first_choice, andM, bind, ret,
        dict_get, getitem, len, truthy, truth, contains, seq_index.
      repeat (simpl; rewrite ?Hl, ?Hc, ?Hlc, ?Hhc, ?Hm, ?Hhm, ?Hx). done.
    + apply extract_normal.
      change (parts "choices[0].message.content")
        with ["choices"; "0"; "message"; "content"].
      change (isdigit "choices") with false. simpl walk.
      unfold bind, ret, dict_get, getitem, seq_index.
      repeat (simpl; rewrite ?Hl, ?Hc, ?Hlc, ?Hhc, ?Hm, ?Hhm, ?Hx).
      by destruct x.
  - intros t Hm Ht. split.
    + unfold suggested_path, has_message_content, first_choice, andM, bind, ret,
        dict_get, getitem, len, truthy, truth, contains, seq_index.
      repeat (simpl; rewrite ?Hl, ?Hc, ?Hlc, ?Hhc, ?Hm, ?Ht). done.
    + apply extract_normal.
      change (parts "choices[0].text") with ["choices"; "0"; "text"].
      simpl walk. unfold bind, ret, dict_get, getitem, seq_index.
      repeat (simpl; rewrite ?Hl, ?Hc, ?Hlc, ?Hhc, ?Hm, ?Ht).
      by destruct t.
Qed.

Lemma suggested_path_extracts_witness :
  suggested_path (VRef 4) (load standard_response ∅).2
    = ((load standard_response ∅).2, Normal "choices[0].message.content") ∧
  extract_content_path (VRef 4) "choices[0].message.content"
    (load standard_response ∅).2
    = ((load standard_response ∅).2, Normal (VStr "X")).
Proof.
  destruct (suggested_path_extracts (load standard_response ∅).2 4 3 2
              (<["choices" := VRef 3]> ∅) (<["message" := VRef 1]> ∅) [])
    as [Hm _]; [vm_compute; reflexivity ..|].
  apply Hm. vm_compute. reflexivity.
Defined.

(** ** The field check of the tester *)

Lemma field_step_outcome (part : string) (v : val) (h : heap) :
  ∃ out, TraceVsUiTester.field_step part v h = (h, out) ∧
    match out with
    | Normal (Some r) =>
        r ≠ VNone ∨ isdigit part = true
    | Normal None => True
    | Raise e =>
        isdigit part = true ∧
        ((exn_cls e = KeyError ∧ is_dict h v = true) ∨
         (exn_cls e = ValueError ∧ int part h = (h, Raise e)))
    end.
Proof.
  unfold TraceVsUiTester.field_step.
  destruct (isdigit part) eqn:Hd.
  - unfold try_except_in, bind.
    destruct (int_outcome part h) as ([i|e] & Hi & He); rewrite Hi; cycle 1.
    { rewrite bool_decide_eq_false_2.
      - eexists. split; [reflexivity|]. simpl. eauto.
      - rewrite (He e eq_refl). set_solver. }
    unfold ret, getitem, is_dict, index_too_large.
    destruct v as [| | |s|l]; simpl;
      try (eexists; split; [reflexivity|]; simpl; by eauto).
    + destruct (fits_index i); [destruct (seq_index (chars s) i)|]; simpl;
        eexists; (split; [reflexivity|]); simpl; by eauto.
    + destruct (h !! l) as [[d|xs]|]; simpl;
        try (eexists; split; [reflexivity|]; simpl; by eauto 10).
      destruct (fits_index i); [destruct (seq_index xs i)|]; simpl;
        eexists; (split; [reflexivity|]); simpl; by eauto.
  - destruct v as [| | | |l];
      try (unfold bind, ret, isinstance_dict, is_dict; simpl;
           eexists; split; [reflexivity|]; simpl; by eauto).
    destruct (h !! l) as [[d|xs]|] eqn:Hl;
      unfold bind, ret, isinstance_dict, is_dict, dict_get; rewrite ?Hl; simpl;
      rewrite ?Hl;
      try (eexists; split; [reflexivity|]; simpl; by eauto).
    destruct (d !! part) as [[]|]; simpl;
      eexists; (split; [reflexivity|]); simpl; by eauto.
Qed.

Lemma field_step_walk (part : string) (v r : val) (h : heap) :
  TraceVsUiTester.field_step part v h = (h, Normal (Some r)) →
  (isdigit part = true ∧
   ∃ i, int part h = (h, Normal i) ∧ getitem v (KInt i) h = (h, Normal r)) ∨
  (isdigit part = false ∧ dict_get v part h = (h, Normal r) ∧ r ≠ VNone).
Proof.
  unfold TraceVsUiTester.field_step.
  destruct (isdigit part) eqn:Hd.
  - left. split; [done|]. revert H.
    unfold try_except_in, bind, ret.
    destruct (int_outcome part h) as ([i|e] & Hi & He); rewrite Hi; cycle 1.
    { by case_bool_decide. }
    exists i. split; [done|]. revert H.
    destruct (getitem v (KInt i) h) as [h1 [x|e]] eqn:Hg; simpl.
    + intros E. by simplify_eq.
    + by case_bool_decide.
  - right. split; [done|]. revert H.
    destruct v as [| | | |l];
      try (unfold bind, ret, isinstance_dict, is_dict; simpl; done).
    destruct (h !! l) as [[d|xs]|] eqn:Hl;
      unfold bind, ret, isinstance_dict, is_dict, dict_get; rewrite ?Hl; simpl;
      rewrite ?Hl; try done.
    destruct (d !! part) as [[]|]; simpl; intros E; by simplify_eq.
Qed.

Lemma guarded_walk_None (ps : list string) (h : heap) :
  ResponseFormatAnalyzer.walk ps VNone h = (h, Normal VNone).
Proof.
  destruct ps as [|p ps]; simpl; [done|].
  unfold bind at 1. unfold ResponseFormatAnalyzer.step, try_except.
  destruct (isdigit p); [|done]. unfold bind at 1.
  by destruct (int_outcome p h) as ([i|e] & -> & _).
Qed.

Ltac guarded_cases h v :=
  let l := fresh "l" in let Hl := fresh "Hl" in
  destruct v as [| | | |l]; [| | | |destruct (h !! l) as [[?d|?xs]|] eqn:Hl];
  unfold try_except, andM, bind, ret, isinstance_list, isinstance_dict,
    is_list, is_dict, len, contains, getitem, dict_get;
  repeat (progress (simpl; rewrite ?Hl)).

Lemma guarded_index (i : Z) (v : val) (h : heap) :
  ∃ o,
    (ok <- andM (isinstance_list v)
                (n <- len v ;; ret (bool_decide (i < n)%Z)) ;;
     if ok then r <- getitem v (KInt i) ;; ret (Some r) else ret None) h
    = (h, o) ∧
    ∀ r, o = Normal (Some r) → getitem v (KInt i) h = (h, Normal r).
Proof.
  guarded_cases h v; try (eexists; split; [reflexivity|]; done).
  case_bool_decide; simpl; [|eexists; split; [reflexivity|]; done].
  rewrite ?Hl.
  destruct (fits_index i); [destruct (seq_index xs i)|]; simpl;
    eexists; (split; [reflexivity|]); intros r E; by simplify_eq.
Qed.

Lemma guarded_step_heap (part : string) (v : val) (h : heap) :
  ∃ o, ResponseFormatAnalyzer.step part v h = (h, Normal o).
Proof.
  unfold ResponseFormatAnalyzer.step.
  destruct (isdigit part).
  - unfold try_except. unfold bind at 1.
    destruct (int_outcome part h) as ([i|e] & -> & _); [|by eexists].
    destruct (guarded_index i v h) as ([o|e] & -> & _); by eexists.
  - guarded_cases h v; try (by eexists).
    case_bool_decide as Hin; simpl; [|by eexists]. rewrite ?Hl.
    destruct Hin as [x Hx]. rewrite Hx. simpl. by eexists.
Qed.

Lemma guarded_step_walk (part : string) (v r : val) (h : heap) :
  ResponseFormatAnalyzer.step part v h = (h, Normal (Some r)) →
  (isdigit part = true ∧
   ∃ i, int part h = (h, Normal i) ∧ getitem v (KInt i) h = (h, Normal r)) ∨
  (isdigit part = false ∧ dict_get v part h = (h, Normal r)).
Proof.
  unfold ResponseFormatAnalyzer.step.
  destruct (isdigit part) eqn:Hd; [left|right]; (split; [done|]); revert H.
  - unfold try_except. unfold bind at 1.
    destruct (int_outcome part h) as ([i|e] & -> & _); [|done].
    destruct (guarded_index i v h) as ([o|e] & -> & Ho); [|done].
    intros E. exists i. split; [done|]. apply Ho. by simplify_eq.
  - guarded_cases h v; try done.
    case_bool_decide as Hin; simpl; [|done]. rewrite ?Hl.
    destruct Hin as [x Hx]. rewrite Hx. simpl. intros E. by simplify_eq.
Qed.

(** X12.  The field check of [test_ui_rendering_flow] catches [IndexError]
    and [TypeError] around the subscript only.  It never changes the
    store; what can leave it is the [KeyError] of a numeric part met at a
    dict and the [ValueError] of [int] at a numeric part it refuses; on
    the five fields the function itself checks, whose one numeric part is
    [0], only the [KeyError] can; and a numeric part that [int] accepts,
    met at a dict, does raise it. *)
Theorem field_walk_escapes (h : heap) :
  (∀ ps v, ∃ out, TraceVsUiTester.field_walk ps v h = (h, out) ∧
     ∀ e, out = Raise e →
       exn_cls e = KeyError ∨
       (exn_cls e = ValueError ∧
        ∃ p, p ∈ ps ∧ isdigit p = true ∧ int p h = (h, Raise e))) ∧
  (∀ field v, field ∈ TraceVsUiTester.ui_fields →
     ∃ out,
       TraceVsUiTester.field_walk (TraceVsUiTester.field_parts field) v h
         = (h, out) ∧
       ∀ e, out = Raise e → exn_cls e = KeyError) ∧
  (∀ l d part i rest, h !! l = Some (ODict d) → isdigit part = true →
     int part h = (h, Normal i) →
     TraceVsUiTester.field_walk (part :: rest) (VRef l) h =
       (h, Raise (Exn KeyError (pretty i)))).
Proof.
  assert (∀ ps v, ∃ out, TraceVsUiTester.field_walk ps v h = (h, out) ∧
     ∀ e, out = Raise e →
       exn_cls e = KeyError ∨
       (exn_cls e = ValueError ∧
        ∃ p, p ∈ ps ∧ isdigit p = true ∧ int p h = (h, Raise e))) as Hall.
  { intros ps. induction ps as [|p ps IH]; intros v; simpl.
    { by eexists. }
    unfold bind. destruct (field_step_outcome p v h) as (out & -> & Ho).
    destruct out as [[r|]|e].
    - destruct (IH r) as (out & -> & Hout). exists out. split; [done|].
      intros e He. destruct (Hout e He) as [?|(? & q & ? & ? & ?)];
        [by left|right]. split; [done|]. exists q. set_solver.
    - by eexists.
    - eexists. split; [done|]. intros e' [= <-].
      destruct Ho as [Hd [[? _]|[? ?]]]; [by left|right].
      split; [done|]. exists p. set_solver. }
  split; [exact Hall|]. split.
  - intros field v Hin.
    destruct (Hall (TraceVsUiTester.field_parts field) v) as (out & Hrun & Hout).
    exists out. split; [done|]. intros e He.
    destruct (Hout e He) as [?|(_ & p & Hp & Hd & Hraise)]; [done|].
    exfalso. unfold TraceVsUiTester.ui_fields in Hin.
    repeat (apply elem_of_cons in Hin as [->|Hin];
      [vm_compute in Hp;
       repeat (apply elem_of_cons in Hp as [->|Hp];
               [vm_compute in Hd; try discriminate Hd;
                vm_compute in Hraise; discriminate Hraise|]);
       by apply elem_of_nil in Hp|]).
    by apply elem_of_nil in Hin.
  - intros l d part i rest Hl Hd Hi.
    assert (TraceVsUiTester.field_step part (VRef l) h =
              (h, Raise (Exn KeyError (pretty i)))) as Hs.
    { unfold TraceVsUiTester.field_step, try_except_in, bind.
      rewrite Hd, Hi. unfold getitem. rewrite Hl. reflexivity. }
    cbn [TraceVsUiTester.field_walk]. unfold bind. by rewrite Hs.
Qed.

Lemma field_walk_escapes_witness :
  TraceVsUiTester.field_walk (TraceVsUiTester.field_parts "choices[].text")
    (VRef 2) (<[2 := ODict (<["choices" := VRef 1]> ∅)]> (<[1 := ODict ∅]> ∅))
  = (<[2 := ODict (<["choices" := VRef 1]> ∅)]> (<[1 := ODict ∅]> ∅),
     Raise (Exn KeyError "0")).
Proof.
  change (TraceVsUiTester.field_parts "choices[].text")
    with ["choices"; "0"; "text"].
  cbn [TraceVsUiTester.field_walk]. unfold bind at 1.
  replace (TraceVsUiTester.field_step "choices" (VRef 2) _)
    with (<[2 := ODict (<["choices" := VRef 1]> ∅)]> (<[1 := ODict ∅]> (∅ : heap)),
          Normal (Some (VRef 1))) by (vm_compute; reflexivity).
  apply (proj2 (proj2 (field_walk_escapes _)) 1 ∅ "0" 0%Z ["text"]);
    vm_compute; reflexivity.
Defined.

(** X13.  What the field check finds, the extractor of [debug_api] finds:
    a walk of the tester that ends in a value other than [None] is a walk
    of [extract_content_path] to the same value. *)
Theorem field_walk_found_by_extractor (h : heap) (ps : list string) (v x : val) :
  TraceVsUiTester.field_walk ps v h = (h, Normal x) → x ≠ VNone →
  walk ps v h = (h, Normal x).
Proof.
  revert v. induction ps as [|p ps IH]; intros v Hw Hx; simpl in *; [done|].
  unfold bind in *.
  destruct (field_step_outcome p v h) as (out & Ho & _). rewrite Ho in Hw.
  destruct out as [[r|]|e];
    [|unfold ret in Hw; simplify_eq; by destruct Hx|done].
  destruct (field_step_walk p v r h Ho) as [(-> & i & -> & ->)|(-> & -> & Hr)].
  - by apply IH.
  - destruct r; try done; by apply IH.
Qed.

Lemma field_walk_found_by_extractor_witness :
  walk (parts "choices[0].message.content") (VRef 4) (load standard_response ∅).2
  = ((load standard_response ∅).2, Normal (VStr "X")).
Proof.
  apply field_walk_found_by_extractor; [vm_compute; reflexivity|discriminate].
Defined.

(** X14.  The guarded walk of [phoenix_request_analysis] never raises and
    never changes the store, and what it extracts, [extract_content_path]
    extracts: a result other than [None] is also the result of the
    extractor of [debug_api] for the same path. *)
Theorem guarded_walk_refines_extractor (h : heap) (r : val) (p : string) :
  ∃ v, ResponseFormatAnalyzer.phoenix_extract r p h = (h, Normal v) ∧
       (v ≠ VNone → extract_content_path r p h = (h, Normal v)).
Proof.
  unfold ResponseFormatAnalyzer.phoenix_extract.
  enough (∀ ps r, ∃ v, ResponseFormatAnalyzer.walk ps r h = (h, Normal v) ∧
            (v ≠ VNone → walk ps r h = (h, Normal v))) as Hgen.
  { destruct (Hgen (parts p) r) as (v & Hv & Hx). exists v. split; [done|].
    intros Hne. by apply extract_normal, Hx. }
  clear. intros ps. induction ps as [|q ps IH]; intros r; simpl.
  { by exists r. }
  unfold bind. destruct (guarded_step_heap q r h) as [[r1|] Hs]; rewrite Hs.
  - destruct (IH r1) as (v & Hv & Hx). exists v. split; [done|]. intros Hne.
    destruct (guarded_step_walk q r r1 h Hs) as [(-> & i & -> & ->)|[-> ->]];
      [by apply Hx|].
    destruct r1; try (by apply Hx).
    rewrite guarded_walk_None in Hv. by simplify_eq.
  - by exists VNone.
Qed.

Lemma guarded_walk_refines_extractor_witness :
  extract_content_path (VRef 4) "choices[0].message.content"
    (load standard_response ∅).2
  = ((load standard_response ∅).2, Normal (VStr "X")).
Proof.
  destruct (guarded_walk_refines_extractor (load standard_response ∅).2 (VRef 4)
              "choices[0].message.content") as (v & Hv & Hx).
  assert (v = VStr "X") as ->.
  { vm_compute in Hv. by injection Hv as <-. }
  by apply Hx.
Defined.

(** ** What would be displayed *)

Lemma primary_outcome (r : val) (p : string) (h : heap) :
  ∃ v, ExtractionSteps.primary r p h = (h, Normal v).
Proof.
  unfold ExtractionSteps.primary, try_except.
  change ExtractionSteps.walk with walk.
  destruct (walk_outcome (parts p) r h) as ([v|e] & -> & _); by eexists.
Qed.

Lemma fallback_text (h : heap) (l lc c : loc) (d : gmap string val)
    (rest : list val) (x : val) :
  h !! l = Some (ODict d) → d !! "choices" = Some (VRef lc) →
  h !! lc = Some (OList (VRef c :: rest)) → field h c "text" = Some x →
  ExtractionSteps.fallback (VRef l) h = (h, Normal x).
Proof.
  intros Hl Hc Hlc Hx. unfold field in Hx.
  destruct (h !! c) as [[dc|]|] eqn:Hhc; try done.
  unfold ExtractionSteps.fallback, andM, bind, ret, contains, getitem, truthy,
    truth, isinstance_dict, is_dict, seq_index.
  repeat (simpl; rewrite ?Hl, ?Hc, ?Hlc, ?Hhc, ?Hx). done.
Qed.

Lemma display_with_text (h : heap) (l lc c : loc) (d : gmap string val)
    (rest : list val) (x : val) (p : string) :
  h !! l = Some (ODict d) → d !! "choices" = Some (VRef lc) →
  h !! lc = Some (OList (VRef c :: rest)) → field h c "text" = Some x →
  ∃ v, ExtractionSteps.display_content (VRef l) p h = (h, Normal (Some v)) ∧
       (v = VNone → x = VNone).
Proof.
  intros Hl Hc Hlc Hx. unfold ExtractionSteps.display_content, try_except.
  unfold bind at 1. destruct (primary_outcome (VRef l) p h) as [v ->].
  destruct v; try (eexists; split; [reflexivity|done]).
  unfold bind. rewrite (fallback_text h l lc c d rest x) by done.
  by exists x.
Qed.

(** ** Code that only reads *)

Lemma bind_run {A B} (m : M A) (k : A → M B) (h h' : heap) (a : A) :
  m h = (h', Normal a) → bind m k h = k a h'.
Proof. unfold bind. by intros ->. Qed.

Lemma bind_raise {A B} (m : M A) (k : A → M B) (h h' : heap) (e : exn) :
  m h = (h', Raise e) → bind m k h = (h', Raise e).
Proof. unfold bind. by intros ->. Qed.

Lemma reads_ret {A} (a : A) : reads (ret a).
Proof. done. Qed.

Lemma reads_bind {A B} (m : M A) (k : A → M B) :
  reads m → (∀ a, reads (k a)) → reads (bind m k).
Proof.
  intros Hm Hk h. unfold bind. specialize (Hm h).
  destruct (m h) as [h1 [a|e]]; simpl in *; subst h1; [apply Hk|done].
Qed.

Lemma reads_if {A} (b : bool) (m1 m2 : M A) :
  reads m1 → reads m2 → reads (if b then m1 else m2).
Proof. by destruct b. Qed.

Lemma reads_andM (a b : M bool) : reads a → reads b → reads (andM a b).
Proof.
  intros. apply reads_bind; [done|]. intros []; [done|apply reads_ret].
Qed.

Lemma reads_notM (a : M bool) : reads a → reads (notM a).
Proof. intros. apply reads_bind; [done|]. intros; apply reads_ret. Qed.

Lemma reads_truthy (v : val) : reads (truthy v).
Proof. done. Qed.

Lemma reads_contains (k : string) (v : val) : reads (contains k v).
Proof.
  intros h. unfold contains. destruct v as [| | | |l]; try done.
  by destruct (h !! l) as [[]|].
Qed.

Lemma reads_getitem (v : val) (k : key) : reads (getitem v k).
Proof.
  intros h. unfold getitem. destruct v as [| | |s|l]; try done.
  - destruct k as [|i]; [done|].
    destruct (fits_index i); [|done]. by destruct (seq_index _ _).
  - destruct (h !! l) as [[d|xs]|]; [| |done]; destruct k as [s|i]; try done.
    + by destruct (d !! s).
    + destruct (fits_index i); [|done]. by destruct (seq_index _ _).
Qed.

Lemma choice_content_reads (choice : val) :
  reads (TraceVsUiTester.choice_content choice).
Proof.
  unfold TraceVsUiTester.choice_content.
  repeat first
    [ apply reads_ret | apply reads_truthy | apply reads_contains
    | apply reads_getitem | apply reads_andM | apply reads_if
    | apply reads_bind; [|intros ?] ].
Qed.

Lemma api_content_reads (r : val) : reads (TraceVsUiTester.api_content r).
Proof.
  unfold TraceVsUiTester.api_content.
  repeat first
    [ apply reads_ret | apply reads_truthy | apply reads_contains
    | apply reads_getitem | apply choice_content_reads | apply reads_andM
    | apply reads_if | apply reads_bind; [|intros ?] ].
Qed.


(** X15.  Normalization makes the display step find something to show: on
    a response without the sentinel whose choices list starts with a dict,
    [transform_response] followed by the display logic of
    [trace_phoenix_extraction_steps] reports a content for every
    extraction path, and that content is [None] only when the [text] of
    the first choice is [None]. *)
Theorem display_after_normalization (h : heap) (l lc c : loc)
    (d dc : gmap string val) (rest : list val) (p : string) :
  h !! l = Some (ODict d) → d !! sentinel = None →
  serializable h (VRef l) = true →
  d !! "choices" = Some (VRef lc) → h !! lc = Some (OList (VRef c :: rest)) →
  h !! c = Some (ODict dc) →
  ∃ h' r v,
    transform_response (VRef l) h = (h', Normal r) ∧
    ExtractionSteps.display_content r p h' = (h', Normal (Some v)) ∧
    (v = VNone → field h' c "text" = Some VNone).
Proof.
  intros Hl Hs Hser Hc Hlc Hhc.
  pose proof (fresh_loc_None h) as Hfresh.
  rewrite (transform_list h l lc d (VRef c :: rest)) by done.
  set (h1 := tagged_copy h d).
  set (h' := fix_choices h1 (VRef c :: rest)).
  assert (∀ l' o, h !! l' = Some o → h1 !! l' = Some o) as Hkeep.
  { intros l' o Hl'. unfold h1, tagged_copy. rewrite lookup_insert_ne; [done|].
    intros E. by rewrite E, Hl' in Hfresh. }
  destruct (fix_choices_keys (VRef c :: rest) h1 (fresh_loc h)
              (<[sentinel := VBool true]> d)) as (d' & Hd' & Hk).
  { apply lookup_insert_eq. }
  destruct (fix_choices_complete (VRef c :: rest) h1 c dc) as [[x Hx] _].
  { left. } { apply Hkeep, Hhc. }
  destruct (display_with_text h' (fresh_loc h) lc c d' rest x p)
    as (v & Hv & Hnone).
  - exact Hd'.
  - rewrite Hk by done. by rewrite lookup_insert_ne.
  - apply fix_choices_list, Hkeep, Hlc.
  - exact Hx.
  - exists h', (VRef (fresh_loc h)), v. split; [done|]. split; [exact Hv|].
    intros E. rewrite <- (Hnone E). exact Hx.
Qed.

Lemma display_after_normalization_witness :
  ∃ h' r v,
    transform_response (VRef 3) (load fallback_response ∅).2 = (h', Normal r) ∧
    ExtractionSteps.display_content r "choices[0].message.content" h'
      = (h', Normal (Some v)) ∧
    (v = VNone → field h' 1 "text" = Some VNone).
Proof.
  apply (display_after_normalization (load fallback_response ∅).2 3 2 1
           (<["choices" := VRef 2]> ∅) (<["index" := VInt 0]> ∅) []);
    vm_compute; reflexivity.
Defined.

(** X16.  The custom transformer of [test_with_custom_transformer] writes
    [message.content] of the first choice over its [text], whatever text
    was there, and it writes into the choice the original response holds:
    after the call the first choice of the original and of the copy are
    the same object, with the new [text]. *)
Theorem custom_transformer_shares_choice (h : heap) (l lc c : loc)
    (d dc : gmap string val) (rest : list val) (x : val) :
  h !! l = Some (ODict d) → d !! "choices" = Some (VRef lc) →
  h !! lc = Some (OList (VRef c :: rest)) → h !! c = Some (ODict dc) →
  message_field h c "content" = Some x →
  ∃ h',
    TraceVsUiTester.custom_transformer (VRef l) h
      = (h', Normal (VRef (fresh_loc h))) ∧
    h' = <[c := ODict (<["text" := x]> dc)]> (<[fresh_loc h := ODict d]> h) ∧
    first_choice (VRef l) h' = (h', Normal (VRef c)) ∧
    first_choice (VRef (fresh_loc h)) h' = (h', Normal (VRef c)) ∧
    field h' c "text" = Some x.
Proof.
  intros Hl Hc Hlc Hhc Hx.
  pose proof (fresh_loc_None h) as Hfresh.
  assert (∀ l' o, h !! l' = Some o → l' ≠ fresh_loc h) as Hne.
  { intros l' o Hl' E. by rewrite <- E, Hl' in Hfresh. }
  unfold message_field, message_dict in Hx. rewrite Hhc in Hx.
  destruct (dc !! "message") as [[| | | |m]|] eqn:Hm; try done.
  destruct (h !! m) as [[dm|]|] eqn:Hhm; try done.
  set (f := fresh_loc h) in *.
  set (h1 := <[f := ODict d]> h).
  assert (h1 !! f = Some (ODict d)) as Hf1 by apply lookup_insert_eq.
  assert (∀ l' o, h !! l' = Some o → h1 !! l' = Some o) as Hkeep.
  { intros l' o Hl'. unfold h1. rewrite lookup_insert_ne; [done|].
    intros E. by apply (Hne l' o). }
  pose proof (Hkeep _ _ Hlc) as Hlc1. pose proof (Hkeep _ _ Hhc) as Hc1.
  pose proof (Hkeep _ _ Hhm) as Hm1.
  eexists. split; [|split; [reflexivity|]].
  - unfold TraceVsUiTester.custom_transformer, copy, bind at 1.
    rewrite Hl. fold f h1.
    unfold andM, bind, ret, contains, getitem, truthy, truth, setitem, seq_index.
    repeat (simpl; rewrite ?Hf1, ?Hc, ?Hlc1, ?Hc1, ?Hm, ?Hm1, ?Hx). done.
  - set (h' := <[c := ODict (<["text" := x]> dc)]> h1).
    assert (c ≠ f) as Hcf by eauto.
    assert (lc ≠ c) as Hlcc. { intros ->. rewrite Hlc in Hhc. done. }
    assert (h' !! c = Some (ODict (<["text" := x]> dc))) as Hc'
      by apply lookup_insert_eq.
    assert (h' !! lc = Some (OList (VRef c :: rest))) as Hlc'.
    { unfold h'. by rewrite lookup_insert_ne. }
    assert (h' !! f = Some (ODict d)) as Hf'.
    { unfold h'. by rewrite lookup_insert_ne. }
    assert (∃ d2, h' !! l = Some (ODict d2) ∧ d2 !! "choices" = Some (VRef lc))
      as (d2 & Hl' & Hc2).
    { destruct (decide (l = c)) as [->|Hne'].
      - rewrite Hl in Hhc. injection Hhc as ->. eexists. split; [exact Hc'|].
        by rewrite lookup_insert_ne.
      - exists d. split; [|done]. unfold h'. rewrite lookup_insert_ne by done.
        by apply Hkeep. }
    unfold first_choice, bind, getitem, field, seq_index.
    rewrite Hl', Hc2, Hlc', Hf', Hc, Hlc', Hc'. simpl.
    by rewrite lookup_insert_eq.
Qed.

Lemma custom_transformer_shares_choice_witness :
  field (load both_fields_response ∅).2 2 "text" = Some (VStr "Y") ∧
  ∃ h', TraceVsUiTester.custom_transformer (VRef 4) (load both_fields_response ∅).2
          = (h', Normal (VRef 5)) ∧
        field h' 2 "text" = Some (VStr "X").
Proof.
  split; [vm_compute; reflexivity|].
  destruct (custom_transformer_shares_choice (load both_fields_response ∅).2
              4 3 2 (<["choices" := VRef 3]> ∅)
              (<["text" := VStr "Y"]> (<["message" := VRef 1]> ∅)) [] (VStr "X"))
    as (h' & Hrun & _ & _ & _ & Hf); [vm_compute; reflexivity ..|].
  exists h'. split; [exact Hrun|exact Hf].
Defined.

(** X17.  The two halves of [compare_response_with_trace] agree on a trace
    that records the response as it is: when [outputs] is the response, a
    dict without a top-level [content], and the trace has no [metadata],
    the trace content is the API content, result or exception alike. *)
Theorem trace_content_matches_api (h : heap) (lt l : loc)
    (dt d : gmap string val) :
  h !! lt = Some (ODict dt) → dt !! "outputs" = Some (VRef l) →
  dt !! "metadata" = None →
  h !! l = Some (ODict d) → d !! "content" = None →
  TraceVsUiTester.trace_content (VRef lt) h
    = TraceVsUiTester.api_content (VRef l) h.
Proof.
  intros Hlt Hout Hmeta Hl Hcontent.
  assert (dt ≠ ∅) as Hdt. { intros ->. by rewrite lookup_empty in Hout. }
  unfold TraceVsUiTester.trace_content.
  erewrite bind_run; cycle 1.
  { unfold truthy, truth. rewrite Hlt. by rewrite bool_decide_eq_false_2. }
  change (negb false) with true. cbv iota.
  erewrite bind_run; cycle 1.
  { unfold contains. rewrite Hlt, Hout. reflexivity. }
  rewrite bool_decide_eq_true_2 by done.
  unfold bind at 1.
  erewrite bind_run; cycle 1.
  { unfold getitem. rewrite Hlt, Hout. reflexivity. }
  erewrite bind_run; cycle 1.
  { instantiate (1 := false). instantiate (1 := h).
    unfold andM, bind, truthy, truth, contains, ret.
    repeat (simpl; rewrite ?Hl, ?Hcontent).
    destruct (negb _); [|done]. rewrite Hl, Hcontent.
    rewrite bool_decide_eq_false_2; [done|]. by intros [? ?]. }
  cbv iota. fold (TraceVsUiTester.api_content (VRef l)).
  pose proof (api_content_reads (VRef l) h) as Hread.
  destruct (TraceVsUiTester.api_content (VRef l) h) as [h1 [v|e]] eqn:Hapi;
    simpl in Hread; subst h1; [|done].
  erewrite bind_run; cycle 1.
  { instantiate (1 := false). instantiate (1 := h).
    unfold andM, notM, bind, truthy, contains, ret.
    destruct (truth h v); repeat (simpl; rewrite ?Hlt, ?Hmeta); done. }
  done.
Qed.

Lemma trace_content_matches_api_witness :
  TraceVsUiTester.trace_content (VRef 5) (load recorded_trace ∅).2
    = TraceVsUiTester.api_content (VRef 4) (load recorded_trace ∅).2.
Proof.
  apply (trace_content_matches_api (load recorded_trace ∅).2 5 4
           (<["outputs" := VRef 4]> ∅) (<["choices" := VRef 3]> ∅));
    vm_compute; reflexivity.
Defined.

(** ** Choices that are not dicts *)

(** X18.  On every input that [json.dumps] of line 52 accepts (every
    stored document is one) the normalizer returns a value.  When
    [choices] is a list, the value returned holds that same list under
    [choices], the list has the same items in the same order, and every
    item that is not a dict is passed over by the loop body, is still not
    a dict afterwards, and, when it is a list, has its items unchanged.
    The loop goes on past such an item: on an input without the sentinel
    every dict of the list, wherever it stands, ends with a [text] and a
    [message.content]. *)
Theorem transform_response_passes_non_dicts (h : heap) (r : val) :
  serializable h r = true →
  ∃ h' v,
    transform_response r h = (h', Normal v) ∧
    ∀ l lc d items,
      r = VRef l → h !! l = Some (ODict d) →
      d !! "choices" = Some (VRef lc) → h !! lc = Some (OList items) →
      (∃ lo, v = VRef lo ∧ field h' lo "choices" = Some (VRef lc)) ∧
      h' !! lc = Some (OList items) ∧
      (∀ x, x ∈ items → is_dict h x = false →
            (∀ g, is_dict g x = false → process_choice x g = (g, Normal tt)) ∧
            is_dict h' x = false ∧
            (∀ li xs, x = VRef li → h !! li = Some (OList xs) →
                      h' !! li = Some (OList xs))) ∧
      (d !! sentinel = None →
       ∀ c, VRef c ∈ items → is_dict h (VRef c) = true → complete h' c).
Proof.
  intros Hser.
  destruct (is_dict h r) eqn:Hd; cycle 1.
  { exists h, r. rewrite transform_guard by eauto. split; [done|].
    intros l lc d items -> Hl. simpl in Hd. by rewrite Hl in Hd. }
  destruct r as [| | | |l]; try done. simpl in Hd.
  destruct (h !! l) as [[d|]|] eqn:Hl; try done.
  destruct (d !! sentinel) as [s|] eqn:Hs.
  { exists h, (VRef l). rewrite transform_guard by naive_solver. split; [done|].
    intros l' lc d' items Hr Hl' Hc Hlc.
    injection Hr as <-. rewrite Hl in Hl'. injection Hl' as <-.
    split; [|split; [done|split]].
    - exists l. unfold field. rewrite Hl. done.
    - intros x Hx Hnd. split; [intros g Hg; by apply process_choice_skip|]. done.
    - intros Hs'. congruence. }
  pose proof (fresh_loc_None h) as Hfresh.
  assert (∃ h', transform_response (VRef l) h = (h', Normal (VRef l)) ∧ h' = tagged_copy h d
        ∨ ∃ items', transform_response (VRef l) h = (h', Normal (VRef (fresh_loc h))) ∧
                    h' = fix_choices (tagged_copy h d) items') as (h' & Hrun).
  { rewrite (transform_dict h l d) by done.
    destruct (d !! "choices") as [c|]; [|eexists; right; by exists []].
    destruct (truth h c); [|eexists; right; by exists []].
    destruct (snd (iter c h)) as [items'|e]; eauto. }
  exists h'.
  assert (∀ lc items, h !! lc = Some (OList items) → h' !! lc = Some (OList items))
    as Hlists.
  { intros lc items Hlc.
    assert (tagged_copy h d !! lc = Some (OList items)).
    { unfold tagged_copy. rewrite lookup_insert_ne by congruence. done. }
    destruct Hrun as [[_ ->]|(items' & _ & ->)]; [done|].
    by apply fix_choices_list. }
  assert (∃ v, transform_response (VRef l) h = (h', Normal v) ∧
            ∀ lc, d !! "choices" = Some (VRef lc) →
                  ∃ lo, v = VRef lo ∧ field h' lo "choices" = Some (VRef lc))
    as (v & Hv & Hchoices).
  { destruct Hrun as [[Hrun ->]|(items' & Hrun & ->)].
    - exists (VRef l). split; [done|]. intros lc Hc. exists l. split; [done|].
      unfold field, tagged_copy. rewrite lookup_insert_ne by congruence.
      rewrite Hl. done.
    - exists (VRef (fresh_loc h)). split; [done|]. intros lc Hc.
      exists (fresh_loc h). split; [done|]. unfold field.
      destruct (fix_choices_keys items' (tagged_copy h d) (fresh_loc h)
                  (<[sentinel := VBool true]> d)) as (d' & -> & Hk).
      { apply lookup_insert_eq. }
      rewrite Hk by done. rewrite lookup_insert_ne by done. done. }
  exists v. split; [done|].
  intros l' lc d' items Hr Hl' Hc Hlc.
    injection Hr as <-. rewrite Hl in Hl'. injection Hl' as <-.
  split; [by apply Hchoices|]. split; [by apply Hlists|]. split.
  - intros x Hx Hnd. split; [intros g Hg; by apply process_choice_skip|].
    assert (allocated h x) as Hal
      by (eapply serializable_choice_allocated; eauto).
    destruct x as [| | | |li]; try done. simpl in *.
    destruct Hal as [[dx|xs] Hli]; rewrite Hli in Hnd; [done|].
    rewrite (Hlists li xs Hli). split; [done|].
    intros li' xs' [= <-] Hli'. apply Hlists. done.
  - intros _ c Hin Hdc. simpl in Hdc.
    destruct (h !! c) as [[dc|]|] eqn:Hhc; try done.
    destruct items as [|x0 items0]; [by apply elem_of_nil in Hin|].
    rewrite (transform_list h l lc d (x0 :: items0)) in Hv by done.
    injection Hv as <- <-.
    apply (fix_choices_complete (x0 :: items0) (tagged_copy h d) c dc);
      [exact Hin|].
    unfold tagged_copy. rewrite lookup_insert_ne; [exact Hhc|].
    intros E. rewrite E in Hfresh. congruence.
Qed.

Lemma transform_response_passes_non_dicts_witness :
  serializable (stored mixed_choices).2 (stored mixed_choices).1 = true ∧
  ∃ h' v,
    transform_response (stored mixed_choices).1 (stored mixed_choices).2
      = (h', Normal v) ∧
    h' !! 2 = Some (OList [VInt 7; VRef 1]) ∧
    complete h' 1.
Proof.
  split; [vm_compute; reflexivity|].
  destruct (transform_response_passes_non_dicts (stored mixed_choices).2
              (stored mixed_choices).1) as (h' & v & Hrun & Hrest).
  { vm_compute. reflexivity. }
  exists h', v. split; [exact Hrun|].
  destruct (Hrest 3 2 (<["choices" := VRef 2]> ∅) [VInt 7; VRef 1])
    as (_ & Hlist & _ & Hdicts).
  - vm_compute. reflexivity.
  - vm_compute. reflexivity.
  - vm_compute. reflexivity.
  - vm_compute. reflexivity.
  - split; [exact Hlist|]. apply Hdicts.
    + vm_compute. reflexivity.
    + apply list_elem_of_further, list_elem_of_here.
    + vm_compute. reflexivity.
Defined.
